(** * Implicit covariant particle-in-cell solver on a 2D Yee grid

    Shallow embedding of [Covariant/iPiC_2D3V_cov_yee.py] (the flat-metric
    solver) and of the geometry, divergence and charge-deposition routines of
    [Covariant/iPiC_2D3V_cov_yee_staggerd_timestep.py].

    Numbers.  The source computes in [float64].  The embedding computes in the
    canonical rationals [Qc]: every arithmetic operation is exact, so the
    theorems below are statements about the algorithm in exact arithmetic and
    say nothing about rounding.  [np.floor] is [Qfloor], Python's [%] on
    floats is [fmod], Python's [%] on integers is [Z.modulo].

    Two places where rounding changes which subscript is computed are kept
    out of the theorems.  In [float64] the remainder [x % L] can be [L]
    itself (for a tiny negative [x]), and a quotient [x / dx] with [x < Lx]
    can round up to the number of cells; in both cases a subscript that is
    not wrapped passes the end of its axis and the source raises
    [IndexError], where the exact quotient stays inside.  The theorems about
    the gather, the deposit of the current, the residual and the main cycle
    are therefore about calls that return: they state what the result is,
    and not that there is one.

    Arrays.  A one-dimensional [ndarray] is a [list Qc]; a two-dimensional one
    is the list of its rows.  Slices are [take]/[drop]; slice assignments
    rebuild the list.  Integer subscripts computed from particle positions
    ([f[i1,j1]], [Jx[i1,j1] += ...]) follow NumPy: a negative subscript counts
    from the end, a subscript outside [-n, n) raises [IndexError], modelled by
    [None]. *)

From Stdlib Require Import QArith Qcanon Qround ZArith Lia Lqa.
From stdpp Require Import base tactics option list numbers.

Local Close Scope Qc_scope.
Local Open Scope nat_scope.
Local Open Scope Qc_scope.

(** ** Scalars *)

(** [int(np.floor(x))] *)
Definition Qcfloor (x : Qc) : Z := Qfloor x.

(** Python's [x % L] on floats: the result has the sign of [L].  The exact
    remainder is below [L]; the rounded one can equal [L]. *)
Definition fmod (x L : Qc) : Qc := x - L * Qc_of_Z (Qcfloor (x / L)).

(** Decimal literals of the source. *)
Definition Qc_of_nat (n : nat) : Qc := Qc_of_Z (Z.of_nat n).
Definition decimal (num : Z) (den : positive) : Qc := Q2Qc (num # den).

(** ** One-dimensional arrays *)

Abbreviation vec := (list Qc).

Definition nth0 (l : vec) (i : nat) : Qc := default 0 (l !! i).

(** [l[lo:hi]] for [0 <= lo], [0 <= hi]; like NumPy, the slice is clipped to
    the length of [l]. *)
Definition slice {A} (lo hi : nat) (l : list A) : list A :=
  take (hi - lo) (drop lo l).

(** [l[lo:hi] = v], where [v] has [hi - lo] entries and [hi <= len(l)]. *)
Definition set_slice {A} (lo hi : nat) (v l : list A) : list A :=
  take lo l ++ v ++ drop hi l.

Definition zeros (n : nat) : vec := replicate n 0.
Definition ones (n : nat) : vec := replicate n 1.

Definition vadd (a b : vec) : vec := zip_with Qcplus a b.
Definition vsub (a b : vec) : vec := zip_with Qcminus a b.
Definition vmul (a b : vec) : vec := zip_with Qcmult a b.
Definition vdiv (a b : vec) : vec := zip_with Qcdiv a b.
Definition vscale (k : Qc) (a : vec) : vec := Qcmult k <$> a.
Definition vdivs (a : vec) (k : Qc) : vec := (λ x, x / k) <$> a.
Definition vmuls (a : vec) (k : Qc) : vec := (λ x, x * k) <$> a.
Definition vmod (a : vec) (L : Qc) : vec := (λ x, fmod x L) <$> a.

Definition vsum (a : vec) : Qc := foldr Qcplus 0 a.

(** ** Two-dimensional arrays *)

Abbreviation arr2 := (list (list Qc)).

Definition shape2 (r c : nat) (a : arr2) : Prop :=
  length a = r ∧ Forall (λ row, length row = c) a.

Definition row_of (a : arr2) (i : nat) : vec := default [] (a !! i).
Definition at2 (a : arr2) (i j : nat) : Qc := nth0 (row_of a i) j.

Definition zeros2 (r c : nat) : arr2 := replicate r (zeros c).
Definition ones2 (r c : nat) : arr2 := replicate r (ones c).

Definition add2 (a b : arr2) : arr2 := zip_with vadd a b.
Definition sub2 (a b : arr2) : arr2 := zip_with vsub a b.
Definition mul2 (a b : arr2) : arr2 := zip_with vmul a b.
Definition div2 (a b : arr2) : arr2 := zip_with vdiv a b.
Definition vneg (a : vec) : vec := Qcopp <$> a.
Definition neg2 (a : arr2) : arr2 := vneg <$> a.
Definition scale2 (k : Qc) (a : arr2) : arr2 := vscale k <$> a.
Definition divs2 (a : arr2) (k : Qc) : arr2 := (λ r, vdivs r k) <$> a.

(** [np.sum(a)] *)
Definition sum2 (a : arr2) : Qc := vsum (vsum <$> a).

(** [a[r0:r1, c0:c1]] *)
Definition slice2 (r0 r1 c0 c1 : nat) (a : arr2) : arr2 :=
  slice c0 c1 <$> slice r0 r1 a.
(** [a[r0:r1, c]] *)
Definition col2 (r0 r1 c : nat) (a : arr2) : vec :=
  (λ row, nth0 row c) <$> slice r0 r1 a.
(** [a[r, c0:c1]] *)
Definition row2 (r c0 c1 : nat) (a : arr2) : vec :=
  slice c0 c1 (row_of a r).

(** [a[r0:r1, c0:c1] = rhs] *)
Definition set_slice2 (r0 r1 c0 c1 : nat) (rhs a : arr2) : arr2 :=
  set_slice r0 r1
    (zip_with (λ new old, set_slice c0 c1 new old) rhs (slice r0 r1 a)) a.
(** [a[r0:r1, c] = rhs] *)
Definition set_col2 (r0 r1 c : nat) (rhs : vec) (a : arr2) : arr2 :=
  set_slice r0 r1
    (zip_with (λ new old, <[c := new]> old) rhs (slice r0 r1 a)) a.
(** [a[r, c0:c1] = rhs] *)
Definition set_row2 (r c0 c1 : nat) (rhs : vec) (a : arr2) : arr2 :=
  <[r := set_slice c0 c1 rhs (row_of a r)]> a.

(** [a.reshape(r*c)] of a C-contiguous array: the rows one after the other. *)
Definition flatten2 (a : arr2) : vec := concat a.

(** [np.reshape(v, (r, c))] *)
Fixpoint reshape2 (r c : nat) (v : vec) : arr2 :=
  match r with
  | O => []
  | S r' => take c v :: reshape2 r' c (drop c v)
  end.

(** ** Subscripts computed at run time *)

(** NumPy's reading of one integer subscript on an axis of length [n]. *)
Definition py_index (n : nat) (i : Z) : option nat :=
  if decide (0 ≤ i < Z.of_nat n)%Z then Some (Z.to_nat i)
  else if decide (- Z.of_nat n ≤ i < 0)%Z then Some (Z.to_nat (Z.of_nat n + i))
  else None.

(** [a[i, j]] *)
Definition get2 (a : arr2) (i j : Z) : option Qc :=
  ki ← py_index (length a) i;
  row ← a !! ki;
  kj ← py_index (length row) j;
  row !! kj.

(** [a[i, j] += v] *)
Definition add_at (a : arr2) (i j : Z) (v : Qc) : option arr2 :=
  ki ← py_index (length a) i;
  row ← a !! ki;
  kj ← py_index (length row) j;
  old ← row !! kj;
  Some (<[ki := <[kj := old + v]> row]> a).

(** [for i in order: s = body(i, s)], stopping at the first exception. *)
Fixpoint for_each {S} (body : nat → S → option S) (order : list nat) (s : S)
  : option S :=
  match order with
  | [] => Some s
  | i :: rest => s' ← body i s; for_each body rest s'
  end.

(** ** Parameters and grids

    [nx], [ny], [Lx], [Ly], [dt] and [npart] are module-level constants of the
    source; they are collected in a record.  The source needs [nx, ny >= 1]
    ([dx = Lx/nxc] raises otherwise). *)

Record config := Config {
  nx : nat; ny : nat;
  Lx : Qc; Ly : Qc;
  dt : Qc;
  npart : nat
}.

(** The four staggered grids: left-right faces, up-down faces, centres and
    corners (nodes). *)
Inductive grid := LR | UD | C | N.

(** Source/target grid pair and direction of [avg] and [dirder]. *)
Inductive stencil_type := C2UD | C2LR | UD2N | LR2N | N2LR | N2UD | LR2C | UD2C.

(** The [fieldtype] argument of [curl] and [div]. *)
Inductive field_type := E | B.

(** The metric arrays of [iPiC_2D3V_cov_yee.py] (globals [g11e] .. [g33b],
    [J_UD], [J_LR], [J_c], [J_n]). *)
Record metric := Metric {
  g11e : arr2; g12e : arr2; g13e : arr2;
  g21e : arr2; g22e : arr2; g23e : arr2;
  g31e : arr2; g32e : arr2; g33e : arr2;
  g11b : arr2; g12b : arr2; g13b : arr2;
  g21b : arr2; g22b : arr2; g23b : arr2;
  g31b : arr2; g32b : arr2; g33b : arr2;
  J_UD : arr2; J_LR : arr2; J_c : arr2; J_n : arr2
}.

(** The mutable globals of [iPiC_2D3V_cov_yee.py]. *)
Record state := State {
  Ex : arr2; Ey : arr2; Ez : arr2;
  Bx : arr2; By : arr2; Bz : arr2;
  x : vec; y : vec;
  u : vec; v : vec; w : vec;
  q : vec; QM : vec
}.

Section Solver.
Context (cfg : config).

Definition nxc : nat := nx cfg.
Definition nyc : nat := ny cfg.
Definition nxn : nat := nxc + 1.
Definition nyn : nat := nyc + 1.
Definition dx : Qc := Lx cfg / Qc_of_nat nxc.
Definition dy : Qc := Ly cfg / Qc_of_nat nyc.

(** Shape of the arrays living on each grid ([np.shape(xLR)] etc.). *)
Definition grid_shape (g : grid) : nat * nat :=
  match g with
  | LR => (nxn, nyc)
  | UD => (nxc, nyn)
  | C => (nxc, nyc)
  | N => (nxn, nyn)
  end.

Definition on_grid (g : grid) (a : arr2) : Prop :=
  shape2 (grid_shape g).1 (grid_shape g).2 a.

(** Lines 50-73 of [iPiC_2D3V_cov_yee.py]: the identity metric. *)
Definition flat_metric : metric := {|
  J_UD := ones2 nxc nyn; J_LR := ones2 nxn nyc;
  J_c := ones2 nxc nyc; J_n := ones2 nxn nyn;
  g11e := ones2 nxn nyc; g12e := zeros2 nxc nyn; g13e := zeros2 nxc nyc;
  g21e := zeros2 nxn nyc; g22e := ones2 nxc nyn; g23e := zeros2 nxc nyc;
  g31e := zeros2 nxn nyc; g32e := zeros2 nxc nyn; g33e := ones2 nxc nyc;
  g11b := ones2 nxc nyn; g12b := zeros2 nxn nyc; g13b := zeros2 nxn nyn;
  g21b := zeros2 nxc nyn; g22b := ones2 nxn nyc; g23b := zeros2 nxn nyn;
  g31b := zeros2 nxc nyn; g32b := zeros2 nxn nyc; g33b := ones2 nxn nyn
|}.

(** ** Stencil operators *)

(** [avg(field, avgtype)] *)
Definition avg (field : arr2) (avgtype : stencil_type) : arr2 :=
  match avgtype with
  | C2UD => (* centres to UD faces, y-average *)
    let avgfield := zeros2 nxc nyn in
    let avgfield := set_slice2 0 nxc 1 (nyn-1)
      (divs2 (add2 (slice2 0 nxc 1 nyc field) (slice2 0 nxc 0 (nyc-1) field)) 2)
      avgfield in
    let avgfield := set_col2 0 nxc 0
      (vdivs (vadd (col2 0 nxc 0 field) (col2 0 nxc (nyc-1) field)) 2)
      avgfield in
    set_col2 0 nxc (nyn-1) (col2 0 nxc 0 avgfield) avgfield
  | C2LR => (* centres to LR faces, x-average *)
    let avgfield := zeros2 nxn nyc in
    let avgfield := set_slice2 1 (nxn-1) 0 nyc
      (divs2 (add2 (slice2 1 nxc 0 nyc field) (slice2 0 (nxc-1) 0 nyc field)) 2)
      avgfield in
    let avgfield := set_row2 0 0 nyc
      (vdivs (vadd (row2 0 0 nyc field) (row2 (nxc-1) 0 nyc field)) 2)
      avgfield in
    set_row2 (nxn-1) 0 nyc (row2 0 0 nyc avgfield) avgfield
  | UD2N => (* UD faces to nodes, x-average *)
    let avgfield := zeros2 nxn nyn in
    let avgfield := set_slice2 1 (nxn-1) 0 nyn
      (divs2 (add2 (slice2 1 nxc 0 nyn field) (slice2 0 (nxc-1) 0 nyn field)) 2)
      avgfield in
    let avgfield := set_row2 0 0 nyn
      (vdivs (vadd (row2 0 0 nyn field) (row2 (nxc-1) 0 nyn field)) 2)
      avgfield in
    set_row2 (nxn-1) 0 nyn (row2 0 0 nyn avgfield) avgfield
  | LR2N => (* LR faces to nodes, y-average *)
    let avgfield := zeros2 nxn nyn in
    let avgfield := set_slice2 0 nxn 1 (nyn-1)
      (divs2 (add2 (slice2 0 nxn 1 nyc field) (slice2 0 nxn 0 (nyc-1) field)) 2)
      avgfield in
    let avgfield := set_col2 0 nxn 0
      (vdivs (vadd (col2 0 nxn 0 field) (col2 0 nxn (nyc-1) field)) 2)
      avgfield in
    set_col2 0 nxn (nyn-1) (col2 0 nxn 0 avgfield) avgfield
  | N2LR => (* nodes to LR faces, y-average *)
    let avgfield := zeros2 nxn nyc in
    set_slice2 0 nxn 0 nyc
      (divs2 (add2 (slice2 0 nxn 1 nyn field) (slice2 0 nxn 0 (nyn-1) field)) 2)
      avgfield
  | N2UD => (* nodes to UD faces, x-average *)
    let avgfield := zeros2 nxc nyn in
    set_slice2 0 nxc 0 nyn
      (divs2 (add2 (slice2 1 nxn 0 nyn field) (slice2 0 (nxn-1) 0 nyn field)) 2)
      avgfield
  | LR2C => (* LR faces to centres, x-average *)
    let avgfield := zeros2 nxc nyc in
    set_slice2 0 nxc 0 nyc
      (divs2 (add2 (slice2 1 nxn 0 nyc field) (slice2 0 (nxn-1) 0 nyc field)) 2)
      avgfield
  | UD2C => (* UD faces to centres, y-average *)
    let avgfield := zeros2 nxc nyc in
    set_slice2 0 nxc 0 nyc
      (divs2 (add2 (slice2 0 nxc 1 nyn field) (slice2 0 nxc 0 (nyn-1) field)) 2)
      avgfield
  end.

(** [dirder(field, dertype)] *)
Definition dirder (field : arr2) (dertype : stencil_type) : arr2 :=
  match dertype with
  | C2UD => (* centres to UD faces, y-derivative *)
    let derfield := zeros2 nxc nyn in
    let derfield := set_slice2 0 nxc 1 (nyn-1)
      (divs2 (sub2 (slice2 0 nxc 1 nyc field) (slice2 0 nxc 0 (nyc-1) field)) dy)
      derfield in
    let derfield := set_col2 0 nxc 0
      (vdivs (vsub (col2 0 nxc 0 field) (col2 0 nxc (nyc-1) field)) dy)
      derfield in
    set_col2 0 nxc (nyn-1) (col2 0 nxc 0 derfield) derfield
  | C2LR => (* centres to LR faces, x-derivative *)
    let derfield := zeros2 nxn nyc in
    let derfield := set_slice2 1 (nxn-1) 0 nyc
      (divs2 (sub2 (slice2 1 nxc 0 nyc field) (slice2 0 (nxc-1) 0 nyc field)) dx)
      derfield in
    let derfield := set_row2 0 0 nyc
      (vdivs (vsub (row2 0 0 nyc field) (row2 (nxc-1) 0 nyc field)) dx)
      derfield in
    set_row2 (nxn-1) 0 nyc (row2 0 0 nyc derfield) derfield
  | UD2N => (* UD faces to nodes, x-derivative *)
    let derfield := zeros2 nxn nyn in
    let derfield := set_slice2 1 (nxn-1) 0 nyn
      (divs2 (sub2 (slice2 1 nxc 0 nyn field) (slice2 0 (nxc-1) 0 nyn field)) dx)
      derfield in
    let derfield := set_row2 0 0 nyn
      (vdivs (vsub (row2 0 0 nyn field) (row2 (nxc-1) 0 nyn field)) dx)
      derfield in
    set_row2 (nxn-1) 0 nyn (row2 0 0 nyn derfield) derfield
  | LR2N => (* LR faces to nodes, y-derivative *)
    let derfield := zeros2 nxn nyn in
    let derfield := set_slice2 0 nxn 1 (nyn-1)
      (divs2 (sub2 (slice2 0 nxn 1 nyc field) (slice2 0 nxn 0 (nyc-1) field)) dy)
      derfield in
    let derfield := set_col2 0 nxn 0
      (vdivs (vsub (col2 0 nxn 0 field) (col2 0 nxn (nyc-1) field)) dy)
      derfield in
    set_col2 0 nxn (nyn-1) (col2 0 nxn 0 derfield) derfield
  | N2LR => (* nodes to LR faces, y-derivative *)
    let derfield := zeros2 nxn nyc in
    set_slice2 0 nxn 0 nyc
      (divs2 (sub2 (slice2 0 nxn 1 nyn field) (slice2 0 nxn 0 (nyn-1) field)) dy)
      derfield
  | N2UD => (* nodes to UD faces, x-derivative *)
    let derfield := zeros2 nxc nyn in
    set_slice2 0 nxc 0 nyn
      (divs2 (sub2 (slice2 1 nxn 0 nyn field) (slice2 0 (nxn-1) 0 nyn field)) dx)
      derfield
  | LR2C => (* LR faces to centres, x-derivative *)
    let derfield := zeros2 nxc nyc in
    set_slice2 0 nxc 0 nyc
      (divs2 (sub2 (slice2 1 nxn 0 nyc field) (slice2 0 (nxn-1) 0 nyc field)) dx)
      derfield
  | UD2C => (* UD faces to centres, y-derivative *)
    let derfield := zeros2 nxc nyc in
    set_slice2 0 nxc 0 nyc
      (divs2 (sub2 (slice2 0 nxc 1 nyn field) (slice2 0 nxc 0 (nyn-1) field)) dy)
      derfield
  end.

(** Source and destination grid of each stencil type. *)
Definition src_grid (t : stencil_type) : grid :=
  match t with
  | C2UD | C2LR => C
  | UD2N | UD2C => UD
  | LR2N | LR2C => LR
  | N2LR | N2UD => N
  end.
Definition dst_grid (t : stencil_type) : grid :=
  match t with
  | C2UD | N2UD => UD
  | C2LR | N2LR => LR
  | UD2N | LR2N => N
  | LR2C | UD2C => C
  end.

(** [curl(fieldx, fieldy, fieldz, fieldtype)] of [iPiC_2D3V_cov_yee.py]:
    [E]: input on LR, UD, C, output on UD, LR, N;
    [B]: input on UD, LR, N, output on LR, UD, C. *)
Definition curl (m : metric) (fieldx fieldy fieldz : arr2) (fieldtype : field_type)
  : arr2 * arr2 * arr2 :=
  match fieldtype with
  | E =>
    let curl_x :=
      div2 (add2 (add2 (dirder (avg (mul2 (g31e m) fieldx) LR2C) C2UD)
                       (dirder (avg (mul2 (g32e m) fieldy) UD2C) C2UD))
                 (dirder (mul2 (g33e m) fieldz) C2UD)) (J_UD m) in
    let curl_y :=
      div2 (neg2 (add2 (add2 (dirder (avg (mul2 (g31e m) fieldx) LR2C) C2LR)
                             (dirder (avg (mul2 (g32e m) fieldy) UD2C) C2LR))
                       (dirder (mul2 (g33e m) fieldz) C2LR))) (J_LR m) in
    let curl_z :=
      div2 (add2 (add2 (sub2 (add2 (add2
              (dirder (avg (avg (mul2 (g21e m) fieldx) LR2C) C2UD) UD2N)
              (dirder (mul2 (g22e m) fieldy) UD2N))
              (dirder (avg (mul2 (g13e m) fieldz) C2UD) UD2N))
              (dirder (mul2 (g11e m) fieldx) LR2N))
              (dirder (avg (avg (mul2 (g12e m) fieldy) UD2C) C2LR) LR2N))
              (dirder (avg (mul2 (g13e m) fieldz) C2LR) LR2N)) (J_n m) in
    (curl_x, curl_y, curl_z)
  | B =>
    let curl_x :=
      div2 (add2 (add2 (dirder (avg (mul2 (g31b m) fieldx) UD2N) N2LR)
                       (dirder (avg (mul2 (g32b m) fieldy) LR2N) N2LR))
                 (dirder (mul2 (g33b m) fieldz) N2LR)) (J_LR m) in
    let curl_y :=
      div2 (neg2 (add2 (add2 (dirder (avg (mul2 (g31b m) fieldx) UD2N) N2UD)
                             (dirder (avg (mul2 (g32b m) fieldy) LR2N) N2UD))
                       (dirder (mul2 (g33b m) fieldz) N2UD))) (J_UD m) in
    let curl_z :=
      div2 (add2 (add2 (sub2 (add2 (add2
              (dirder (avg (avg (mul2 (g21b m) fieldx) UD2N) N2LR) LR2C)
              (dirder (mul2 (g22b m) fieldy) LR2C))
              (dirder (avg (mul2 (g13b m) fieldz) N2LR) LR2C))
              (dirder (mul2 (g11b m) fieldx) UD2C))
              (dirder (avg (avg (mul2 (g12b m) fieldy) LR2N) N2UD) UD2C))
              (dirder (avg (mul2 (g13b m) fieldz) N2UD) UD2C)) (J_c m) in
    (curl_x, curl_y, curl_z)
  end.

(** ** The Krylov vector *)

(** [phys_to_krylov(Exk, Eyk, Ezk, uk, vk, wk)] *)
Definition phys_to_krylov (Exk Eyk Ezk : arr2) (uk vk wk : vec) : vec :=
  let np := npart cfg in
  let ykrylov := zeros (nxn*nyc + nxc*nyn + nxc*nyc + 3*np) in
  let ykrylov := set_slice 0 (nxn*nyc) (flatten2 Exk) ykrylov in
  let ykrylov := set_slice (nxn*nyc) (nxn*nyc + nxc*nyn) (flatten2 Eyk) ykrylov in
  let ykrylov := set_slice (nxn*nyc + nxc*nyn) (nxn*nyc + nxc*nyn + nxc*nyc)
                   (flatten2 Ezk) ykrylov in
  let ykrylov := set_slice (nxn*nyc + nxc*nyn + nxc*nyc)
                   (nxn*nyc + nxc*nyn + nxc*nyc + np) uk ykrylov in
  let ykrylov := set_slice (nxn*nyc + nxc*nyn + nxc*nyc + np)
                   (nxn*nyc + nxc*nyn + nxc*nyc + 2*np) vk ykrylov in
  let ykrylov := set_slice (nxn*nyc + nxc*nyn + nxc*nyc + 2*np)
                   (nxn*nyc + nxc*nyn + nxc*nyc + 3*np) wk ykrylov in
  ykrylov.

(** [krylov_to_phys(xkrylov)] *)
Definition krylov_to_phys (xkrylov : vec)
  : arr2 * arr2 * arr2 * vec * vec * vec :=
  let np := npart cfg in
  let Exk := reshape2 nxn nyc (slice 0 (nxn*nyc) xkrylov) in
  let Eyk := reshape2 nxc nyn (slice (nxn*nyc) (nxn*nyc + nxc*nyn) xkrylov) in
  let Ezk := reshape2 nxc nyc
               (slice (nxn*nyc + nxc*nyn) (nxn*nyc + nxc*nyn + nxc*nyc) xkrylov) in
  let uk := slice (nxn*nyc + nxc*nyn + nxc*nyc)
                  (nxn*nyc + nxc*nyn + nxc*nyc + np) xkrylov in
  let vk := slice (nxn*nyc + nxc*nyn + nxc*nyc + np)
                  (nxn*nyc + nxc*nyn + nxc*nyc + 2*np) xkrylov in
  let wk := slice (nxn*nyc + nxc*nyn + nxc*nyc + 2*np)
                  (nxn*nyc + nxc*nyn + nxc*nyc + 3*np) xkrylov in
  (Exk, Eyk, Ezk, uk, vk, wk).

(** Length of the Krylov vector. *)
Definition krylov_len : nat := nxn*nyc + nxc*nyn + nxc*nyc + 3 * npart cfg.

(** ** Particle-grid transfer *)

(** The four nodes around a particle and the bilinear weights, as the local
    variables [i1, i2, j1, j2, wx1, wx2, wy1, wy2] of the source. *)
Record stencil := Stencil {
  i1 : Z; i2 : Z; j1 : Z; j2 : Z;
  wx1 : Qc; wx2 : Qc; wy1 : Qc; wy2 : Qc
}.

(** Body of the loop of [grid_to_particle] up to the periodic wrap: the
    half-cell offsets [fx], [fy] depend on the grid type; the subscripts are
    wrapped on the axes on which that grid has no duplicated edge. *)
Definition gather_stencil (gridtype : grid) (xk yk : Qc) : stencil :=
  let '(fx, fy) :=
    match gridtype with
    | LR => (0, dy / 2)
    | UD => (dx / 2, 0)
    | C => (dx / 2, dy / 2)
    | N => (0, 0)
    end in
  let xa := (xk - fx) / dx in
  let ya := (yk - fy) / dy in
  let i1 := Qcfloor xa in
  let i2 := (i1 + 1)%Z in
  let j1 := Qcfloor ya in
  let j2 := (j1 + 1)%Z in
  let wx2 := xa - Qc_of_Z i1 in
  let wx1 := 1 - wx2 in
  let wy2 := ya - Qc_of_Z j1 in
  let wy1 := 1 - wy2 in
  let '(i1, i2, j1, j2) :=
    match gridtype with
    | LR => (i1, i2, j1 `mod` Z.of_nat nyc, j2 `mod` Z.of_nat nyc)%Z
    | UD => (i1 `mod` Z.of_nat nxc, i2 `mod` Z.of_nat nxc, j1, j2)%Z
    | C => (i1 `mod` Z.of_nat nxc, i2 `mod` Z.of_nat nxc,
            j1 `mod` Z.of_nat nyc, j2 `mod` Z.of_nat nyc)%Z
    | N => (i1, i2, j1, j2)
    end in
  Stencil i1 i2 j1 j2 wx1 wx2 wy1 wy2.

(** [wx1*wy1*f[i1,j1] + wx2*wy1*f[i2,j1] + wx1*wy2*f[i1,j2] + wx2*wy2*f[i2,j2]] *)
Definition interpolate (f : arr2) (s : stencil) : option Qc :=
  f11 ← get2 f (i1 s) (j1 s);
  f21 ← get2 f (i2 s) (j1 s);
  f12 ← get2 f (i1 s) (j2 s);
  f22 ← get2 f (i2 s) (j2 s);
  Some (wx1 s * wy1 s * f11 + wx2 s * wy1 s * f21
        + wx1 s * wy2 s * f12 + wx2 s * wy2 s * f22).

(** [grid_to_particle(xk, yk, f, gridtype)] *)
Definition grid_to_particle (xk yk : vec) (f : arr2) (gridtype : grid)
  : option vec :=
  mapM (λ i, xi ← xk !! i; yi ← yk !! i;
             interpolate f (gather_stencil gridtype xi yi))
       (seq 0 (npart cfg)).

(** The four accumulations [a[i1,j1] += wx1*wy1*val] ... of a deposit, in
    source order. *)
Definition scatter (a : arr2) (s : stencil) (val : Qc → Qc) : option arr2 :=
  a ← add_at a (i1 s) (j1 s) (val (wx1 s * wy1 s));
  a ← add_at a (i2 s) (j1 s) (val (wx2 s * wy1 s));
  a ← add_at a (i1 s) (j2 s) (val (wx1 s * wy2 s));
  add_at a (i2 s) (j2 s) (val (wx2 s * wy2 s)).

(** Subscripts and weights of the three deposits of [particle_to_grid_J]. *)
Definition deposit_stencil_LR (xk yk : Qc) : stencil :=
  let xa := xk / dx in
  let ya := (yk - dy / 2) / dy in
  let i1 := Qcfloor xa in
  let i2 := (i1 + 1)%Z in
  let i2 := if decide (i2 = Z.of_nat nxn - 1)%Z then 0%Z else i2 in
  let j1 := Qcfloor ya in
  let j2 := (j1 + 1)%Z in
  let wx2 := xa - Qc_of_Z i1 in
  let wx1 := 1 - wx2 in
  let wy2 := ya - Qc_of_Z j1 in
  let wy1 := 1 - wy2 in
  Stencil i1 i2 (j1 `mod` Z.of_nat nyc) (j2 `mod` Z.of_nat nyc) wx1 wx2 wy1 wy2.

Definition deposit_stencil_UD (xk yk : Qc) : stencil :=
  let xa := (xk - dx / 2) / dx in
  let ya := yk / dy in
  let i1 := Qcfloor xa in
  let i2 := (i1 + 1)%Z in
  let j1 := Qcfloor ya in
  let j2 := (j1 + 1)%Z in
  let j2 := if decide (j2 = Z.of_nat nyn - 1)%Z then 0%Z else j2 in
  let wx2 := xa - Qc_of_Z i1 in
  let wx1 := 1 - wx2 in
  let wy2 := ya - Qc_of_Z j1 in
  let wy1 := 1 - wy2 in
  Stencil (i1 `mod` Z.of_nat nxc) (i2 `mod` Z.of_nat nxc) j1 j2 wx1 wx2 wy1 wy2.

Definition deposit_stencil_C (xk yk : Qc) : stencil :=
  let xa := (xk - dx / 2) / dx in
  let ya := (yk - dy / 2) / dy in
  let i1 := Qcfloor xa in
  let i2 := (i1 + 1)%Z in
  let j1 := Qcfloor ya in
  let j2 := (j1 + 1)%Z in
  let wx2 := xa - Qc_of_Z i1 in
  let wx1 := 1 - wx2 in
  let wy2 := ya - Qc_of_Z j1 in
  let wy1 := 1 - wy2 in
  Stencil (i1 `mod` Z.of_nat nxc) (i2 `mod` Z.of_nat nxc)
          (j1 `mod` Z.of_nat nyc) (j2 `mod` Z.of_nat nyc) wx1 wx2 wy1 wy2.

(** One pass of the loop body of [particle_to_grid_J] for particle [i]. *)
Definition deposit_J_body (xk yk uk vk wk qk : vec) (i : nat)
    (J : arr2 * arr2 * arr2) : option (arr2 * arr2 * arr2) :=
  let '(Jx, Jy, Jz) := (J : arr2 * arr2 * arr2) in
  xi ← xk !! i; yi ← yk !! i;
  ui ← uk !! i; vi ← vk !! i; wi ← wk !! i; qi ← qk !! i;
  Jx ← scatter Jx (deposit_stencil_LR xi yi) (λ ww, ww * qi * ui / dx / dy);
  Jy ← scatter Jy (deposit_stencil_UD xi yi) (λ ww, ww * qi * vi / dx / dy);
  Jz ← scatter Jz (deposit_stencil_C xi yi) (λ ww, ww * qi * wi / dx / dy);
  Some (Jx, Jy, Jz).

(** [particle_to_grid_J(xk, yk, uk, vk, wk, qk)], with the particles visited
    in the given order; the source visits [range(npart)]. *)
Definition particle_to_grid_J_in (order : list nat) (xk yk uk vk wk qk : vec)
  : option (arr2 * arr2 * arr2) :=
  let Jx := zeros2 nxn nyc in
  let Jy := zeros2 nxc nyn in
  let Jz := zeros2 nxc nyc in
  J ← for_each (S := arr2 * arr2 * arr2)
         (deposit_J_body xk yk uk vk wk qk) order (Jx, Jy, Jz);
  let '(Jx, Jy, Jz) := (J : arr2 * arr2 * arr2) in
  (* Jx[nxn-1,:] = Jx[0,:] *)
  let Jx := <[(nxn - 1)%nat := row_of Jx 0]> Jx in
  (* Jy[:,nyn-1] = Jy[:,0] *)
  let Jy := (λ row, <[(nyn - 1)%nat := nth0 row 0]> row) <$> Jy in
  Some (Jx, Jy, Jz).

Definition particle_to_grid_J (xk yk uk vk wk qk : vec)
  : option (arr2 * arr2 * arr2) :=
  particle_to_grid_J_in (seq 0 (npart cfg)) xk yk uk vk wk qk.

(** ** The residual

    [residual(xkrylov)] of [iPiC_2D3V_cov_yee.py], for [relativistic = False]
    (the constant value of that flag in the source), so [gbar = np.ones(npart)]. *)
Definition residual (m : metric) (st : state) (xkrylov : vec) : option vec :=
  let '(Exnew, Eynew, Eznew, unew, vnew, wnew) := krylov_to_phys xkrylov in
  let ubar := vdivs (vadd (u st) unew) 2 in
  let vbar := vdivs (vadd (v st) vnew) 2 in
  let wbar := vdivs (vadd (w st) wnew) 2 in
  let gbar := ones (npart cfg) in
  let xbar := vadd (x st) (vdivs (vmuls (vdiv ubar gbar) (dt cfg)) 2) in
  let ybar := vadd (y st) (vdivs (vmuls (vdiv vbar gbar) (dt cfg)) 2) in
  let xbar := vmod xbar (Lx cfg) in
  let ybar := vmod ybar (Ly cfg) in
  J ← particle_to_grid_J xbar ybar
      (vdiv ubar gbar) (vdiv vbar gbar) (vdiv wbar gbar) (q st);
  let '(Jx, Jy, Jz) := (J : arr2 * arr2 * arr2) in
  let Exbar := divs2 (add2 Exnew (Ex st)) 2 in
  let Eybar := divs2 (add2 Eynew (Ey st)) 2 in
  let Ezbar := divs2 (add2 Eznew (Ez st)) 2 in
  let '(curlE_x, curlE_y, curlE_z) := curl m Exbar Eybar Ezbar E in
  let Bxbar := sub2 (Bx st) (scale2 (dt cfg / 2) curlE_x) in
  let Bybar := sub2 (By st) (scale2 (dt cfg / 2) curlE_y) in
  let Bzbar := sub2 (Bz st) (scale2 (dt cfg / 2) curlE_z) in
  let '(curlB_x, curlB_y, curlB_z) := curl m Bxbar Bybar Bzbar B in
  let resEx := add2 (sub2 (sub2 Exnew (Ex st)) (scale2 (dt cfg) curlB_x))
                    (scale2 (dt cfg) Jx) in
  let resEy := add2 (sub2 (sub2 Eynew (Ey st)) (scale2 (dt cfg) curlB_y))
                    (scale2 (dt cfg) Jy) in
  let resEz := add2 (sub2 (sub2 Eznew (Ez st)) (scale2 (dt cfg) curlB_z))
                    (scale2 (dt cfg) Jz) in
  Exp ← grid_to_particle xbar ybar Exbar LR;
  Eyp ← grid_to_particle xbar ybar Eybar UD;
  Ezp ← grid_to_particle xbar ybar Ezbar C;
  Bxp ← grid_to_particle xbar ybar Bxbar UD;
  Byp ← grid_to_particle xbar ybar Bybar LR;
  Bzp ← grid_to_particle xbar ybar Bzbar N;
  let resu := vsub (vsub unew (u st))
    (vmuls (vmul (QM st) (vsub (vadd Exp (vmul (vdiv vbar gbar) Bzp))
                               (vmul (vdiv wbar gbar) Byp))) (dt cfg)) in
  let resv := vsub (vsub vnew (v st))
    (vmuls (vmul (QM st) (vadd (vsub Eyp (vmul (vdiv ubar gbar) Bzp))
                               (vmul (vdiv wbar gbar) Bxp))) (dt cfg)) in
  let resw := vsub (vsub wnew (w st))
    (vmuls (vmul (QM st) (vsub (vadd Ezp (vmul (vdiv ubar gbar) Byp))
                               (vmul (vdiv vbar gbar) Bxp))) (dt cfg)) in
  let ykrylov := phys_to_krylov resEx resEy resEz resu resv resw in
  Some ykrylov.

(** ** The Picard iteration

    [err] is only ever compared with [tol], so the loop carries the square
    [err2] of the Euclidean norm and [exceeds err2 tol] decides
    [sqrt err2 > tol]; no square root is taken. *)
Definition norm2 (a : vec) : Qc := vsum (vmul a a).

Definition exceeds (err2 tol : Qc) : bool :=
  bool_decide (tol < 0) || bool_decide (tol * tol < err2).

(** The [while err > tol and k <= kmax] loop.  Each pass increases [k], so
    [fuel = kmax + 2] passes are more than the guard allows
    (see [picard_loop_ends]); the loop state is [(k, err2, xkrylov)]. *)
Fixpoint picard_loop (tol : Qc) (kmax : nat) (res : vec → option vec)
    (fuel : nat) (k : nat) (err2 : Qc) (xkrylov : vec)
  : option (nat * Qc * vec) :=
  if exceeds err2 tol && bool_decide (k ≤ kmax)%nat then
    match fuel with
    | O => None
    | S fuel =>
      let k := (k + 1)%nat in
      let xkold := xkrylov in
      r ← res xkrylov;
      let xkrylov := vsub xkrylov r in
      let err2 := norm2 (vsub xkrylov xkold) in
      picard_loop tol kmax res fuel k err2 xkrylov
    end
  else Some (k, err2, xkrylov).

(** [err = 1.; k = 0; xkrylov = guess; while ...] *)
Definition picard_with (tol : Qc) (kmax : nat) (res : vec → option vec)
    (guess : vec) : option (nat * Qc * vec) :=
  picard_loop tol kmax res (kmax + 2) 0 1 guess.

(** ** One pass of the main cycle

    The body of [for it in range(1, nt+1)], without the energy diagnostics and
    the plots, which read the committed state and do not change it. *)
Definition cycle_with (tol : Qc) (kmax : nat) (m : metric) (st : state)
  : option state :=
  let guess := phys_to_krylov (Ex st) (Ey st) (Ez st) (u st) (v st) (w st) in
  out ← picard_with tol kmax (residual m st) guess;
  let '(k, err2, xkrylov) := (out : nat * Qc * vec) in
  let sol := xkrylov in
  let '(Exnew, Eynew, Eznew, unew, vnew, wnew) := krylov_to_phys sol in
  let gbar := ones (npart cfg) in
  let ubar := vdivs (vadd unew (u st)) 2 in
  let vbar := vdivs (vadd vnew (v st)) 2 in
  let x' := vadd (x st) (vmuls (vdiv ubar gbar) (dt cfg)) in
  let y' := vadd (y st) (vmuls (vdiv vbar gbar) (dt cfg)) in
  let x' := vmod x' (Lx cfg) in
  let y' := vmod y' (Ly cfg) in
  let Exbar := divs2 (add2 Exnew (Ex st)) 2 in
  let Eybar := divs2 (add2 Eynew (Ey st)) 2 in
  let Ezbar := divs2 (add2 Eznew (Ez st)) 2 in
  let '(curlE_x, curlE_y, curlE_z) := curl m Exbar Eybar Ezbar E in
  let Bx' := sub2 (Bx st) (scale2 (dt cfg) curlE_x) in
  let By' := sub2 (By st) (scale2 (dt cfg) curlE_y) in
  let Bz' := sub2 (Bz st) (scale2 (dt cfg) curlE_z) in
  Some {| Ex := Exnew; Ey := Eynew; Ez := Eznew;
          Bx := Bx'; By := By'; Bz := Bz';
          x := x'; y := y'; u := unew; v := vnew; w := wnew;
          q := q st; QM := QM st |}.

End Solver.

(** [tol = 1e-14] and [kmax = 100] of the main cycle. *)
Definition tol : Qc := decimal 1 100000000000000.
Definition kmax : nat := 100.

Definition picard (cfg : config) (m : metric) (st : state) (guess : vec)
  : option (nat * Qc * vec) :=
  picard_with tol kmax (residual cfg m st) guess.

Definition cycle (cfg : config) (m : metric) (st : state) : option state :=
  cycle_with cfg tol kmax m st.

(** * The curvilinear solver, [iPiC_2D3V_cov_yee_staggerd_timestep.py]

    [avg], [dirder], [phys_to_krylov], [krylov_to_phys], [grid_to_particle]
    and [particle_to_grid_J] are the same text in both files and are shared.
    The model covers the configured solver ([Picard = True],
    [NK_method = False]) and [relativistic = False].

    [np.pi], [np.sin] and [np.cos] are library values on floats; they are
    parameters here, as are the physical grid coordinates that
    [cart_grid_calculator] obtains from [scipy.optimize.minimize]. *)
Module Staggered.

(** What [define_geometry] stores for one grid point: the inverse Jacobian
    ([j11_X] .. [j33_X]), the Jacobian ([J11_X] .. [J33_X]), their
    determinants ([j_X], [J_X]) and the metric ([g11_X] .. [g33_X]).  The
    source keeps one array per entry; the model keeps one table of points per
    grid and reads the arrays off it. *)
Record point_geometry := PointGeometry {
  inverse_jacobian : arr2;
  jacobian : arr2;
  jdet : Qc;
  Jdet : Qc;
  gmetric : arr2
}.

Definition geometry := grid → list (list point_geometry).

Definition entry (f : point_geometry → arr2) (a b : nat) (tbl : list (list point_geometry))
  : arr2 :=
  fmap (M := list) (λ p, at2 (f p) (a - 1) (b - 1)) <$> tbl.

(** [j{a}{b}_{X}], [J{a}{b}_{X}], [g{a}{b}_{X}], [J_{X}], [j_{X}] *)
Definition j_ (geo : geometry) (a b : nat) (X : grid) : arr2 :=
  entry inverse_jacobian a b (geo X).
Definition J_ (geo : geometry) (a b : nat) (X : grid) : arr2 :=
  entry jacobian a b (geo X).
Definition g_ (geo : geometry) (a b : nat) (X : grid) : arr2 :=
  entry gmetric a b (geo X).
Definition Jdet_ (geo : geometry) (X : grid) : arr2 :=
  fmap (M := list) Jdet <$> geo X.
Definition jdet_ (geo : geometry) (X : grid) : arr2 :=
  fmap (M := list) jdet <$> geo X.

Definition identity3 : arr2 := [[1; 0; 0]; [0; 1; 0]; [0; 0; 1]].

(** [np.linalg.det] and [np.linalg.inv] on a 3x3 array, in exact arithmetic:
    cofactor expansion and adjugate.  [inv] raises [LinAlgError] on a
    singular matrix. *)
Definition np_linalg_det (m : arr2) : Qc :=
  at2 m 0 0 * (at2 m 1 1 * at2 m 2 2 - at2 m 1 2 * at2 m 2 1)
  - at2 m 0 1 * (at2 m 1 0 * at2 m 2 2 - at2 m 1 2 * at2 m 2 0)
  + at2 m 0 2 * (at2 m 1 0 * at2 m 2 1 - at2 m 1 1 * at2 m 2 0).

Definition np_linalg_inv (m : arr2) : option arr2 :=
  let d := np_linalg_det m in
  if decide (d = 0) then None
  else Some
    [[ (at2 m 1 1 * at2 m 2 2 - at2 m 1 2 * at2 m 2 1) / d;
       (at2 m 0 2 * at2 m 2 1 - at2 m 0 1 * at2 m 2 2) / d;
       (at2 m 0 1 * at2 m 1 2 - at2 m 0 2 * at2 m 1 1) / d ];
     [ (at2 m 1 2 * at2 m 2 0 - at2 m 1 0 * at2 m 2 2) / d;
       (at2 m 0 0 * at2 m 2 2 - at2 m 0 2 * at2 m 2 0) / d;
       (at2 m 0 2 * at2 m 1 0 - at2 m 0 0 * at2 m 1 2) / d ];
     [ (at2 m 1 0 * at2 m 2 1 - at2 m 1 1 * at2 m 2 0) / d;
       (at2 m 0 1 * at2 m 2 0 - at2 m 0 0 * at2 m 2 1) / d;
       (at2 m 0 0 * at2 m 1 1 - at2 m 0 1 * at2 m 1 0) / d ]].

(** The globals of the curvilinear solver. *)
Record state := State {
  E1 : arr2; E2 : arr2; E3 : arr2;
  B1 : arr2; B2 : arr2; B3 : arr2;
  x : vec; y : vec;
  u : vec; v : vec; w : vec;
  q : vec; QM : vec
}.

(** How a run ends: [define_geometry] raised, pass [it] of the main cycle
    raised, or all [nt] passes were made. *)
Inductive outcome :=
  | GeometryError
  | CycleError (it : nat)
  | Finished (st : state).

Section Curvilinear.
Context (cfg : config).
Context (eps : Qc).
Context (np_pi : Qc) (np_sin np_cos : Qc → Qc).

(** [perturbed_inverse_jacobian_elements(x, y)] at one point *)
Definition perturbed_inverse_jacobian_elements (x y : Qc) : arr2 :=
  let two_pi := 2 * np_pi in
  let j11 := 1 + two_pi * eps * np_cos (two_pi * x / Lx cfg)
                   * np_sin (two_pi * y / Ly cfg) / Lx cfg in
  let j12 := two_pi * eps * np_sin (two_pi * x / Lx cfg)
                   * np_cos (two_pi * y / Ly cfg) / Ly cfg in
  let j13 := 0 in
  let j21 := two_pi * eps * np_cos (two_pi * x / Lx cfg)
                   * np_sin (two_pi * y / Ly cfg) / Lx cfg in
  let j22 := 1 + two_pi * eps * np_sin (two_pi * x / Lx cfg)
                   * np_cos (two_pi * y / Ly cfg) / Ly cfg in
  let j23 := 0 in
  let j31 := 0 in
  let j32 := 0 in
  let j33 := 1 in
  [[j11; j12; j13]; [j21; j22; j23]; [j31; j32; j33]].

(** Body of the double loops of [define_geometry] at the grid point with
    physical coordinates [(xg, yg)]. *)
Definition define_geometry_point (xg yg : Qc) : option point_geometry :=
  let inverse_jacobian := perturbed_inverse_jacobian_elements xg yg in
  jacobian ← np_linalg_inv inverse_jacobian;
  let j := np_linalg_det inverse_jacobian in
  let J := np_linalg_det jacobian in
  let jac := jacobian in
  let g11 := at2 jac 0 0 * at2 jac 0 0 + at2 jac 1 0 * at2 jac 1 0 + at2 jac 2 0 * at2 jac 2 0 in
  let g21 := at2 jac 0 0 * at2 jac 0 1 + at2 jac 1 0 * at2 jac 1 1 + at2 jac 2 0 * at2 jac 2 1 in
  let g31 := at2 jac 0 0 * at2 jac 0 2 + at2 jac 1 0 * at2 jac 1 2 + at2 jac 2 0 * at2 jac 2 2 in
  let g12 := at2 jac 0 0 * at2 jac 0 1 + at2 jac 1 0 * at2 jac 1 1 + at2 jac 2 0 * at2 jac 2 1 in
  let g22 := at2 jac 0 1 * at2 jac 0 1 + at2 jac 1 1 * at2 jac 1 1 + at2 jac 2 1 * at2 jac 2 1 in
  let g32 := at2 jac 0 1 * at2 jac 0 2 + at2 jac 1 1 * at2 jac 1 2 + at2 jac 2 1 * at2 jac 2 2 in
  let g13 := at2 jac 0 0 * at2 jac 0 2 + at2 jac 1 0 * at2 jac 1 2 + at2 jac 2 0 * at2 jac 2 2 in
  let g23 := at2 jac 0 1 * at2 jac 0 2 + at2 jac 1 1 * at2 jac 1 2 + at2 jac 2 1 * at2 jac 2 2 in
  let g33 := at2 jac 0 2 * at2 jac 0 2 + at2 jac 1 2 * at2 jac 1 2 + at2 jac 2 2 * at2 jac 2 2 in
  Some {| inverse_jacobian := inverse_jacobian;
          jacobian := jacobian;
          jdet := j; Jdet := J;
          gmetric := [[g11; g12; g13]; [g21; g22; g23]; [g31; g32; g33]] |}.

(** One of the four double loops of [define_geometry]: the grid with logical
    shape [(r, c)] and physical coordinates [(xs, ys)], row by row; the first
    point at which [np.linalg.inv] raises ends the loop. *)
Definition define_geometry_grid (r c : nat) (xs ys : arr2)
  : option (list (list point_geometry)) :=
  mapM (λ i, mapM (λ j, define_geometry_point (at2 xs i j) (at2 ys i j))
                  (seq 0 c))
       (seq 0 r).

(** [define_geometry()]: grids LR, UD, C, N in that order.  [phys X] are the
    globals [(xX, yX)]. *)
Definition define_geometry (phys : grid → arr2 * arr2) : option geometry :=
  let loop X := define_geometry_grid (grid_shape cfg X).1 (grid_shape cfg X).2
                                     (phys X).1 (phys X).2 in
  gLR ← loop LR;
  gUD ← loop UD;
  gC ← loop C;
  gN ← loop N;
  Some (λ X, match X with LR => gLR | UD => gUD | C => gC | N => gN end).

(** The initial values of the geometry globals (lines 198-208, 296-299,
    351-368 and 420-430): identity matrices and unit determinants. *)
Definition identity_geometry : geometry :=
  λ X, replicate (grid_shape cfg X).1
         (replicate (grid_shape cfg X).2
            (PointGeometry identity3 identity3 1 1 identity3)).

(** Lines 1267-1272: [if perturb: ...; define_geometry()]. *)
Definition initialise_geometry (perturb : bool) (phys : grid → arr2 * arr2)
  : option geometry :=
  if perturb then define_geometry phys else Some identity_geometry.

Context (geo : geometry).

(** [cartesian_to_general(cartx, carty, cartz, fieldtype)]; ['J'] takes the
    branch of ['E']. *)
Definition cartesian_to_general (cartx carty cartz : arr2) (fieldtype : field_type)
  : arr2 * arr2 * arr2 :=
  match fieldtype with
  | E =>
    let carty_LR := avg cfg (avg cfg carty UD2C) C2LR in
    let cartz_LR := avg cfg cartz C2LR in
    let cartx_UD := avg cfg (avg cfg cartx LR2C) C2UD in
    let cartz_UD := avg cfg cartz C2UD in
    let cartx_C := avg cfg cartx LR2C in
    let carty_C := avg cfg carty UD2C in
    let genx1 := add2 (add2 (mul2 (J_ geo 1 1 LR) cartx) (mul2 (J_ geo 1 2 LR) carty_LR))
                      (mul2 (J_ geo 1 3 LR) cartz_LR) in
    let genx2 := add2 (add2 (mul2 (J_ geo 2 1 UD) cartx_UD) (mul2 (J_ geo 2 2 UD) carty))
                      (mul2 (J_ geo 2 3 UD) cartz_UD) in
    let genx3 := add2 (add2 (mul2 (J_ geo 3 1 C) cartx_C) (mul2 (J_ geo 3 2 C) carty_C))
                      (mul2 (J_ geo 3 3 C) cartz) in
    (genx1, genx2, genx3)
  | B =>
    let carty_UD := avg cfg (avg cfg carty LR2C) C2UD in
    let cartz_UD := avg cfg cartz N2UD in
    let cartx_LR := avg cfg (avg cfg cartx UD2C) C2LR in
    let cartz_LR := avg cfg cartz N2LR in
    let cartx_N := avg cfg cartx UD2N in
    let carty_N := avg cfg carty LR2N in
    let genx1 := add2 (add2 (mul2 (J_ geo 1 1 UD) cartx) (mul2 (J_ geo 1 2 UD) carty_UD))
                      (mul2 (J_ geo 1 3 UD) cartz_UD) in
    let genx2 := add2 (add2 (mul2 (J_ geo 2 1 LR) cartx_LR) (mul2 (J_ geo 2 2 LR) carty))
                      (mul2 (J_ geo 2 3 LR) cartz_LR) in
    let genx3 := add2 (add2 (mul2 (J_ geo 3 1 N) cartx_N) (mul2 (J_ geo 3 2 N) carty_N))
                      (mul2 (J_ geo 3 3 N) cartz) in
    (genx1, genx2, genx3)
  end.

(** [general_to_cartesian(genx1, genx2, genx3, fieldtype)] *)
Definition general_to_cartesian (genx1 genx2 genx3 : arr2) (fieldtype : field_type)
  : arr2 * arr2 * arr2 :=
  match fieldtype with
  | E =>
    let genx2_LR := avg cfg (avg cfg genx2 UD2C) C2LR in
    let genx3_LR := avg cfg genx3 C2LR in
    let genx1_UD := avg cfg (avg cfg genx1 LR2C) C2UD in
    let genx3_UD := avg cfg genx3 C2UD in
    let genx1_C := avg cfg genx1 LR2C in
    let genx2_C := avg cfg genx2 UD2C in
    let cartx := add2 (add2 (mul2 (j_ geo 1 1 LR) genx1) (mul2 (j_ geo 1 2 LR) genx2_LR))
                      (mul2 (j_ geo 1 3 LR) genx3_LR) in
    let carty := add2 (add2 (mul2 (j_ geo 2 1 UD) genx1_UD) (mul2 (j_ geo 2 2 UD) genx2))
                      (mul2 (j_ geo 2 3 UD) genx3_UD) in
    let cartz := add2 (add2 (mul2 (j_ geo 3 1 C) genx1_C) (mul2 (j_ geo 3 2 C) genx2_C))
                      (mul2 (j_ geo 3 3 C) genx3) in
    (cartx, carty, cartz)
  | B =>
    let genx2_UD := avg cfg (avg cfg genx2 LR2C) C2UD in
    let genx3_UD := avg cfg genx3 N2UD in
    let genx1_LR := avg cfg (avg cfg genx1 UD2C) C2LR in
    let genx3_LR := avg cfg genx3 N2LR in
    let genx1_N := avg cfg genx1 UD2N in
    let genx2_N := avg cfg genx2 LR2N in
    let cartx := add2 (add2 (mul2 (j_ geo 1 1 UD) genx1) (mul2 (j_ geo 1 2 UD) genx2_UD))
                      (mul2 (j_ geo 1 3 UD) genx3_UD) in
    let carty := add2 (add2 (mul2 (j_ geo 2 1 LR) genx1_LR) (mul2 (j_ geo 2 2 LR) genx2))
                      (mul2 (j_ geo 2 3 LR) genx3_LR) in
    let cartz := add2 (add2 (mul2 (j_ geo 3 1 N) genx1_N) (mul2 (j_ geo 3 2 N) genx2_N))
                      (mul2 (j_ geo 3 3 N) genx3) in
    (cartx, carty, cartz)
  end.

(** [cartesian_to_general_particle(cartx, carty)], on the particle arrays *)
Definition cartesian_to_general_particle (cartx carty : vec) : vec * vec :=
  let s := zip_with (λ cx cy, eps * np_sin (2 * np_pi * cx / Lx cfg)
                                  * np_sin (2 * np_pi * cy / Ly cfg)) cartx carty in
  (vadd cartx s, vadd carty s).

(** [curl(fieldx, fieldy, fieldz, fieldtype)] in general coordinates *)
Definition curl (fieldx fieldy fieldz : arr2) (fieldtype : field_type)
  : arr2 * arr2 * arr2 :=
  match fieldtype with
  | E =>
    let fieldx_C := avg cfg fieldx LR2C in
    let fieldy_C := avg cfg fieldy UD2C in
    let fieldx_UD := avg cfg (avg cfg fieldx LR2C) C2UD in
    let fieldz_UD := avg cfg fieldz C2UD in
    let fieldy_LR := avg cfg (avg cfg fieldy UD2C) C2LR in
    let fieldz_LR := avg cfg fieldz C2LR in
    let curl_x := div2 (dirder cfg (add2 (add2 (mul2 (g_ geo 3 1 C) fieldx_C)
                                               (mul2 (g_ geo 3 2 C) fieldy_C))
                                         (mul2 (g_ geo 3 3 C) fieldz)) C2UD)
                       (Jdet_ geo UD) in
    let curl_y := div2 (neg2 (dirder cfg (add2 (add2 (mul2 (g_ geo 3 1 C) fieldx_C)
                                                     (mul2 (g_ geo 3 2 C) fieldy_C))
                                               (mul2 (g_ geo 3 3 C) fieldz)) C2LR))
                       (Jdet_ geo LR) in
    let curl_z := sub2
      (div2 (dirder cfg (add2 (add2 (mul2 (g_ geo 2 1 UD) fieldx_UD)
                                    (mul2 (g_ geo 2 2 UD) fieldy))
                              (mul2 (g_ geo 2 3 UD) fieldz_UD)) UD2N) (Jdet_ geo N))
      (div2 (dirder cfg (add2 (add2 (mul2 (g_ geo 1 1 LR) fieldx)
                                    (mul2 (g_ geo 1 2 LR) fieldy_LR))
                              (mul2 (g_ geo 1 3 LR) fieldz_LR)) LR2N) (Jdet_ geo N)) in
    (curl_x, curl_y, curl_z)
  | B =>
    let fieldx_N := avg cfg fieldx UD2N in
    let fieldy_N := avg cfg fieldy LR2N in
    let fieldx_LR := avg cfg (avg cfg fieldx UD2N) N2LR in
    let fieldz_LR := avg cfg fieldz N2LR in
    let fieldy_UD := avg cfg (avg cfg fieldy LR2N) N2UD in
    let fieldz_UD := avg cfg fieldz N2UD in
    let curl_x := div2 (dirder cfg (add2 (add2 (mul2 (g_ geo 3 1 N) fieldx_N)
                                               (mul2 (g_ geo 3 2 N) fieldy_N))
                                         (mul2 (g_ geo 3 3 N) fieldz)) N2LR)
                       (Jdet_ geo LR) in
    let curl_y := div2 (neg2 (dirder cfg (add2 (add2 (mul2 (g_ geo 3 1 N) fieldx_N)
                                                     (mul2 (g_ geo 3 2 N) fieldy_N))
                                               (mul2 (g_ geo 3 3 N) fieldz)) N2UD))
                       (Jdet_ geo UD) in
    let curl_z := sub2
      (div2 (dirder cfg (add2 (add2 (mul2 (g_ geo 2 1 LR) fieldx_LR)
                                    (mul2 (g_ geo 2 2 LR) fieldy))
                              (mul2 (g_ geo 2 3 LR) fieldz_LR)) LR2C) (Jdet_ geo C))
      (div2 (dirder cfg (add2 (add2 (mul2 (g_ geo 1 1 UD) fieldx)
                                    (mul2 (g_ geo 1 2 UD) fieldy_UD))
                              (mul2 (g_ geo 1 3 UD) fieldz_UD)) UD2C) (Jdet_ geo C)) in
    (curl_x, curl_y, curl_z)
  end.

(** [div(fieldx, fieldy, fieldz, fieldtype)]: [E] gives an array on C, [B]
    an array on N. *)
Definition div (fieldx fieldy fieldz : arr2) (fieldtype : field_type) : arr2 :=
  match fieldtype with
  | E => div2 (add2 (dirder cfg (mul2 (Jdet_ geo LR) fieldx) LR2C)
                    (dirder cfg (mul2 (Jdet_ geo UD) fieldy) UD2C)) (Jdet_ geo C)
  | B => div2 (add2 (dirder cfg (mul2 (Jdet_ geo UD) fieldx) UD2N)
                    (dirder cfg (mul2 (Jdet_ geo LR) fieldy) LR2N)) (Jdet_ geo N)
  end.

(** The loop of [particle_to_grid_rho]: the charge of each particle goes to
    the four centres around it, the particles being visited in the given
    order. *)
Definition deposit_rho_body (xk yk q : vec) (i : nat) (rho : arr2) : option arr2 :=
  xi ← xk !! i; yi ← yk !! i; qi ← q !! i;
  scatter rho (deposit_stencil_C cfg xi yi) (λ ww, ww * qi).

Definition deposit_rho_in (order : list nat) (xk yk q : vec) : option arr2 :=
  let rho := zeros2 (nxc cfg) (nyc cfg) in
  for_each (deposit_rho_body xk yk q) order rho.

(** [particle_to_grid_rho(xk, yk, q)]; [rho_ion] is the global background and
    [electron_and_ion] the flag that adds it. *)
Definition particle_to_grid_rho (electron_and_ion : bool) (rho_ion : arr2)
    (xk yk q : vec) : option arr2 :=
  rho ← deposit_rho_in (seq 0 (npart cfg)) xk yk q;
  Some (if electron_and_ion then add2 rho rho_ion else rho).

(** [residual(xkrylov)] of the curvilinear solver *)
Definition residual (perturb : bool) (st : state) (xkrylov : vec) : option vec :=
  let '(E1new, E2new, E3new, unew, vnew, wnew) := krylov_to_phys cfg xkrylov in
  let xnew := vadd (x st) (vmuls unew (dt cfg)) in
  let ynew := vadd (y st) (vmuls vnew (dt cfg)) in
  let xbar := vdivs (vadd xnew (x st)) 2 in
  let ybar := vdivs (vadd ynew (y st)) 2 in
  let xbar := vmod xbar (Lx cfg) in
  let ybar := vmod ybar (Ly cfg) in
  let '(xgen1, ygen1) :=
    if perturb then cartesian_to_general_particle xbar ybar else (xbar, ybar) in
  J ← particle_to_grid_J cfg xgen1 ygen1 unew vnew wnew (q st);
  let '(Jx, Jy, Jz) := (J : arr2 * arr2 * arr2) in
  let '(J1, J2, J3) := cartesian_to_general Jx Jy Jz E in
  let '(curlE1, curlE2, curlE3) := curl (E1 st) (E2 st) (E3 st) E in
  let B1new := sub2 (B1 st) (scale2 (dt cfg) curlE1) in
  let B2new := sub2 (B2 st) (scale2 (dt cfg) curlE2) in
  let B3new := sub2 (B3 st) (scale2 (dt cfg) curlE3) in
  let '(curlB1, curlB2, curlB3) := curl B1new B2new B3new B in
  let resE1 := add2 (sub2 (sub2 E1new (E1 st)) (scale2 (dt cfg) curlB1))
                    (scale2 (dt cfg) J1) in
  let resE2 := add2 (sub2 (sub2 E2new (E2 st)) (scale2 (dt cfg) curlB2))
                    (scale2 (dt cfg) J2) in
  let resE3 := add2 (sub2 (sub2 E3new (E3 st)) (scale2 (dt cfg) curlB3))
                    (scale2 (dt cfg) J3) in
  let B1bar := divs2 (add2 B1new (B1 st)) 2 in
  let B2bar := divs2 (add2 B2new (B2 st)) 2 in
  let B3bar := divs2 (add2 B3new (B3 st)) 2 in
  let ubar := vdivs (vadd unew (u st)) 2 in
  let vbar := vdivs (vadd vnew (v st)) 2 in
  let wbar := vdivs (vadd wnew (w st)) 2 in
  let '(Ex, Ey, Ez) := general_to_cartesian (E1 st) (E2 st) (E3 st) E in
  let '(Bx, By, Bz) := general_to_cartesian B1bar B2bar B3bar B in
  let '(xgen2, ygen2) :=
    if perturb then cartesian_to_general_particle (x st) (y st)
    else (x st, y st) in
  Exp ← grid_to_particle cfg xgen2 ygen2 Ex LR;
  Eyp ← grid_to_particle cfg xgen2 ygen2 Ey UD;
  Ezp ← grid_to_particle cfg xgen2 ygen2 Ez C;
  Bxp ← grid_to_particle cfg xgen2 ygen2 Bx UD;
  Byp ← grid_to_particle cfg xgen2 ygen2 By LR;
  Bzp ← grid_to_particle cfg xgen2 ygen2 Bz N;
  let resu := vsub (vsub unew (u st))
    (vmuls (vmul (QM st) (vsub (vadd Exp (vmul vbar Bzp)) (vmul wbar Byp))) (dt cfg)) in
  let resv := vsub (vsub vnew (v st))
    (vmuls (vmul (QM st) (vadd (vsub Eyp (vmul ubar Bzp)) (vmul wbar Bxp))) (dt cfg)) in
  let resw := vsub (vsub wnew (w st))
    (vmuls (vmul (QM st) (vsub (vadd Ezp (vmul ubar Byp)) (vmul vbar Bxp))) (dt cfg)) in
  let ykrylov := phys_to_krylov cfg resE1 resE2 resE3 resu resv resw in
  Some ykrylov.

(** One pass of the main cycle (the [elif Picard] branch and the commit),
    without the diagnostics that follow the commit. *)
Definition cycle_with (tol : Qc) (kmax : nat) (perturb : bool) (st : state)
  : option state :=
  let guess := phys_to_krylov cfg (E1 st) (E2 st) (E3 st) (u st) (v st) (w st) in
  out ← picard_with tol kmax (residual perturb st) guess;
  let '(k, err2, xkrylov) := (out : nat * Qc * vec) in
  let sol := xkrylov in
  let '(E1new, E2new, E3new, unew, vnew, wnew) := krylov_to_phys cfg sol in
  let xnew := vadd (x st) (vmuls unew (dt cfg)) in
  let ynew := vadd (y st) (vmuls vnew (dt cfg)) in
  let xnew := vmod xnew (Lx cfg) in
  let ynew := vmod ynew (Ly cfg) in
  let '(curlE1, curlE2, curlE3) := curl (E1 st) (E2 st) (E3 st) E in
  let B1new := sub2 (B1 st) (scale2 (dt cfg) curlE1) in
  let B2new := sub2 (B2 st) (scale2 (dt cfg) curlE2) in
  let B3new := sub2 (B3 st) (scale2 (dt cfg) curlE3) in
  Some {| E1 := E1new; E2 := E2new; E3 := E3new;
          B1 := B1new; B2 := B2new; B3 := B3new;
          x := xnew; y := ynew; u := unew; v := vnew; w := wnew;
          q := q st; QM := QM st |}.

End Curvilinear.

Section Run.
Context (cfg : config) (eps np_pi : Qc) (np_sin np_cos : Qc → Qc).

(** [for it in range(0, nt)]: pass [it] of the main cycle, then the rest. *)
Fixpoint main_cycle (geo : geometry) (perturb : bool) (nt it : nat) (st : state)
  : outcome :=
  match nt with
  | O => Finished st
  | S nt =>
    match cycle_with cfg eps np_pi np_sin geo tol kmax perturb st with
    | None => CycleError it
    | Some st => main_cycle geo perturb nt (S it) st
    end
  end.

(** The script from the geometry initialisation on: an exception in
    [define_geometry] ends the run before the main cycle is entered. *)
Definition run (perturb : bool) (phys : grid → arr2 * arr2) (nt : nat) (st : state)
  : outcome :=
  match initialise_geometry cfg eps np_pi np_sin np_cos perturb phys with
  | None => GeometryError
  | Some geo => main_cycle geo perturb nt 0 st
  end.

End Run.

End Staggered.

Local Close Scope Qc_scope.
Local Open Scope nat_scope.

(** * Definitions used to state the properties

    None of these is part of the program; they name what the theorems talk
    about. *)

(** ** Arrays as tables

    [tab1 n f] is the array [f 0, ..., f (n-1)] and [tab2 r c f] the array
    of shape [(r, c)] with entry [f i j] at [(i, j)]. *)
Definition tab1 {A} (n : nat) (f : nat → A) : list A := f <$> seq 0 n.
Definition tab2 {A} (r c : nat) (f : nat → nat → A) : list (list A) :=
  tab1 r (λ i, tab1 c (f i)).

Section StencilEntries.
Context (cfg : config).

(** Entry [(i, j)] of [avg(field, t)] and of [dirder(field, t)] in terms of the
    entries [f] of [field]. *)
Definition avg_at (f : nat → nat → Qc) (t : stencil_type) (i j : nat) : Qc :=
  match t with
  | C2UD | LR2N =>
    if decide (j = 0 ∨ j = nyc cfg)
    then ((f i 0%nat + f i (nyc cfg - 1)%nat) / 2)%Qc
    else ((f i j + f i (j - 1)%nat) / 2)%Qc
  | C2LR | UD2N =>
    if decide (i = 0 ∨ i = nxc cfg)
    then ((f 0%nat j + f (nxc cfg - 1)%nat j) / 2)%Qc
    else ((f i j + f (i - 1)%nat j) / 2)%Qc
  | N2LR | UD2C => ((f i (j + 1)%nat + f i j) / 2)%Qc
  | N2UD | LR2C => ((f (i + 1)%nat j + f i j) / 2)%Qc
  end.

Definition dirder_at (f : nat → nat → Qc) (t : stencil_type) (i j : nat) : Qc :=
  match t with
  | C2UD | LR2N =>
    if decide (j = 0 ∨ j = nyc cfg)
    then ((f i 0%nat - f i (nyc cfg - 1)%nat) / dy cfg)%Qc
    else ((f i j - f i (j - 1)%nat) / dy cfg)%Qc
  | C2LR | UD2N =>
    if decide (i = 0 ∨ i = nxc cfg)
    then ((f 0%nat j - f (nxc cfg - 1)%nat j) / dx cfg)%Qc
    else ((f i j - f (i - 1)%nat j) / dx cfg)%Qc
  | N2LR | UD2C => ((f i (j + 1)%nat - f i j) / dy cfg)%Qc
  | N2UD | LR2C => ((f (i + 1)%nat j - f i j) / dx cfg)%Qc
  end.

Definition rows (g : grid) : nat := (grid_shape cfg g).1.
Definition cols (g : grid) : nat := (grid_shape cfg g).2.

End StencilEntries.

(** ** Periodic edges of the stencil operators *)

Section Edges.
Context (cfg : config).

(** The stencil types whose destination grid has both domain edges on the
    axis along which the stencil works. *)
Definition wraps (t : stencil_type) : bool :=
  match t with
  | C2UD | C2LR | UD2N | LR2N => true
  | N2LR | N2UD | LR2C | UD2C => false
  end.

(** [true] when the stencil works along [y] (second subscript). *)
Definition along_y (t : stencil_type) : bool :=
  match t with
  | C2UD | LR2N | N2LR | UD2C => true
  | C2LR | UD2N | N2UD | LR2C => false
  end.

(** Number of points of an edge of the destination grid, and the values of an
    array [a] of the destination grid on the two opposite edges at position
    [k] along the edge. *)
Definition edge_len (t : stencil_type) : nat :=
  if along_y t then (grid_shape cfg (dst_grid t)).1
  else (grid_shape cfg (dst_grid t)).2.
Definition edge_lo (t : stencil_type) (a : arr2) (k : nat) : Qc :=
  if along_y t then at2 a k 0 else at2 a 0 k.
Definition edge_hi (t : stencil_type) (a : arr2) (k : nat) : Qc :=
  if along_y t then at2 a k (nyn cfg - 1) else at2 a (nxn cfg - 1) k.

(** The source values next to the two boundaries: first and last source entry
    along the axis. *)
Definition src_first (t : stencil_type) (field : arr2) (k : nat) : Qc :=
  if along_y t then at2 field k 0 else at2 field 0 k.
Definition src_last (t : stencil_type) (field : arr2) (k : nat) : Qc :=
  if along_y t then at2 field k (nyc cfg - 1) else at2 field (nxc cfg - 1) k.

(** Grid spacing along the axis of the stencil. *)
Definition spacing (t : stencil_type) : Qc :=
  if along_y t then dy cfg else dx cfg.

End Edges.

(** ** Flat-space finite differences

    Written from the specification, for comparison with [curl] and [div]: the
    two-point difference quotient of neighbouring source values, periodic in
    the direction of the difference.  Going from centres to faces (or from
    faces to nodes) the destination point [k] lies between the source points
    [k-1] and [k], taken modulo the number of cells; going from nodes to faces
    (or from faces to centres) it lies between [k] and [k+1]. *)
Section FlatSpace.
Context (cfg : config).

Definition ddx_wrap (f : arr2) (X : grid) : arr2 :=
  tab2 (grid_shape cfg X).1 (grid_shape cfg X).2 (λ i j,
    ((at2 f (i mod nxc cfg) j - at2 f ((i + nxc cfg - 1) mod nxc cfg) j) / dx cfg)%Qc).
Definition ddy_wrap (f : arr2) (X : grid) : arr2 :=
  tab2 (grid_shape cfg X).1 (grid_shape cfg X).2 (λ i j,
    ((at2 f i (j mod nyc cfg) - at2 f i ((j + nyc cfg - 1) mod nyc cfg)) / dy cfg)%Qc).
Definition ddx_cell (f : arr2) (X : grid) : arr2 :=
  tab2 (grid_shape cfg X).1 (grid_shape cfg X).2 (λ i j,
    ((at2 f (i + 1) j - at2 f i j) / dx cfg)%Qc).
Definition ddy_cell (f : arr2) (X : grid) : arr2 :=
  tab2 (grid_shape cfg X).1 (grid_shape cfg X).2 (λ i j,
    ((at2 f i (j + 1) - at2 f i j) / dy cfg)%Qc).

(** [curl_x = d(fieldz)/dy], [curl_y = - d(fieldz)/dx],
    [curl_z = d(fieldy)/dx - d(fieldx)/dy]; an [E] field on (LR, UD, C) has
    its curl on (UD, LR, N), a [B] field on (UD, LR, N) on (LR, UD, C). *)
Definition flat_curl (fieldx fieldy fieldz : arr2) (fieldtype : field_type)
  : arr2 * arr2 * arr2 :=
  match fieldtype with
  | E => (ddy_wrap fieldz UD,
          neg2 (ddx_wrap fieldz LR),
          sub2 (ddx_wrap fieldy N) (ddy_wrap fieldx N))
  | B => (ddy_cell fieldz LR,
          neg2 (ddx_cell fieldz UD),
          sub2 (ddx_cell fieldy C) (ddy_cell fieldx C))
  end.

(** [div = d(fieldx)/dx + d(fieldy)/dy], on C for an [E] field and on N for a
    [B] field. *)
Definition flat_div (fieldx fieldy : arr2) (fieldtype : field_type) : arr2 :=
  match fieldtype with
  | E => add2 (ddx_cell fieldx C) (ddy_cell fieldy C)
  | B => add2 (ddx_wrap fieldx N) (ddy_wrap fieldy N)
  end.

(** The grids on which the three components of a field of each type live. *)
Definition field_grids (fieldtype : field_type) : grid * grid * grid :=
  match fieldtype with
  | E => (LR, UD, C)
  | B => (UD, LR, N)
  end.

Definition field_on (fieldtype : field_type) (fieldx fieldy fieldz : arr2) : Prop :=
  on_grid cfg (field_grids fieldtype).1.1 fieldx
  ∧ on_grid cfg (field_grids fieldtype).1.2 fieldy
  ∧ on_grid cfg (field_grids fieldtype).2 fieldz.

End FlatSpace.

(** ** Particle stencils *)

(** The four subscript pairs of a stencil are subscripts of an array of shape
    [(r, c)]. *)
Definition stencil_within (r c : nat) (s : stencil) : Prop :=
  (0 ≤ i1 s < Z.of_nat r)%Z ∧ (0 ≤ i2 s < Z.of_nat r)%Z
  ∧ (0 ≤ j1 s < Z.of_nat c)%Z ∧ (0 ≤ j2 s < Z.of_nat c)%Z.

(** The particle domain [0, Lx) x [0, Ly). *)
Definition in_domain (cfg : config) (xk yk : Qc) : Prop :=
  (0 ≤ xk)%Qc ∧ (xk < Lx cfg)%Qc ∧ (0 ≤ yk)%Qc ∧ (yk < Ly cfg)%Qc.

(** The four interpolation weights of a stencil lie in [0, 1] and sum to 1. *)
Definition weights_ok (s : stencil) : Prop :=
  (0 ≤ wx1 s * wy1 s ≤ 1)%Qc ∧ (0 ≤ wx2 s * wy1 s ≤ 1)%Qc
  ∧ (0 ≤ wx1 s * wy2 s ≤ 1)%Qc ∧ (0 ≤ wx2 s * wy2 s ≤ 1)%Qc
  ∧ (wx1 s * wy1 s + wx2 s * wy1 s + wx1 s * wy2 s + wx2 s * wy2 s = 1)%Qc.

(** Position arrays of [npart] particles, all in the particle domain. *)
Definition particles_in_domain (cfg : config) (xk yk : vec) : Prop :=
  length xk = npart cfg ∧ length yk = npart cfg
  ∧ ∀ i xi yi, xk !! i = Some xi → yk !! i = Some yi → in_domain cfg xi yi.

(** The three current arrays have the shapes of the grids LR, UD and C. *)
Definition J_shapes (cfg : config) (J : arr2 * arr2 * arr2) : Prop :=
  on_grid cfg LR J.1.1 ∧ on_grid cfg UD J.1.2 ∧ on_grid cfg C J.2.

Local Close Scope Qc_scope.
Local Open Scope nat_scope.
Local Open Scope Qc_scope.

(** * Concrete inputs

    A 2 x 2 grid on [0,2) x [0,2) with [dt = 0.05] and one particle. *)
Definition cfg22 : config := Config 2 2 (Qc_of_Z 2) (Qc_of_Z 2) (decimal 1 20) 1.

Local Close Scope Qc_scope.
Local Open Scope nat_scope.

(** ** Further definitions used to state properties *)

(** The curl of a field of one type lives on the grids of the other type. *)
Definition dual_type (fieldtype : field_type) : field_type :=
  match fieldtype with
  | E => B
  | B => E
  end.

(** The grid of the divergence of a field: C for [E], N for [B]. *)
Definition div_grid (fieldtype : field_type) : grid :=
  match fieldtype with
  | E => C
  | B => N
  end.

(** ** Geometry of the curvilinear solver *)

(** Product of two 3x3 arrays, entry [(a, b)] (subscripts from 0). *)
Definition matmul3_at (m n : arr2) (a b : nat) : Qc :=
  (at2 m a 0 * at2 n 0 b + at2 m a 1 * at2 n 1 b + at2 m a 2 * at2 n 2 b)%Qc.

Section SingularPoints.
Context (cfg : config) (eps np_pi : Qc) (np_sin np_cos : Qc → Qc).

(** The determinant of the inverse Jacobian at point [(i, j)] of grid [X],
    whose physical coordinates are the globals [phys X]. *)
Definition inverse_jacobian_det (phys : grid → arr2 * arr2) (X : grid)
    (i j : nat) : Qc :=
  Staggered.np_linalg_det
    (Staggered.perturbed_inverse_jacobian_elements cfg eps np_pi np_sin np_cos
       (at2 (phys X).1 i j) (at2 (phys X).2 i j)).

(** The inverse Jacobian is singular at some point of one of the four grids. *)
Definition singular_somewhere (phys : grid → arr2 * arr2) : Prop :=
  ∃ X i j, i < rows cfg X ∧ j < cols cfg X
           ∧ inverse_jacobian_det phys X i j = 0%Qc.

End SingularPoints.

(** The metric stored at point [(i, j)] of grid [X], as a 3x3 array. *)
Definition metric_at (geo : Staggered.geometry) (X : grid) (i j : nat) : arr2 :=
  tab2 3 3 (λ a b, at2 (Staggered.g_ geo (a + 1) (b + 1) X) i j).

(** The geometry that stores the same values [p] at every point. *)
Definition uniform_geometry (cfg : config) (p : Staggered.point_geometry)
  : Staggered.geometry :=
  λ X, match X with
       | LR => replicate (nxn cfg) (replicate (nyc cfg) p)
       | UD => replicate (nxc cfg) (replicate (nyn cfg) p)
       | C => replicate (nxc cfg) (replicate (nyc cfg) p)
       | N => replicate (nxn cfg) (replicate (nyn cfg) p)
       end.

(** Stand-ins for [np.pi], [np.sin] and [np.cos] in examples; the theorems
    hold for any functions. *)
Definition pi_example : Qc := Qc_of_Z 3.
Definition sin_example (t : Qc) : Qc := (-1)%Qc.
Definition cos_example (t : Qc) : Qc := 1%Qc.

(** What [define_geometry] stores at every point with [eps = 2] on the grid
    of [cfg22] and the stand-ins above: the inverse Jacobian
    [[-5, -6, 0], [-6, -5, 0], [0, 0, 1]] of determinant -11. *)
Definition point_example : Staggered.point_geometry :=
  default (Staggered.PointGeometry Staggered.identity3 Staggered.identity3 1 1
             Staggered.identity3)
    (Staggered.define_geometry_point cfg22 (Qc_of_Z 2) pi_example sin_example
       cos_example 0%Qc 0%Qc).

(** ** Well-formed inputs of the flat-grid solver *)

(** The arrays of a metric with the grid each of them lives on: the Jacobian
    determinants on their own grids, and each metric coefficient on the grid
    of the field component it multiplies in [curl]. *)
Definition metric_arrays (m : metric) : list (grid * arr2) :=
  [(UD, J_UD m); (LR, J_LR m); (C, J_c m); (N, J_n m);
   (LR, g11e m); (UD, g12e m); (C, g13e m);
   (LR, g21e m); (UD, g22e m); (C, g23e m);
   (LR, g31e m); (UD, g32e m); (C, g33e m);
   (UD, g11b m); (LR, g12b m); (N, g13b m);
   (UD, g21b m); (LR, g22b m); (N, g23b m);
   (UD, g31b m); (LR, g32b m); (N, g33b m)].

Definition metric_ok (cfg : config) (m : metric) : Prop :=
  Forall (λ p, on_grid cfg p.1 p.2) (metric_arrays m).

(** The fields have the shapes of their grids and every particle array has
    [npart] entries. *)
Definition state_ok (cfg : config) (st : state) : Prop :=
  field_on cfg E (Ex st) (Ey st) (Ez st)
  ∧ field_on cfg B (Bx st) (By st) (Bz st)
  ∧ Forall (λ a : vec, length a = npart cfg)
      [x st; y st; u st; v st; w st; q st; QM st].

(** A state on the grid of [cfg22]: a uniform magnetic field along z and one
    particle at (1.5, 0.25) moving along x. *)
Definition st22 : state := {|
  Ex := zeros2 3 2; Ey := zeros2 2 3; Ez := zeros2 2 2;
  Bx := zeros2 2 3; By := zeros2 3 2; Bz := ones2 3 3;
  x := [decimal 3 2]; y := [decimal 1 4];
  u := [1%Qc]; v := [0%Qc]; w := [0%Qc];
  q := [1%Qc]; QM := [(-1)%Qc]
|}.

(** ** Well-formed inputs of the curvilinear solver *)

(** Every table of the geometry has the shape of its grid. *)
Definition geometry_ok (cfg : config) (geo : Staggered.geometry) : Prop :=
  ∀ X, length (geo X) = rows cfg X
       ∧ Forall (λ row, length row = cols cfg X) (geo X).

(** The fields have the shapes of their grids, every particle array has
    [npart] entries and every particle lies in [0, Lx) x [0, Ly). *)
Definition staggered_state_ok (cfg : config) (st : Staggered.state) : Prop :=
  field_on cfg E (Staggered.E1 st) (Staggered.E2 st) (Staggered.E3 st)
  ∧ field_on cfg B (Staggered.B1 st) (Staggered.B2 st) (Staggered.B3 st)
  ∧ Forall (λ a : vec, length a = npart cfg)
      [Staggered.x st; Staggered.y st; Staggered.u st; Staggered.v st;
       Staggered.w st; Staggered.q st; Staggered.QM st]
  ∧ particles_in_domain cfg (Staggered.x st) (Staggered.y st).

(** The example state [st22] as a state of the curvilinear solver. *)
Definition staggered_st22 : Staggered.state := {|
  Staggered.E1 := zeros2 3 2; Staggered.E2 := zeros2 2 3;
  Staggered.E3 := zeros2 2 2;
  Staggered.B1 := zeros2 2 3; Staggered.B2 := zeros2 3 2;
  Staggered.B3 := ones2 3 3;
  Staggered.x := [decimal 3 2]; Staggered.y := [decimal 1 4];
  Staggered.u := [1%Qc]; Staggered.v := [0%Qc]; Staggered.w := [0%Qc];
  Staggered.q := [1%Qc]; Staggered.QM := [(-1)%Qc]
|}.

Local Close Scope Qc_scope.
Local Open Scope nat_scope.

(** The stored Jacobian determinant [J_X] is not 0 at any point of any grid. *)
Definition jacobian_nonzero (cfg : config) (geo : Staggered.geometry) : Prop :=
  ∀ X i j, i < rows cfg X → j < cols cfg X →
           at2 (Staggered.Jdet_ geo X) i j ≠ 0%Qc.

(** ** Deposited current *)

(** The entries of an array at the [nxc * nyc] distinct points of its grid:
    without the last row of an array on LR or N and without the last column
    of an array on UD or N, which hold the periodic images of the first. *)
Definition interior (cfg : config) (a : arr2) : arr2 :=
  take (nyc cfg) <$> take (nxc cfg) a.

(** Total of [q * vel] over the particles, per cell area. *)
Definition total_current (cfg : config) (qk vel : vec) : Qc :=
  vsum ((λ i, (nth0 qk i * nth0 vel i / dx cfg / dy cfg)%Qc)
          <$> seq 0 (npart cfg)).

(** The state of the deposit loop of [particle_to_grid_J]: the three arrays
    have the shapes of their grids and the totals over their distinct points
    are [tx], [ty] and [tz]. *)
Definition deposit_state (cfg : config) (tx ty tz : Qc)
    (J : arr2 * arr2 * arr2) : Prop :=
  J_shapes cfg J
  ∧ sum2 (interior cfg J.1.1) = tx
  ∧ sum2 (interior cfg J.1.2) = ty
  ∧ sum2 (interior cfg J.2) = tz.

Local Close Scope Qc_scope.
Local Open Scope nat_scope.

(** * [avgC2N]

    The two solvers carry the same function [avgC2N], which neither calls.
    It is written for node arrays of shape [(nx, ny)] around [(nx-1, ny-1)]
    cells; for [nx, ny >= 2] none of its slice bounds is negative. *)

(** [a[i, j] = v] *)
Definition set_at2 (i j : nat) (v : Qc) (a : arr2) : arr2 :=
  <[i := <[j := v]> (row_of a i)]> a.

(** [avgC2N(fieldC)] *)
Definition avgC2N (cfg : config) (fieldC : arr2) : arr2 :=
  let nx := nx cfg in
  let ny := ny cfg in
  let fieldN := zeros2 nx ny in
  let fieldN := set_slice2 1 (nx-1) 1 (ny-1)
    (divs2 (add2 (add2 (add2 (slice2 0 (nx-2) 0 (ny-2) fieldC)
                             (slice2 1 (nx-1) 0 (ny-2) fieldC))
                       (slice2 0 (nx-2) 1 (ny-1) fieldC))
                 (slice2 1 (nx-1) 1 (ny-1) fieldC)) (Qc_of_Z 4))
    fieldN in
  let fieldN := set_row2 0 1 (ny-1)
    (vdivs (vadd (vadd (vadd (row2 0 0 (ny-2) fieldC) (row2 0 1 (ny-1) fieldC))
                       (row2 (nx-2) 0 (ny-2) fieldC))
                 (row2 (nx-2) 1 (ny-1) fieldC)) (Qc_of_Z 4))
    fieldN in
  let fieldN := set_row2 (nx-1) 1 (ny-1) (row2 0 1 (ny-1) fieldN) fieldN in
  let fieldN := set_col2 1 (nx-1) 0
    (vdivs (vadd (vadd (vadd (col2 0 (nx-2) 0 fieldC) (col2 1 (nx-1) 0 fieldC))
                       (col2 0 (nx-2) (ny-2) fieldC))
                 (col2 1 (nx-1) (ny-2) fieldC)) (Qc_of_Z 4))
    fieldN in
  let fieldN := set_col2 1 (nx-1) (ny-1) (col2 1 (nx-1) 0 fieldN) fieldN in
  let fieldN := set_at2 0 0
    ((at2 fieldC 0 0 + at2 fieldC 0 (ny-2) + at2 fieldC (nx-2) 0
      + at2 fieldC (nx-2) (ny-2)) / Qc_of_Z 4)%Qc
    fieldN in
  let fieldN := set_at2 0 (ny-1) (at2 fieldN 0 0) fieldN in
  let fieldN := set_at2 (nx-1) 0 (at2 fieldN 0 0) fieldN in
  let fieldN := set_at2 (nx-1) (ny-1) (at2 fieldN 0 0) fieldN in
  fieldN.

(** The two cells next to node [i] along an axis of [n] cells, periodically:
    [i-1] and [i], where the nodes 0 and [n] both lie between the cells [n-1]
    and 0. *)
Definition cell_before (n i : nat) : nat :=
  if decide (i = 0 ∨ i = n) then n - 1 else i - 1.
Definition cell_after (n i : nat) : nat :=
  if decide (i = 0 ∨ i = n) then 0 else i.

Local Close Scope Qc_scope.
Local Open Scope nat_scope.

(** The subscripts of a stencil are not negative, so none of them is read
    from the end of its axis. *)
Definition stencil_nonneg (s : stencil) : Prop :=
  (0 ≤ i1 s)%Z ∧ (0 ≤ i2 s)%Z ∧ (0 ≤ j1 s)%Z ∧ (0 ≤ j2 s)%Z.

(** ** Further inputs for examples *)

(** Stand-ins for [np.sin] and [np.cos] with rational values on the unit
    circle: [sin_circle 0 = 0], [cos_circle 0 = 1], both lie in [-1, 1] and
    the squares sum to 1. *)
Definition sin_circle (t : Qc) : Qc := (2 * t / (1 + t * t))%Qc.
Definition cos_circle (t : Qc) : Qc := ((1 - t * t) / (1 + t * t))%Qc.

(** Physical coordinates for the grid of [cfg22]: point [(i, j)] of every
    grid lies at [(i, j)]. *)
Definition phys_example : grid → arr2 * arr2 :=
  λ _, (tab2 3 3 (λ i _, Qc_of_nat i), tab2 3 3 (λ _ j, Qc_of_nat j)).

(** The grid of [cfg22] with two particles. *)
Definition cfg22_pair : config :=
  Config 2 2 (Qc_of_Z 2) (Qc_of_Z 2) (decimal 1 20) 2.

(** The shapes of a state of the curvilinear solver: the fields have the
    shapes of their grids and every particle array has [npart] entries. *)
Definition staggered_state_shapes (cfg : config) (st : Staggered.state) : Prop :=
  field_on cfg E (Staggered.E1 st) (Staggered.E2 st) (Staggered.E3 st)
  ∧ field_on cfg B (Staggered.B1 st) (Staggered.B2 st) (Staggered.B3 st)
  ∧ Forall (λ a : vec, length a = npart cfg)
      [Staggered.x st; Staggered.y st; Staggered.u st; Staggered.v st;
       Staggered.w st; Staggered.q st; Staggered.QM st].

Local Close Scope Qc_scope.
Local Open Scope nat_scope.

(** * Arrays as tables: every array operation maps tables to tables *)

Section Tab1.
Context {A : Type}.
Implicit Types (f g : nat → A) (l : list A).

Lemma length_tab1 n f : length (tab1 n f) = n.
Proof. unfold tab1. by rewrite length_fmap, length_seq. Qed.

Lemma lookup_tab1 n f i : i < n → tab1 n f !! i = Some (f i).
Proof. intros. unfold tab1. rewrite list_lookup_fmap, lookup_seq_lt by done. done. Qed.

Lemma lookup_tab1_ge n f i : n ≤ i → tab1 n f !! i = None.
Proof. intros. apply lookup_ge_None. by rewrite length_tab1. Qed.

Lemma tab1_ext n f g : (∀ i, i < n → f i = g i) → tab1 n f = tab1 n g.
Proof.
  intros H. apply list_eq. intros i. destruct (decide (i < n)).
  - rewrite !lookup_tab1 by done. f_equal. auto.
  - rewrite !lookup_tab1_ge by lia. done.
Qed.

Lemma tab1_eq n m f g : n = m → (∀ i, i < n → f i = g i) → tab1 n f = tab1 m g.
Proof. intros <-. apply tab1_ext. Qed.

Lemma list_as_tab1 (d : A) l : l = tab1 (length l) (λ i, default d (l !! i)).
Proof.
  apply list_eq. intros i. destruct (decide (i < length l)) as [Hi|Hi].
  - rewrite lookup_tab1 by done. destruct (lookup_lt_is_Some_2 l i Hi) as [a ->]. done.
  - rewrite lookup_tab1_ge by lia. apply lookup_ge_None. lia.
Qed.

Lemma replicate_tab1 n (a : A) : replicate n a = tab1 n (λ _, a).
Proof.
  apply list_eq. intros i. destruct (decide (i < n)).
  - rewrite lookup_tab1 by done. by apply lookup_replicate_2.
  - rewrite lookup_tab1_ge by lia. apply lookup_ge_None. rewrite length_replicate. lia.
Qed.

Lemma take_tab1 k n f : k ≤ n → take k (tab1 n f) = tab1 k f.
Proof.
  intros. apply list_eq. intros i. destruct (decide (i < k)).
  - rewrite lookup_take_lt, !lookup_tab1 by lia. done.
  - rewrite lookup_take_ge, lookup_tab1_ge by lia. done.
Qed.

Lemma drop_tab1 k n f : drop k (tab1 n f) = tab1 (n - k) (λ i, f (k + i)).
Proof.
  apply list_eq. intros i. rewrite lookup_drop. destruct (decide (i < n - k)).
  - rewrite !lookup_tab1 by lia. done.
  - rewrite !lookup_tab1_ge by lia. done.
Qed.

Lemma slice_tab1 lo hi n f :
  hi ≤ n → slice lo hi (tab1 n f) = tab1 (hi - lo) (λ i, f (lo + i)).
Proof. intros. unfold slice. rewrite drop_tab1, take_tab1 by lia. done. Qed.

Lemma app_tab1 n m f g :
  tab1 n f ++ tab1 m g = tab1 (n + m) (λ i, if decide (i < n) then f i else g (i - n)).
Proof.
  apply list_eq. intros i. destruct (decide (i < n)).
  - rewrite lookup_app_l by (rewrite length_tab1; lia).
    rewrite !lookup_tab1 by lia. by rewrite decide_True.
  - rewrite lookup_app_r by (rewrite length_tab1; lia). rewrite length_tab1.
    destruct (decide (i < n + m)).
    + rewrite !lookup_tab1 by lia. by rewrite decide_False.
    + rewrite !lookup_tab1_ge by lia. done.
Qed.

Lemma set_slice_tab1 lo hi k n g f :
  k = hi - lo → lo ≤ hi → hi ≤ n →
  set_slice lo hi (tab1 k g) (tab1 n f)
  = tab1 n (λ i, if decide (lo ≤ i < hi) then g (i - lo) else f i).
Proof.
  intros -> ??. unfold set_slice.
  rewrite take_tab1, drop_tab1, !app_tab1 by lia.
  apply tab1_eq; [lia|]. intros i Hi.
  repeat case_decide; try lia; f_equal; lia.
Qed.

Lemma insert_tab1 n f i a :
  <[i := a]> (tab1 n f) = tab1 n (λ k, if decide (k = i) then a else f k).
Proof.
  apply list_eq. intros k. destruct (decide (k < n)).
  - rewrite lookup_tab1 by done. case_decide as Hk.
    + subst. rewrite list_lookup_insert_eq; [done|]. by rewrite length_tab1.
    + rewrite list_lookup_insert_ne by done. by rewrite lookup_tab1.
  - rewrite lookup_tab1_ge by lia. apply lookup_ge_None.
    rewrite length_insert, length_tab1. lia.
Qed.

End Tab1.

Lemma fmap_tab1 {A B} (h : A → B) n (f : nat → A) :
  h <$> tab1 n f = tab1 n (λ i, h (f i)).
Proof. unfold tab1. by rewrite <- list_fmap_compose. Qed.

Lemma zip_with_tab1 {A B C} (op : A → B → C) n m (f : nat → A) (g : nat → B) :
  n = m → zip_with op (tab1 n f) (tab1 m g) = tab1 n (λ i, op (f i) (g i)).
Proof.
  intros <-. apply list_eq. intros i. rewrite lookup_zip_with.
  destruct (decide (i < n)).
  - rewrite !lookup_tab1 by done. done.
  - rewrite !lookup_tab1_ge by lia. done.
Qed.

Lemma nth0_tab1 n (f : nat → Qc) i : i < n → nth0 (tab1 n f) i = f i.
Proof. intros. unfold nth0. by rewrite lookup_tab1. Qed.

Lemma vec_as_tab1 (l : vec) : l = tab1 (length l) (nth0 l).
Proof. apply (list_as_tab1 0%Qc). Qed.

(** ** Two-dimensional tables *)

Lemma shape2_tab2 r c (f : nat → nat → Qc) : shape2 r c (tab2 r c f).
Proof.
  split; [apply length_tab1|]. apply Forall_lookup. intros i row Hrow.
  apply lookup_lt_Some in Hrow as Hi. unfold tab2 in Hi, Hrow.
  rewrite length_tab1 in Hi. rewrite lookup_tab1 in Hrow by done.
  injection Hrow as <-. apply length_tab1.
Qed.

Lemma row_of_tab2 r c (f : nat → nat → Qc) i :
  i < r → row_of (tab2 r c f) i = tab1 c (f i).
Proof. intros. unfold row_of, tab2. by rewrite lookup_tab1. Qed.

Lemma at2_tab2 r c (f : nat → nat → Qc) i j :
  i < r → j < c → at2 (tab2 r c f) i j = f i j.
Proof. intros. unfold at2. rewrite row_of_tab2, nth0_tab1 by done. done. Qed.

Lemma tab2_ext {A} r c (f g : nat → nat → A) :
  (∀ i j, i < r → j < c → f i j = g i j) → tab2 r c f = tab2 r c g.
Proof. intros H. apply tab1_ext. intros i Hi. apply tab1_ext. auto. Qed.

Lemma tab2_eq {A} r c r' c' (f g : nat → nat → A) :
  r = r' → c = c' → (∀ i j, i < r → j < c → f i j = g i j) →
  tab2 r c f = tab2 r' c' g.
Proof. intros <- <-. apply tab2_ext. Qed.

Lemma arr2_as_tab2 r c (a : arr2) : shape2 r c a → a = tab2 r c (at2 a).
Proof.
  intros [Hr Hc]. subst r. unfold tab2.
  rewrite (list_as_tab1 [] a) at 1. apply tab1_ext. intros i Hi.
  destruct (lookup_lt_is_Some_2 a i Hi) as [row Hrow].
  unfold at2, row_of. rewrite Hrow. simpl.
  rewrite <- (Forall_lookup_1 _ _ _ _ Hc Hrow). apply vec_as_tab1.
Qed.

Lemma arr2_ext r c (a b : arr2) :
  shape2 r c a → shape2 r c b →
  (∀ i j, i < r → j < c → at2 a i j = at2 b i j) → a = b.
Proof.
  intros Ha Hb H. rewrite (arr2_as_tab2 r c a), (arr2_as_tab2 r c b) by done.
  by apply tab2_ext.
Qed.

Lemma zeros2_tab2 r c : zeros2 r c = tab2 r c (λ _ _, 0%Qc).
Proof. unfold zeros2, zeros, tab2. by rewrite !replicate_tab1. Qed.

Lemma ones2_tab2 r c : ones2 r c = tab2 r c (λ _ _, 1%Qc).
Proof. unfold ones2, ones, tab2. by rewrite !replicate_tab1. Qed.

Lemma zip2_tab2 (op : Qc → Qc → Qc) r c r' c' f g :
  r = r' → c = c' →
  zip_with (zip_with op) (tab2 r c f) (tab2 r' c' g)
  = tab2 r c (λ i j, op (f i j) (g i j)).
Proof.
  intros <- <-. unfold tab2. rewrite zip_with_tab1 by done.
  apply tab1_ext. intros i _. by rewrite zip_with_tab1.
Qed.

Lemma add2_tab2 r c r' c' f g : r = r' → c = c' →
  add2 (tab2 r c f) (tab2 r' c' g) = tab2 r c (λ i j, (f i j + g i j)%Qc).
Proof. apply zip2_tab2. Qed.
Lemma sub2_tab2 r c r' c' f g : r = r' → c = c' →
  sub2 (tab2 r c f) (tab2 r' c' g) = tab2 r c (λ i j, (f i j - g i j)%Qc).
Proof. apply zip2_tab2. Qed.
Lemma mul2_tab2 r c r' c' f g : r = r' → c = c' →
  mul2 (tab2 r c f) (tab2 r' c' g) = tab2 r c (λ i j, (f i j * g i j)%Qc).
Proof. apply zip2_tab2. Qed.
Lemma div2_tab2 r c r' c' f g : r = r' → c = c' →
  div2 (tab2 r c f) (tab2 r' c' g) = tab2 r c (λ i j, (f i j / g i j)%Qc).
Proof. apply zip2_tab2. Qed.

Lemma map2_tab2 (h : Qc → Qc) r c f :
  (fmap (M := list) h) <$> tab2 r c f = tab2 r c (λ i j, h (f i j)).
Proof.
  unfold tab2. rewrite fmap_tab1. apply tab1_ext. intros i _. by rewrite fmap_tab1.
Qed.

Lemma neg2_tab2 r c f : neg2 (tab2 r c f) = tab2 r c (λ i j, (- f i j)%Qc).
Proof. apply map2_tab2. Qed.
Lemma scale2_tab2 k r c f : scale2 k (tab2 r c f) = tab2 r c (λ i j, (k * f i j)%Qc).
Proof. apply (map2_tab2 (Qcmult k)). Qed.
Lemma divs2_tab2 k r c f : divs2 (tab2 r c f) k = tab2 r c (λ i j, (f i j / k)%Qc).
Proof. apply (map2_tab2 (λ x, (x / k)%Qc)). Qed.

Lemma slice2_tab2 r c (f : nat → nat → Qc) r0 r1 c0 c1 :
  r1 ≤ r → c1 ≤ c →
  slice2 r0 r1 c0 c1 (tab2 r c f)
  = tab2 (r1 - r0) (c1 - c0) (λ i j, f (r0 + i) (c0 + j)).
Proof.
  intros. unfold slice2, tab2. rewrite slice_tab1, fmap_tab1 by done.
  apply tab1_ext. intros i _. by rewrite slice_tab1.
Qed.

Lemma col2_tab2 r c (f : nat → nat → Qc) r0 r1 cc :
  r1 ≤ r → cc < c →
  col2 r0 r1 cc (tab2 r c f) = tab1 (r1 - r0) (λ i, f (r0 + i) cc).
Proof.
  intros. unfold col2, tab2. rewrite slice_tab1, fmap_tab1 by done.
  apply tab1_ext. intros i _. by rewrite nth0_tab1.
Qed.

Lemma row2_tab2 r c (f : nat → nat → Qc) rr c0 c1 :
  rr < r → c1 ≤ c →
  row2 rr c0 c1 (tab2 r c f) = tab1 (c1 - c0) (λ j, f rr (c0 + j)).
Proof. intros. unfold row2. rewrite row_of_tab2, slice_tab1 by done. done. Qed.

Lemma set_slice2_tab2 r c (f : nat → nat → Qc) r0 r1 c0 c1 rr cc g :
  rr = r1 - r0 → cc = c1 - c0 → r0 ≤ r1 → r1 ≤ r → c0 ≤ c1 → c1 ≤ c →
  set_slice2 r0 r1 c0 c1 (tab2 rr cc g) (tab2 r c f)
  = tab2 r c (λ i j, if decide (r0 ≤ i < r1 ∧ c0 ≤ j < c1)
                     then g (i - r0) (j - c0) else f i j).
Proof.
  intros -> -> ????. unfold set_slice2, tab2.
  rewrite slice_tab1, zip_with_tab1, set_slice_tab1 by lia.
  apply tab1_ext. intros i Hi. case_decide as Hr.
  - rewrite set_slice_tab1 by lia. apply tab1_ext. intros j Hj.
    repeat case_decide; try lia; f_equal; lia.
  - apply tab1_ext. intros j Hj. rewrite decide_False by lia. done.
Qed.

Lemma set_col2_tab2 r c (f : nat → nat → Qc) r0 r1 cc rr g :
  rr = r1 - r0 → r0 ≤ r1 → r1 ≤ r →
  set_col2 r0 r1 cc (tab1 rr g) (tab2 r c f)
  = tab2 r c (λ i j, if decide (r0 ≤ i < r1 ∧ j = cc) then g (i - r0) else f i j).
Proof.
  intros -> ??. unfold set_col2, tab2.
  rewrite slice_tab1, zip_with_tab1, set_slice_tab1 by lia.
  apply tab1_ext. intros i Hi. case_decide as Hr.
  - rewrite insert_tab1. apply tab1_ext. intros j Hj.
    repeat case_decide; try lia; f_equal; lia.
  - apply tab1_ext. intros j Hj. rewrite decide_False by lia. done.
Qed.

Lemma set_row2_tab2 r c (f : nat → nat → Qc) rr c0 c1 cc g :
  cc = c1 - c0 → rr < r → c0 ≤ c1 → c1 ≤ c →
  set_row2 rr c0 c1 (tab1 cc g) (tab2 r c f)
  = tab2 r c (λ i j, if decide (i = rr ∧ c0 ≤ j < c1) then g (j - c0) else f i j).
Proof.
  intros -> ???. unfold set_row2. rewrite row_of_tab2 by done.
  unfold tab2. rewrite insert_tab1. apply tab1_ext. intros i Hi. case_decide as Hr.
  - subst. rewrite set_slice_tab1 by lia. apply tab1_ext. intros j Hj.
    repeat case_decide; try lia; f_equal; lia.
  - apply tab1_ext. intros j Hj. rewrite decide_False by lia. done.
Qed.

Lemma vzip_tab1 (op : Qc → Qc → Qc) n m f g :
  n = m → zip_with op (tab1 n f) (tab1 m g) = tab1 n (λ i, op (f i) (g i)).
Proof. apply zip_with_tab1. Qed.

Local Close Scope Qc_scope.
Local Open Scope nat_scope.

Section StencilTables.
Context (cfg : config).

Ltac tabulate :=
  cbv zeta; rewrite ?zeros2_tab2;
  repeat first
    [ rewrite slice2_tab2 by lia
    | rewrite col2_tab2 by lia
    | rewrite row2_tab2 by lia
    | rewrite add2_tab2 by lia
    | rewrite sub2_tab2 by lia
    | rewrite divs2_tab2
    | rewrite zip_with_tab1 by lia
    | rewrite fmap_tab1
    | rewrite set_slice2_tab2 by lia
    | rewrite set_col2_tab2 by lia
    | rewrite set_row2_tab2 by lia ].

Lemma avg_tab2 (f : nat → nat → Qc) t :
  1 ≤ nxc cfg → 1 ≤ nyc cfg →
  avg cfg (tab2 (rows cfg (src_grid t)) (cols cfg (src_grid t)) f) t
  = tab2 (rows cfg (dst_grid t)) (cols cfg (dst_grid t)) (avg_at cfg f t).
Proof.
  intros Hx Hy. unfold rows, cols.
  destruct t; simpl; unfold avg, vdivs, vadd, avg_at, nxn, nyn in *; tabulate.
  all: apply tab2_eq; [lia | lia |]; intros i j Hi Hj.
  all: repeat case_decide; try lia.
  all: repeat (f_equal; try lia).
Qed.

Lemma dirder_tab2 (f : nat → nat → Qc) t :
  1 ≤ nxc cfg → 1 ≤ nyc cfg →
  dirder cfg (tab2 (rows cfg (src_grid t)) (cols cfg (src_grid t)) f) t
  = tab2 (rows cfg (dst_grid t)) (cols cfg (dst_grid t)) (dirder_at cfg f t).
Proof.
  intros Hx Hy. unfold rows, cols.
  destruct t; simpl; unfold dirder, vdivs, vsub, dirder_at, nxn, nyn in *; tabulate.
  all: apply tab2_eq; [lia | lia |]; intros i j Hi Hj.
  all: repeat case_decide; try lia.
  all: repeat (f_equal; try lia).
Qed.

Lemma on_grid_tab2 g (a : arr2) :
  on_grid cfg g a → a = tab2 (rows cfg g) (cols cfg g) (at2 a).
Proof. apply arr2_as_tab2. Qed.

Lemma avg_on_grid field t :
  1 ≤ nxc cfg → 1 ≤ nyc cfg → on_grid cfg (src_grid t) field →
  avg cfg field t = tab2 (rows cfg (dst_grid t)) (cols cfg (dst_grid t)) (avg_at cfg (at2 field) t).
Proof. intros ?? H. rewrite (on_grid_tab2 _ _ H) at 1. by apply avg_tab2. Qed.

Lemma dirder_on_grid field t :
  1 ≤ nxc cfg → 1 ≤ nyc cfg → on_grid cfg (src_grid t) field →
  dirder cfg field t
  = tab2 (rows cfg (dst_grid t)) (cols cfg (dst_grid t)) (dirder_at cfg (at2 field) t).
Proof. intros ?? H. rewrite (on_grid_tab2 _ _ H) at 1. by apply dirder_tab2. Qed.

Lemma avg_shape field t :
  1 ≤ nxc cfg → 1 ≤ nyc cfg → on_grid cfg (src_grid t) field →
  on_grid cfg (dst_grid t) (avg cfg field t).
Proof. intros. rewrite avg_on_grid by done. apply shape2_tab2. Qed.

Lemma dirder_shape field t :
  1 ≤ nxc cfg → 1 ≤ nyc cfg → on_grid cfg (src_grid t) field →
  on_grid cfg (dst_grid t) (dirder cfg field t).
Proof. intros. rewrite dirder_on_grid by done. apply shape2_tab2. Qed.

Lemma at2_avg field t i j :
  1 ≤ nxc cfg → 1 ≤ nyc cfg → on_grid cfg (src_grid t) field →
  i < rows cfg (dst_grid t) → j < cols cfg (dst_grid t) →
  at2 (avg cfg field t) i j = avg_at cfg (at2 field) t i j.
Proof. intros. rewrite avg_on_grid, at2_tab2 by done. done. Qed.

Lemma at2_dirder field t i j :
  1 ≤ nxc cfg → 1 ≤ nyc cfg → on_grid cfg (src_grid t) field →
  i < rows cfg (dst_grid t) → j < cols cfg (dst_grid t) →
  at2 (dirder cfg field t) i j = dirder_at cfg (at2 field) t i j.
Proof. intros. rewrite dirder_on_grid, at2_tab2 by done. done. Qed.

End StencilTables.

Local Close Scope Qc_scope.
Local Open Scope nat_scope.

(** * Shapes and algebra of whole arrays *)

Lemma shape2_zeros2 r c : shape2 r c (zeros2 r c).
Proof. rewrite zeros2_tab2. apply shape2_tab2. Qed.
Lemma shape2_ones2 r c : shape2 r c (ones2 r c).
Proof. rewrite ones2_tab2. apply shape2_tab2. Qed.

Lemma shape2_zip (op : Qc → Qc → Qc) r c a b :
  shape2 r c a → shape2 r c b → shape2 r c (zip_with (zip_with op) a b).
Proof.
  intros Ha Hb. rewrite (arr2_as_tab2 r c a), (arr2_as_tab2 r c b) by done.
  rewrite zip2_tab2 by done. apply shape2_tab2.
Qed.

Lemma shape2_add2 r c a b : shape2 r c a → shape2 r c b → shape2 r c (add2 a b).
Proof. apply shape2_zip. Qed.
Lemma shape2_sub2 r c a b : shape2 r c a → shape2 r c b → shape2 r c (sub2 a b).
Proof. apply shape2_zip. Qed.
Lemma shape2_mul2 r c a b : shape2 r c a → shape2 r c b → shape2 r c (mul2 a b).
Proof. apply shape2_zip. Qed.
Lemma shape2_div2 r c a b : shape2 r c a → shape2 r c b → shape2 r c (div2 a b).
Proof. apply shape2_zip. Qed.

Lemma shape2_map (h : Qc → Qc) r c a :
  shape2 r c a → shape2 r c (fmap (M := list) h <$> a).
Proof.
  intros Ha. rewrite (arr2_as_tab2 r c a) by done. rewrite map2_tab2.
  apply shape2_tab2.
Qed.
Lemma shape2_neg2 r c a : shape2 r c a → shape2 r c (neg2 a).
Proof. apply shape2_map. Qed.
Lemma shape2_scale2 k r c a : shape2 r c a → shape2 r c (scale2 k a).
Proof. apply (shape2_map (Qcmult k)). Qed.
Lemma shape2_divs2 k r c a : shape2 r c a → shape2 r c (divs2 a k).
Proof. apply (shape2_map (λ x, (x / k)%Qc)). Qed.

Lemma at2_zip (op : Qc → Qc → Qc) r c a b i j :
  shape2 r c a → shape2 r c b → i < r → j < c →
  at2 (zip_with (zip_with op) a b) i j = op (at2 a i j) (at2 b i j).
Proof.
  intros Ha Hb ??. rewrite (arr2_as_tab2 r c a) at 1 by done.
  rewrite (arr2_as_tab2 r c b) at 1 by done.
  rewrite zip2_tab2, at2_tab2 by done. done.
Qed.

Lemma at2_map (h : Qc → Qc) r c a i j :
  shape2 r c a → i < r → j < c →
  at2 (fmap (M := list) h <$> a) i j = h (at2 a i j).
Proof.
  intros Ha ??. rewrite (arr2_as_tab2 r c a) at 1 by done.
  rewrite map2_tab2, at2_tab2 by done. done.
Qed.

Lemma at2_add2 r c a b i j : shape2 r c a → shape2 r c b → i < r → j < c →
  at2 (add2 a b) i j = (at2 a i j + at2 b i j)%Qc.
Proof. apply at2_zip. Qed.
Lemma at2_sub2 r c a b i j : shape2 r c a → shape2 r c b → i < r → j < c →
  at2 (sub2 a b) i j = (at2 a i j - at2 b i j)%Qc.
Proof. apply at2_zip. Qed.
Lemma at2_scale2 k r c a i j : shape2 r c a → i < r → j < c →
  at2 (scale2 k a) i j = (k * at2 a i j)%Qc.
Proof. apply (at2_map (Qcmult k)). Qed.

Lemma zip2_pointwise (op : Qc → Qc → Qc) r c a b d :
  shape2 r c a → shape2 r c b → shape2 r c d →
  (∀ i j, i < r → j < c → op (at2 a i j) (at2 b i j) = at2 d i j) →
  zip_with (zip_with op) a b = d.
Proof.
  intros Ha Hb Hd H. apply (arr2_ext r c); [by apply shape2_zip | done |].
  intros i j ??. rewrite (at2_zip op r c) by done. auto.
Qed.

Lemma at2_zeros2 r c i j : i < r → j < c → at2 (zeros2 r c) i j = 0%Qc.
Proof. intros. rewrite zeros2_tab2, at2_tab2 by done. done. Qed.

Lemma at2_ones2 r c i j : i < r → j < c → at2 (ones2 r c) i j = 1%Qc.
Proof. intros. rewrite ones2_tab2, at2_tab2 by done. done. Qed.

Lemma mul2_zeros2_l r c a : shape2 r c a → mul2 (zeros2 r c) a = zeros2 r c.
Proof.
  intros. apply (zip2_pointwise _ r c); auto using shape2_zeros2.
  intros. rewrite !at2_zeros2 by done. ring.
Qed.
Lemma mul2_ones2_l r c a : shape2 r c a → mul2 (ones2 r c) a = a.
Proof.
  intros. apply (zip2_pointwise _ r c); auto using shape2_ones2.
  intros. rewrite at2_ones2 by done. ring.
Qed.
Lemma add2_zeros2_l r c a : shape2 r c a → add2 (zeros2 r c) a = a.
Proof.
  intros. apply (zip2_pointwise _ r c); auto using shape2_zeros2.
  intros. rewrite at2_zeros2 by done. ring.
Qed.
Lemma add2_zeros2_r r c a : shape2 r c a → add2 a (zeros2 r c) = a.
Proof.
  intros. apply (zip2_pointwise _ r c); auto using shape2_zeros2.
  intros. rewrite at2_zeros2 by done. ring.
Qed.
Lemma sub2_zeros2_r r c a : shape2 r c a → sub2 a (zeros2 r c) = a.
Proof.
  intros. apply (zip2_pointwise _ r c); auto using shape2_zeros2.
  intros. rewrite at2_zeros2 by done. ring.
Qed.
Lemma div2_ones2_r r c a : shape2 r c a → div2 a (ones2 r c) = a.
Proof.
  intros. apply (zip2_pointwise _ r c); auto using shape2_ones2.
  intros. rewrite at2_ones2 by done. apply (right_id 1%Qc Qcdiv).
Qed.

Section StencilZero.
Context (cfg : config).
Hypothesis Hx : 1 ≤ nxc cfg.
Hypothesis Hy : 1 ≤ nyc cfg.

Lemma avg_zeros2 t r c r' c' :
  (r, c) = grid_shape cfg (src_grid t) → (r', c') = grid_shape cfg (dst_grid t) →
  avg cfg (zeros2 r c) t = zeros2 r' c'.
Proof.
  intros Hs Hd. rewrite !zeros2_tab2.
  replace r with (rows cfg (src_grid t)) by (unfold rows; by rewrite <- Hs).
  replace c with (cols cfg (src_grid t)) by (unfold cols; by rewrite <- Hs).
  rewrite avg_tab2 by done. apply tab2_eq.
  - unfold rows. by rewrite <- Hd.
  - unfold cols. by rewrite <- Hd.
  - intros i j _ _. unfold avg_at. destruct t; try case_decide; unfold Qcdiv; ring.
Qed.

Lemma dirder_zeros2 t r c r' c' :
  (r, c) = grid_shape cfg (src_grid t) → (r', c') = grid_shape cfg (dst_grid t) →
  dirder cfg (zeros2 r c) t = zeros2 r' c'.
Proof.
  intros Hs Hd. rewrite !zeros2_tab2.
  replace r with (rows cfg (src_grid t)) by (unfold rows; by rewrite <- Hs).
  replace c with (cols cfg (src_grid t)) by (unfold cols; by rewrite <- Hs).
  rewrite dirder_tab2 by done. apply tab2_eq.
  - unfold rows. by rewrite <- Hd.
  - unfold cols. by rewrite <- Hd.
  - intros i j _ _. unfold dirder_at. destruct t; try case_decide; unfold Qcdiv; ring.
Qed.

End StencilZero.

Local Close Scope Qc_scope.
Local Open Scope nat_scope.
Local Open Scope Qc_scope.

(** * Rational arithmetic: floors, quotients and remainders *)

Lemma this_Q2Qc (a : Q) : (this (Q2Qc a) == a)%Q.
Proof. simpl. apply Qred_correct. Qed.
Lemma this_plus (a b : Qc) : (this (a + b) == this a + this b)%Q.
Proof. simpl. apply Qred_correct. Qed.
Lemma this_mult (a b : Qc) : (this (a * b) == this a * this b)%Q.
Proof. simpl. apply Qred_correct. Qed.
Lemma this_opp (a : Qc) : (this (- a) == - this a)%Q.
Proof. simpl. apply Qred_correct. Qed.
Lemma this_minus (a b : Qc) : (this (a - b) == this a - this b)%Q.
Proof. unfold Qcminus. rewrite this_plus, this_opp. reflexivity. Qed.
Lemma this_of_Z (n : Z) : this (Qc_of_Z n) = inject_Z n.
Proof. reflexivity. Qed.

Lemma Qc_eq_this (a b : Qc) : a = b → (this a == this b)%Q.
Proof. by intros ->. Qed.

(** Moves an (in)equality between [Qc] expressions built from [+], [-], [*]
    and constants to [Q], where [lra] and [nra] apply. *)
Ltac toQ :=
  repeat match goal with
  | H : @eq Qc _ _ |- _ => apply Qc_eq_this in H
  | |- @eq Qc _ _ => apply Qc_is_canon
  end;
  unfold Qcle, Qclt in *;
  repeat match goal with
  | H : context [this (_ - _)] |- _ => rewrite this_minus in H
  | H : context [this (_ + _)] |- _ => rewrite this_plus in H
  | H : context [this (_ * _)] |- _ => rewrite this_mult in H
  | H : context [this (- _)] |- _ => rewrite this_opp in H
  | H : context [this (Q2Qc _)] |- _ => rewrite this_Q2Qc in H
  | H : context [this (Qc_of_Z _)] |- _ => rewrite this_of_Z in H
  | |- context [this (_ - _)] => rewrite this_minus
  | |- context [this (_ + _)] => rewrite this_plus
  | |- context [this (_ * _)] => rewrite this_mult
  | |- context [this (- _)] => rewrite this_opp
  | |- context [this (Q2Qc _)] => rewrite this_Q2Qc
  | |- context [this (Qc_of_Z _)] => rewrite this_of_Z
  end.

Lemma Qc_eq_Q (a b : Qc) : (this a == this b)%Q → a = b.
Proof. apply Qc_is_canon. Qed.

Lemma Qcfloor_le a : Qc_of_Z (Qcfloor a) ≤ a.
Proof. unfold Qcle, Qcfloor. simpl. apply Qfloor_le. Qed.

Lemma Qcfloor_lt a : a < Qc_of_Z (Qcfloor a) + 1.
Proof.
  rewrite <- Z2Qc_inj_1, <- Z2Qc_inj_add.
  unfold Qclt, Qcfloor. simpl. apply Qlt_floor.
Qed.

Lemma Qcfloor_range (a : Qc) (lo hi : Z) :
  Qc_of_Z lo ≤ a → a < Qc_of_Z hi → (lo ≤ Qcfloor a < hi)%Z.
Proof.
  intros Hlo Hhi. pose proof (Qcfloor_le a) as H1. pose proof (Qcfloor_lt a) as H2.
  split.
  - apply Z.lt_succ_r. apply (proj2 (Z2Qc_inj_lt _ _)).
    eapply Qcle_lt_trans; [exact Hlo|].
    replace (Z.succ (Qcfloor a)) with (Qcfloor a + 1)%Z by lia.
    by rewrite Z2Qc_inj_add, Z2Qc_inj_1.
  - apply (proj2 (Z2Qc_inj_lt _ _)). eapply Qcle_lt_trans; eauto.
Qed.

(** The fractional part lies in [0, 1). *)
Lemma frac_range a : 0 ≤ a - Qc_of_Z (Qcfloor a) ∧ a - Qc_of_Z (Qcfloor a) < 1.
Proof.
  pose proof (Qcfloor_le a) as H1. pose proof (Qcfloor_lt a) as H2.
  split; toQ; lra.
Qed.

Lemma Qcdiv_mult_cancel a d : d ≠ 0 → a / d * d = a.
Proof. intros. field. done. Qed.

Lemma Qcdiv_range (a d lo hi : Qc) :
  0 < d → lo * d ≤ a → a < hi * d → lo ≤ a / d ∧ a / d < hi.
Proof.
  intros Hd Hlo Hhi.
  assert (d ≠ 0) as Hd0 by (intros ->; by apply (Qclt_not_eq 0 0)).
  split.
  - apply (Qcmult_le_mono_pos_r _ _ d Hd). by rewrite Qcdiv_mult_cancel.
  - apply (Qcmult_lt_mono_pos_r _ _ d Hd). by rewrite Qcdiv_mult_cancel.
Qed.

Lemma Qc_of_nat_pos n : (1 ≤ n)%nat → 0 < Qc_of_nat n.
Proof.
  intros. unfold Qc_of_nat. rewrite <- Z2Qc_inj_0.
  apply (proj1 (Z2Qc_inj_lt 0 (Z.of_nat n))). lia.
Qed.

(** A cell of width [L / n], [n] cells: [n * (L / n) = L] and the width is
    positive. *)
Lemma cell_width_pos (L : Qc) (n : nat) : (1 ≤ n)%nat → 0 < L → 0 < L / Qc_of_nat n.
Proof.
  intros Hn HL. unfold Qcdiv. apply Qcmult_pos_pos; [done|].
  apply Qcinv_pos. by apply Qc_of_nat_pos.
Qed.

Lemma cell_width_total (L : Qc) (n : nat) :
  (1 ≤ n)%nat → Qc_of_nat n * (L / Qc_of_nat n) = L.
Proof.
  intros Hn. field. pose proof (Qc_of_nat_pos n Hn) as H.
  intros E. rewrite E in H. by apply (Qclt_not_eq 0 0).
Qed.

(** Python's [%] with a positive modulus gives a value in [0, L). *)
Lemma fmod_range (a L : Qc) : 0 < L → 0 ≤ fmod a L ∧ fmod a L < L.
Proof.
  intros HL. unfold fmod.
  assert (L ≠ 0) as HL0 by (intros ->; by apply (Qclt_not_eq 0 0)).
  pose proof (Qcfloor_le (a / L)) as H1. pose proof (Qcfloor_lt (a / L)) as H2.
  apply (Qcmult_le_mono_pos_r _ _ L HL) in H1.
  apply (Qcmult_lt_mono_pos_r _ _ L HL) in H2.
  rewrite Qcdiv_mult_cancel in H1, H2 by done.
  split; toQ; lra.
Qed.

Local Close Scope Qc_scope.
Local Open Scope nat_scope.

(** * Run-time subscripts *)

Lemma py_index_in_range n (i : Z) :
  (0 ≤ i < Z.of_nat n)%Z → py_index n i = Some (Z.to_nat i).
Proof. intros. unfold py_index. by rewrite decide_True. Qed.

Lemma shape2_lookup r c (a : arr2) i :
  shape2 r c a → i < r → ∃ row, a !! i = Some row ∧ length row = c.
Proof.
  intros [Hr Hc] Hi. subst r.
  destruct (lookup_lt_is_Some_2 a i Hi) as [row Hrow].
  exists row. split; [done|]. by eapply (Forall_lookup_1 _ _ _ _ Hc).
Qed.

Lemma get2_in_range r c (a : arr2) (i j : Z) :
  shape2 r c a → (0 ≤ i < Z.of_nat r)%Z → (0 ≤ j < Z.of_nat c)%Z →
  get2 a i j = Some (at2 a (Z.to_nat i) (Z.to_nat j)).
Proof.
  intros Ha Hi Hj. unfold get2.
  destruct (shape2_lookup r c a (Z.to_nat i) Ha) as (row & Hrow & Hlen); [lia|].
  destruct Ha as [Hr _].
  rewrite Hr, py_index_in_range by done. simpl. rewrite Hrow. simpl.
  rewrite Hlen, py_index_in_range by done. simpl.
  unfold at2, row_of, nth0. rewrite Hrow. simpl.
  destruct (lookup_lt_is_Some_2 row (Z.to_nat j)) as [x Hx]; [lia|].
  by rewrite Hx.
Qed.

Lemma shape2_insert_row r c (a : arr2) i row :
  shape2 r c a → length row = c → shape2 r c (<[i := row]> a).
Proof.
  intros [Hr Hc] Hrow. split; [by rewrite length_insert|].
  by apply Forall_insert.
Qed.

Lemma vsum_insert (l : vec) k (x y : Qc) :
  l !! k = Some x → vsum (<[k := y]> l) = (vsum l - x + y)%Qc.
Proof.
  revert k. induction l as [|z l IH]; intros k Hk; [done|].
  destruct k as [|k]; simpl in *.
  - injection Hk as ->. ring.
  - rewrite (IH k Hk). ring.
Qed.

Lemma sum2_insert (a : arr2) i (row row' : vec) :
  a !! i = Some row → sum2 (<[i := row']> a) = (sum2 a - vsum row + vsum row')%Qc.
Proof.
  intros Hrow. unfold sum2. rewrite list_fmap_insert.
  apply vsum_insert. by rewrite list_lookup_fmap, Hrow.
Qed.

Lemma add_at_in_range r c (a : arr2) (i j : Z) (v : Qc) :
  shape2 r c a → (0 ≤ i < Z.of_nat r)%Z → (0 ≤ j < Z.of_nat c)%Z →
  ∃ a', add_at a i j v = Some a' ∧ shape2 r c a'
        ∧ sum2 a' = (sum2 a + v)%Qc.
Proof.
  intros Ha Hi Hj. unfold add_at.
  destruct (shape2_lookup r c a (Z.to_nat i) Ha) as (row & Hrow & Hlen); [lia|].
  destruct (lookup_lt_is_Some_2 row (Z.to_nat j)) as [x Hx]; [lia|].
  pose proof Ha as [Hr _].
  rewrite Hr, py_index_in_range by done. simpl. rewrite Hrow. simpl.
  rewrite Hlen, py_index_in_range by done. simpl. rewrite Hx. simpl.
  eexists. split; [done|]. split.
  - apply shape2_insert_row; [done|]. by rewrite length_insert.
  - rewrite (sum2_insert _ _ row) by done.
    rewrite (vsum_insert _ _ x) by done. ring.
Qed.

Lemma scatter_within r c (a : arr2) (s : stencil) (val : Qc → Qc) :
  shape2 r c a → stencil_within r c s →
  ∃ a', scatter a s val = Some a' ∧ shape2 r c a'
        ∧ sum2 a' = (sum2 a + val (wx1 s * wy1 s) + val (wx2 s * wy1 s)
                     + val (wx1 s * wy2 s) + val (wx2 s * wy2 s))%Qc.
Proof.
  intros Ha (Hi1 & Hi2 & Hj1 & Hj2). unfold scatter.
  destruct (add_at_in_range r c a (i1 s) (j1 s) (val (wx1 s * wy1 s))%Qc Ha Hi1 Hj1)
    as (a1 & -> & Ha1 & S1). simpl.
  destruct (add_at_in_range r c a1 (i2 s) (j1 s) (val (wx2 s * wy1 s))%Qc Ha1 Hi2 Hj1)
    as (a2 & -> & Ha2 & S2). simpl.
  destruct (add_at_in_range r c a2 (i1 s) (j2 s) (val (wx1 s * wy2 s))%Qc Ha2 Hi1 Hj2)
    as (a3 & -> & Ha3 & S3). simpl.
  destruct (add_at_in_range r c a3 (i2 s) (j2 s) (val (wx2 s * wy2 s))%Qc Ha3 Hi2 Hj2)
    as (a4 & -> & Ha4 & S4).
  exists a4. split; [done|]. split; [done|].
  rewrite S4, S3, S2, S1. done.
Qed.

Lemma interpolate_within r c (f : arr2) (s : stencil) :
  shape2 r c f → stencil_within r c s → is_Some (interpolate f s).
Proof.
  intros Hf (Hi1 & Hi2 & Hj1 & Hj2). unfold interpolate.
  rewrite !(get2_in_range r c) by done. simpl. eauto.
Qed.

Lemma for_each_invariant {S} (P : S → Prop) (body : nat → S → option S)
    (order : list nat) (s : S) :
  P s →
  (∀ i s, i ∈ order → P s → ∃ s', body i s = Some s' ∧ P s') →
  ∃ s', for_each body order s = Some s' ∧ P s'.
Proof.
  revert s. induction order as [|i order IH]; intros s Hs Hbody; simpl.
  - eauto.
  - destruct (Hbody i s) as (s1 & -> & Hs1); [left|done|]. simpl.
    apply IH; [done|]. intros k s2 Hk. apply Hbody. by right.
Qed.

(** * Cells and weights *)

(** A coordinate in [0, L) measured in cells lies in cell [0 .. n-1]. *)
Lemma cell_index (a L : Qc) (n : nat) :
  1 ≤ n → (0 < L)%Qc → (0 ≤ a)%Qc → (a < L)%Qc →
  (0 ≤ Qcfloor (a / (L / Qc_of_nat n)) < Z.of_nat n)%Z.
Proof.
  intros Hn HL H0 H1.
  pose proof (cell_width_pos L n Hn HL) as Hd.
  pose proof (cell_width_total L n Hn) as Ht.
  destruct (Qcdiv_range a (L / Qc_of_nat n) 0 (Qc_of_nat n) Hd) as [Hlo Hhi].
  - by rewrite Qcmult_0_l.
  - by rewrite Ht.
  - apply Qcfloor_range; [by rewrite Z2Qc_inj_0|done].
Qed.

(** Shifted by half a cell, it lies in cell [-1 .. n-1]. *)
Lemma half_cell_index (a L : Qc) (n : nat) :
  1 ≤ n → (0 < L)%Qc → (0 ≤ a)%Qc → (a < L)%Qc →
  (-1 ≤ Qcfloor ((a - L / Qc_of_nat n / 2) / (L / Qc_of_nat n)) < Z.of_nat n)%Z.
Proof.
  intros Hn HL H0 H1.
  pose proof (cell_width_pos L n Hn HL) as Hd.
  pose proof (cell_width_total L n Hn) as Ht.
  set (d := (L / Qc_of_nat n)%Qc) in *.
  assert (d / 2 * 2 = d)%Qc as Hhalf by (field; done).
  set (h := (d / 2)%Qc) in *.
  destruct (Qcdiv_range (a - h) d (Qc_of_Z (-1)) (Qc_of_nat n) Hd) as [Hlo Hhi].
  - unfold Qc_of_nat in *. clearbody d h. toQ.
    change (inject_Z (-1)) with (-1 # 1)%Q. lra.
  - unfold Qc_of_nat in *. clearbody d h. toQ. lra.
  - by apply Qcfloor_range.
Qed.

Lemma weights_range (a : Qc) :
  let w2 := (a - Qc_of_Z (Qcfloor a))%Qc in
  let w1 := (1 - w2)%Qc in
  (0 ≤ w1)%Qc ∧ (w1 ≤ 1)%Qc ∧ (0 ≤ w2)%Qc ∧ (w2 ≤ 1)%Qc ∧ (w1 + w2 = 1)%Qc.
Proof.
  intros w2 w1. destruct (frac_range a) as [H0 H1]. fold w2 in H0, H1.
  subst w1. repeat split; toQ; lra.
Qed.

(** * Subscripts and weights of the particle stencils *)

Section Stencils.
Context (cfg : config).
Hypothesis Hnx : 1 ≤ nx cfg.
Hypothesis Hny : 1 ≤ ny cfg.
Hypothesis HLx : (0 < Lx cfg)%Qc.
Hypothesis HLy : (0 < Ly cfg)%Qc.

Lemma dx_pos : (0 < dx cfg)%Qc.
Proof. by apply cell_width_pos. Qed.
Lemma dy_pos : (0 < dy cfg)%Qc.
Proof. by apply cell_width_pos. Qed.
Lemma nxc_dx : (Qc_of_nat (nxc cfg) * dx cfg = Lx cfg)%Qc.
Proof. by apply cell_width_total. Qed.
Lemma nyc_dy : (Qc_of_nat (nyc cfg) * dy cfg = Ly cfg)%Qc.
Proof. by apply cell_width_total. Qed.

Lemma cell_index_x a : (0 ≤ a)%Qc → (a < Lx cfg)%Qc →
  (0 ≤ Qcfloor (a / dx cfg) < Z.of_nat (nxc cfg))%Z.
Proof. by apply cell_index. Qed.
Lemma cell_index_y a : (0 ≤ a)%Qc → (a < Ly cfg)%Qc →
  (0 ≤ Qcfloor (a / dy cfg) < Z.of_nat (nyc cfg))%Z.
Proof. by apply cell_index. Qed.
Lemma half_cell_index_x a : (0 ≤ a)%Qc → (a < Lx cfg)%Qc →
  (-1 ≤ Qcfloor ((a - dx cfg / 2) / dx cfg) < Z.of_nat (nxc cfg))%Z.
Proof. by apply half_cell_index. Qed.
Lemma half_cell_index_y a : (0 ≤ a)%Qc → (a < Ly cfg)%Qc →
  (-1 ≤ Qcfloor ((a - dy cfg / 2) / dy cfg) < Z.of_nat (nyc cfg))%Z.
Proof. by apply half_cell_index. Qed.

Lemma Qcminus_0_r (a : Qc) : (a - 0)%Qc = a.
Proof. ring. Qed.

Lemma wrap_range (i : Z) (n : nat) : 1 ≤ n →
  (0 ≤ i `mod` Z.of_nat n < Z.of_nat n)%Z.
Proof. intros. apply Z.mod_pos_bound. lia. Qed.

Lemma gather_stencil_within gridtype xk yk :
  in_domain cfg xk yk →
  stencil_within (grid_shape cfg gridtype).1 (grid_shape cfg gridtype).2
    (gather_stencil cfg gridtype xk yk).
Proof.
  intros (Hx0 & Hx1 & Hy0 & Hy1).
  pose proof (cell_index_x xk Hx0 Hx1). pose proof (cell_index_y yk Hy0 Hy1).
  pose proof (half_cell_index_x xk Hx0 Hx1).
  pose proof (half_cell_index_y yk Hy0 Hy1).
  unfold stencil_within, gather_stencil.
  destruct gridtype; cbn [grid_shape fst snd i1 i2 j1 j2];
    rewrite ?Qcminus_0_r; unfold nxn, nyn;
    repeat split; try apply wrap_range; try done; try lia.
Qed.

Lemma deposit_stencil_LR_within xk yk :
  in_domain cfg xk yk →
  stencil_within (nxn cfg) (nyc cfg) (deposit_stencil_LR cfg xk yk).
Proof.
  intros (Hx0 & Hx1 & Hy0 & Hy1).
  pose proof (cell_index_x xk Hx0 Hx1).
  unfold stencil_within, deposit_stencil_LR. cbn [i1 i2 j1 j2].
  unfold nxn in *. case_decide;
    repeat split; try apply wrap_range; try done; try lia.
Qed.

Lemma deposit_stencil_UD_within xk yk :
  in_domain cfg xk yk →
  stencil_within (nxc cfg) (nyn cfg) (deposit_stencil_UD cfg xk yk).
Proof.
  intros (Hx0 & Hx1 & Hy0 & Hy1).
  pose proof (cell_index_y yk Hy0 Hy1).
  unfold stencil_within, deposit_stencil_UD. cbn [i1 i2 j1 j2].
  unfold nyn in *. case_decide;
    repeat split; try apply wrap_range; try done; try lia.
Qed.

(** The centre stencil wraps both subscripts, wherever the particle is. *)
Lemma deposit_stencil_C_within xk yk :
  stencil_within (nxc cfg) (nyc cfg) (deposit_stencil_C cfg xk yk).
Proof.
  unfold stencil_within, deposit_stencil_C. cbn [i1 i2 j1 j2].
  repeat split; try apply wrap_range; done.
Qed.

End Stencils.

Local Close Scope Qc_scope.
Local Open Scope nat_scope.

(** * The Krylov vector codec *)

Lemma length_flatten2 r c (a : arr2) : shape2 r c a → length (flatten2 a) = r * c.
Proof.
  intros [Hr Hc]. subst r. unfold flatten2.
  induction Hc as [|row a Hrow Hc IH]; simpl; [done|].
  rewrite length_app, IH, Hrow. done.
Qed.

Lemma reshape2_flatten2 r c (a : arr2) : shape2 r c a → reshape2 r c (flatten2 a) = a.
Proof.
  intros [Hr Hc]. subst r. unfold flatten2.
  induction Hc as [|row a Hrow Hc IH]; simpl; [done|].
  rewrite take_app_length', drop_app_length' by done. by rewrite IH.
Qed.

Lemma shape2_reshape2 r c (l : vec) : length l = r * c → shape2 r c (reshape2 r c l).
Proof.
  revert l. induction r as [|r IH]; intros l Hl; simpl.
  - split; [done|constructor].
  - destruct (IH (drop c l)) as [Hr Hc]; [rewrite length_drop; lia|].
    split; [simpl; by rewrite Hr|].
    constructor; [|done]. rewrite length_take. lia.
Qed.

Lemma flatten2_reshape2 r c (l : vec) : length l = r * c → flatten2 (reshape2 r c l) = l.
Proof.
  revert l. induction r as [|r IH]; intros l Hl; simpl.
  - destruct l; [done|simpl in *; lia].
  - unfold flatten2 in *. simpl. rewrite IH by (rewrite length_drop; lia).
    apply take_drop.
Qed.

Lemma set_slice_zeros_app n (a : vec) (pre : vec) m :
  length pre = n → m = length a →
  set_slice n (n + m) a (pre ++ zeros (m + 0)) = pre ++ a.
Proof.
  intros Hn ->. unfold set_slice.
  rewrite take_app_length' by done.
  rewrite drop_app_ge by lia. rewrite Hn.
  unfold zeros. rewrite drop_replicate.
  replace (length a + 0 - (n + length a - n)) with 0 by lia.
  simpl. by rewrite app_nil_r.
Qed.

Lemma set_slice_app_keep {A} lo hi (v pre rest : list A) (mid : list A) :
  length pre = lo → length mid = hi - lo → lo ≤ hi →
  set_slice lo hi v (pre ++ mid ++ rest) = pre ++ v ++ rest.
Proof.
  intros Hp Hm Hle. unfold set_slice.
  rewrite take_app_length' by done.
  rewrite drop_app_ge by lia. rewrite Hp.
  rewrite drop_app_length' by done. done.
Qed.

Lemma slice_app_mid {A} lo hi (pre mid rest : list A) :
  length pre = lo → length mid = hi - lo → lo ≤ hi →
  slice lo hi (pre ++ mid ++ rest) = mid.
Proof.
  intros Hp Hm Hle. unfold slice.
  rewrite drop_app_length' by done. rewrite take_app_length' by done. done.
Qed.

Lemma set_slice_head {A} hi (v mid rest : list A) :
  length mid = hi → set_slice 0 hi v (mid ++ rest) = v ++ rest.
Proof. intros. apply (set_slice_app_keep 0 hi v [] rest mid); simpl; lia. Qed.

Lemma set_slice_last {A} lo hi (v pre mid : list A) :
  length pre = lo → length mid = hi - lo → lo ≤ hi →
  set_slice lo hi v (pre ++ mid) = pre ++ v.
Proof.
  intros. rewrite <- (app_nil_r mid), <- (app_nil_r v) at 1.
  rewrite (set_slice_app_keep lo hi) by done. by rewrite !app_nil_r.
Qed.

Lemma slice_head {A} hi (mid rest : list A) :
  length mid = hi → slice 0 hi (mid ++ rest) = mid.
Proof. intros. apply (slice_app_mid 0 hi [] mid rest); simpl; lia. Qed.

Lemma slice_last {A} lo hi (pre mid : list A) :
  length pre = lo → length mid = hi - lo → lo ≤ hi →
  slice lo hi (pre ++ mid) = mid.
Proof.
  intros. rewrite <- (app_nil_r mid) at 1. by apply slice_app_mid.
Qed.

Lemma zeros_app n m : zeros (n + m) = zeros n ++ zeros m.
Proof. unfold zeros. apply replicate_add. Qed.

Lemma length_zeros n : length (zeros n) = n.
Proof. apply length_replicate. Qed.

Section Codec.
Context (cfg : config).

Lemma phys_to_krylov_app Exk Eyk Ezk uk vk wk :
  on_grid cfg LR Exk → on_grid cfg UD Eyk → on_grid cfg C Ezk →
  length uk = npart cfg → length vk = npart cfg → length wk = npart cfg →
  phys_to_krylov cfg Exk Eyk Ezk uk vk wk
  = flatten2 Exk ++ flatten2 Eyk ++ flatten2 Ezk ++ uk ++ vk ++ wk.
Proof.
  intros HEx HEy HEz Hu Hv Hw. unfold phys_to_krylov. cbv zeta.
  pose proof (length_flatten2 _ _ _ HEx) as Lx.
  pose proof (length_flatten2 _ _ _ HEy) as Ly.
  pose proof (length_flatten2 _ _ _ HEz) as Lz.
  cbn [grid_shape fst snd] in Lx, Ly, Lz.
  set (a := nxn cfg * nyc cfg) in *. set (b := nxc cfg * nyn cfg) in *.
  set (c := nxc cfg * nyc cfg) in *. set (n := npart cfg) in *.
  replace (zeros (a + b + c + 3 * n))
    with (zeros (a + (b + (c + (n + (n + n)))))) by (f_equal; lia).
  rewrite !zeros_app.
  rewrite (set_slice_head a) by (rewrite ?length_zeros; lia).
  rewrite (set_slice_app_keep a (a + b) _ (flatten2 Exk) _ (zeros b))
    by (rewrite ?length_zeros; lia).
  rewrite (app_assoc (flatten2 Exk)).
  rewrite (set_slice_app_keep (a + b) (a + b + c) _ _ _ (zeros c))
    by (rewrite ?length_app, ?length_zeros; lia).
  rewrite (app_assoc _ (flatten2 Ezk)).
  rewrite (set_slice_app_keep (a + b + c) (a + b + c + n) _ _ _ (zeros n))
    by (rewrite ?length_app, ?length_zeros; lia).
  rewrite (app_assoc _ uk).
  rewrite (set_slice_app_keep (a + b + c + n) (a + b + c + 2 * n) _ _ _ (zeros n))
    by (rewrite ?length_app, ?length_zeros; lia).
  rewrite (app_assoc _ vk).
  rewrite (set_slice_last (a + b + c + 2 * n) (a + b + c + 3 * n))
    by (rewrite ?length_app, ?length_zeros; lia).
  rewrite <- !app_assoc. done.
Qed.

Lemma length_phys_to_krylov Exk Eyk Ezk uk vk wk :
  on_grid cfg LR Exk → on_grid cfg UD Eyk → on_grid cfg C Ezk →
  length uk = npart cfg → length vk = npart cfg → length wk = npart cfg →
  length (phys_to_krylov cfg Exk Eyk Ezk uk vk wk) = krylov_len cfg.
Proof.
  intros HEx HEy HEz Hu Hv Hw. rewrite phys_to_krylov_app by done.
  rewrite !length_app, (length_flatten2 _ _ _ HEx), (length_flatten2 _ _ _ HEy),
    (length_flatten2 _ _ _ HEz), Hu, Hv, Hw.
  unfold krylov_len. cbn [grid_shape fst snd]. lia.
Qed.

Lemma krylov_to_phys_app (a b c : arr2) (uk vk wk : vec) :
  on_grid cfg LR a → on_grid cfg UD b → on_grid cfg C c →
  length uk = npart cfg → length vk = npart cfg → length wk = npart cfg →
  krylov_to_phys cfg (flatten2 a ++ flatten2 b ++ flatten2 c ++ uk ++ vk ++ wk)
  = (a, b, c, uk, vk, wk).
Proof.
  intros Ha Hb Hc Hu Hv Hw. unfold krylov_to_phys. cbv zeta.
  pose proof (length_flatten2 _ _ _ Ha) as La.
  pose proof (length_flatten2 _ _ _ Hb) as Lb.
  pose proof (length_flatten2 _ _ _ Hc) as Lc.
  cbn [grid_shape fst snd] in La, Lb, Lc.
  rewrite slice_head by lia.
  rewrite (slice_app_mid _ _ (flatten2 a) (flatten2 b)) by lia.
  rewrite (app_assoc (flatten2 a)).
  rewrite (slice_app_mid _ _ _ (flatten2 c)) by (rewrite ?length_app; lia).
  rewrite (app_assoc _ (flatten2 c)).
  rewrite (slice_app_mid _ _ _ uk) by (rewrite ?length_app; lia).
  rewrite (app_assoc _ uk).
  rewrite (slice_app_mid _ _ _ vk) by (rewrite ?length_app; lia).
  rewrite (app_assoc _ vk).
  rewrite slice_last by (rewrite ?length_app; lia).
  rewrite !reshape2_flatten2 by done. done.
Qed.

End Codec.

(** C3.  Decoding the Krylov vector built from a physical state gives back
    that state: the three field arrays and the three velocity arrays are
    returned unchanged. *)
Theorem krylov_round_trip (cfg : config) (Exk Eyk Ezk : arr2) (uk vk wk : vec) :
  on_grid cfg LR Exk → on_grid cfg UD Eyk → on_grid cfg C Ezk →
  length uk = npart cfg → length vk = npart cfg → length wk = npart cfg →
  krylov_to_phys cfg (phys_to_krylov cfg Exk Eyk Ezk uk vk wk)
  = (Exk, Eyk, Ezk, uk, vk, wk).
Proof.
  intros. rewrite phys_to_krylov_app by done. by apply krylov_to_phys_app.
Qed.

Lemma krylov_round_trip_witness :
  krylov_to_phys cfg22
    (phys_to_krylov cfg22 (zeros2 3 2) (zeros2 2 3) (ones2 2 2) [1%Qc] [0%Qc] [1%Qc])
  = (zeros2 3 2, zeros2 2 3, ones2 2 2, [1%Qc], [0%Qc], [1%Qc]).
Proof.
  apply (krylov_round_trip cfg22).
  - apply shape2_zeros2.
  - apply shape2_zeros2.
  - apply shape2_ones2.
  - reflexivity.
  - reflexivity.
  - reflexivity.
Defined.

Local Close Scope Qc_scope.
Local Open Scope nat_scope.

Section FlatProofs.
Context (cfg : config).
Hypothesis Hx : 1 ≤ nxc cfg.
Hypothesis Hy : 1 ≤ nyc cfg.

Lemma Qcdiv_1_r (a : Qc) : (a / 1)%Qc = a.
Proof. apply (right_id 1%Qc Qcdiv). Qed.

Lemma mod_small_last n : 1 ≤ n → (n + n - 1) mod n = n - 1.
Proof.
  intros. replace (n + n - 1) with ((n - 1) + 1 * n) by lia.
  rewrite Nat.Div0.mod_add. apply Nat.mod_small. lia.
Qed.

Lemma mod_pred i n : 1 ≤ i → i < n → (i + n - 1) mod n = i - 1.
Proof.
  intros. replace (i + n - 1) with ((i - 1) + 1 * n) by lia.
  rewrite Nat.Div0.mod_add. apply Nat.mod_small. lia.
Qed.

Lemma mod_zero_last n : 1 ≤ n → (0 + n - 1) mod n = n - 1.
Proof. intros. apply Nat.mod_small. lia. Qed.

Ltac grids :=
  unfold on_grid, rows, cols, nxn, nyn in *;
  cbn [src_grid dst_grid grid_shape fst snd field_grids] in *.

(** [dirder] is the periodic difference quotient. *)
Lemma dirder_flat field t :
  on_grid cfg (src_grid t) field →
  dirder cfg field t
  = match t with
    | C2UD | LR2N => ddy_wrap cfg field (dst_grid t)
    | C2LR | UD2N => ddx_wrap cfg field (dst_grid t)
    | N2LR | UD2C => ddy_cell cfg field (dst_grid t)
    | N2UD | LR2C => ddx_cell cfg field (dst_grid t)
    end.
Proof.
  intros Hf. rewrite dirder_on_grid by done.
  unfold ddy_wrap, ddx_wrap, ddy_cell, ddx_cell, rows, cols.
  destruct t; apply tab2_ext; intros i j Hi Hj; unfold dirder_at;
    cbn [dst_grid grid_shape fst snd] in *; unfold nxn, nyn in *;
    try done;
    case_decide as Hc.
  all: try (destruct Hc as [-> | ->];
            rewrite ?Nat.Div0.mod_same, ?Nat.Div0.mod_0_l, ?mod_small_last,
                    ?mod_zero_last by lia; done).
  all: rewrite ?(Nat.mod_small i), ?(Nat.mod_small j), ?mod_pred by lia; done.
Qed.

Ltac shp :=
  repeat first
    [ assumption
    | apply shape2_zeros2 | apply shape2_ones2
    | apply shape2_add2 | apply shape2_sub2 | apply shape2_mul2
    | apply shape2_div2 | apply shape2_neg2 | apply shape2_scale2
    | apply shape2_divs2
    | match goal with
      | |- shape2 _ _ (dirder _ ?f ?t) => apply (dirder_shape cfg f t Hx Hy)
      | |- shape2 _ _ (avg _ ?f ?t) => apply (avg_shape cfg f t Hx Hy)
      | |- on_grid _ _ (dirder _ ?f ?t) => apply (dirder_shape cfg f t Hx Hy)
      | |- on_grid _ _ (avg _ ?f ?t) => apply (avg_shape cfg f t Hx Hy)
      end ].

Ltac zero_out :=
  repeat first
    [ rewrite mul2_zeros2_l by shp
    | rewrite mul2_ones2_l by shp
    | match goal with
      | |- context [avg cfg (zeros2 ?r ?c) ?t] =>
        rewrite (avg_zeros2 cfg Hx Hy t r c (grid_shape cfg (dst_grid t)).1
                   (grid_shape cfg (dst_grid t)).2 eq_refl eq_refl);
        cbn [dst_grid grid_shape fst snd]
      | |- context [dirder cfg (zeros2 ?r ?c) ?t] =>
        rewrite (dirder_zeros2 cfg Hx Hy t r c (grid_shape cfg (dst_grid t)).1
                   (grid_shape cfg (dst_grid t)).2 eq_refl eq_refl);
        cbn [dst_grid grid_shape fst snd]
      end
    | rewrite add2_zeros2_l by shp
    | rewrite add2_zeros2_r by shp
    | rewrite sub2_zeros2_r by shp
    | rewrite div2_ones2_r by shp ].

Lemma curl_flat_metric fieldx fieldy fieldz fieldtype :
  field_on cfg fieldtype fieldx fieldy fieldz →
  curl cfg (flat_metric cfg) fieldx fieldy fieldz fieldtype
  = flat_curl cfg fieldx fieldy fieldz fieldtype.
Proof.
  intros (Hfx & Hfy & Hfz). unfold curl, flat_curl, flat_metric.
  destruct fieldtype; cbn [field_grids fst snd g11e g12e g13e g21e g22e g23e
    g31e g32e g33e g11b g12b g13b g21b g22b g23b g31b g32b g33b
    J_UD J_LR J_c J_n] in *.
  - zero_out. rewrite !dirder_flat by done. done.
  - zero_out. rewrite !dirder_flat by done. done.
Qed.

Lemma entry_identity (f : Staggered.point_geometry → arr2) a b X :
  f (Staggered.PointGeometry Staggered.identity3 Staggered.identity3 1 1
       Staggered.identity3) = Staggered.identity3 →
  1 ≤ a ≤ 3 → 1 ≤ b ≤ 3 →
  Staggered.entry f a b (Staggered.identity_geometry cfg X)
  = if decide (a = b) then ones2 (grid_shape cfg X).1 (grid_shape cfg X).2
    else zeros2 (grid_shape cfg X).1 (grid_shape cfg X).2.
Proof.
  intros Hf Ha Hb. unfold Staggered.entry, Staggered.identity_geometry.
  rewrite !fmap_replicate, Hf.
  destruct a as [|[|[|[|a]]]]; try lia; destruct b as [|[|[|[|b]]]]; try lia;
    done.
Qed.

Lemma g_identity a b X :
  1 ≤ a ≤ 3 → 1 ≤ b ≤ 3 →
  Staggered.g_ (Staggered.identity_geometry cfg) a b X
  = if decide (a = b) then ones2 (grid_shape cfg X).1 (grid_shape cfg X).2
    else zeros2 (grid_shape cfg X).1 (grid_shape cfg X).2.
Proof. by apply entry_identity. Qed.

Lemma Jdet_identity X :
  Staggered.Jdet_ (Staggered.identity_geometry cfg) X
  = ones2 (grid_shape cfg X).1 (grid_shape cfg X).2.
Proof.
  unfold Staggered.Jdet_, Staggered.identity_geometry.
  by rewrite !fmap_replicate.
Qed.

Ltac identity_geo :=
  rewrite ?Jdet_identity, ?g_identity by lia;
  cbn [grid_shape fst snd];
  repeat (case_decide; [try lia | try lia]).

Lemma staggered_curl_identity fieldx fieldy fieldz fieldtype :
  field_on cfg fieldtype fieldx fieldy fieldz →
  Staggered.curl cfg (Staggered.identity_geometry cfg) fieldx fieldy fieldz fieldtype
  = flat_curl cfg fieldx fieldy fieldz fieldtype.
Proof.
  intros (Hfx & Hfy & Hfz). unfold Staggered.curl, flat_curl.
  destruct fieldtype; cbn [field_grids fst snd] in *; cbv zeta.
  - identity_geo. zero_out. rewrite !dirder_flat by done. done.
  - identity_geo. zero_out. rewrite !dirder_flat by done. done.
Qed.

Lemma staggered_div_identity fieldx fieldy fieldz fieldtype :
  field_on cfg fieldtype fieldx fieldy fieldz →
  Staggered.div cfg (Staggered.identity_geometry cfg) fieldx fieldy fieldz fieldtype
  = flat_div cfg fieldx fieldy fieldtype.
Proof.
  intros (Hfx & Hfy & Hfz). unfold Staggered.div, flat_div.
  destruct fieldtype; cbn [field_grids fst snd] in *; cbv zeta.
  - identity_geo. zero_out. rewrite !dirder_flat by done. done.
  - identity_geo. zero_out. rewrite !dirder_flat by done. done.
Qed.

End FlatProofs.

(** C5.  With the identity metric and unit Jacobian determinant, [curl] (both
    field types, in both solvers) and [div] are the flat-space finite
    differences: [curl_x = d(fieldz)/dy], [curl_y = - d(fieldz)/dx],
    [curl_z = d(fieldy)/dx - d(fieldx)/dy], [div = d(fieldx)/dx + d(fieldy)/dy]. *)
Theorem curl_div_flat_space (cfg : config) (fieldx fieldy fieldz : arr2)
    (fieldtype : field_type) :
  1 ≤ nx cfg → 1 ≤ ny cfg →
  field_on cfg fieldtype fieldx fieldy fieldz →
  curl cfg (flat_metric cfg) fieldx fieldy fieldz fieldtype
    = flat_curl cfg fieldx fieldy fieldz fieldtype
  ∧ Staggered.curl cfg (Staggered.identity_geometry cfg) fieldx fieldy fieldz fieldtype
    = flat_curl cfg fieldx fieldy fieldz fieldtype
  ∧ Staggered.div cfg (Staggered.identity_geometry cfg) fieldx fieldy fieldz fieldtype
    = flat_div cfg fieldx fieldy fieldtype.
Proof.
  intros Hx Hy Hf. split; [|split].
  - by apply curl_flat_metric.
  - by apply staggered_curl_identity.
  - by apply staggered_div_identity.
Qed.

Lemma curl_div_flat_space_witness :
  curl cfg22 (flat_metric cfg22) (zeros2 3 2) (ones2 2 3) (ones2 2 2) E
    = flat_curl cfg22 (zeros2 3 2) (ones2 2 3) (ones2 2 2) E
  ∧ Staggered.curl cfg22 (Staggered.identity_geometry cfg22)
      (zeros2 3 2) (ones2 2 3) (ones2 2 2) E
    = flat_curl cfg22 (zeros2 3 2) (ones2 2 3) (ones2 2 2) E
  ∧ Staggered.div cfg22 (Staggered.identity_geometry cfg22)
      (zeros2 3 2) (ones2 2 3) (ones2 2 2) E
    = flat_div cfg22 (zeros2 3 2) (ones2 2 3) E.
Proof.
  apply (curl_div_flat_space cfg22).
  - simpl; lia.
  - simpl; lia.
  - split; [apply shape2_zeros2|]. split; [apply shape2_ones2|apply shape2_ones2].
Defined.

Local Close Scope Qc_scope.
Local Open Scope nat_scope.

(** C7.  For the stencil types C2UD, C2LR, UD2N and LR2N, the values of [avg]
    and of [dirder] on the two opposite edges of the destination grid are
    equal, and the shared value is the one computed from the first source
    entry and the last one, its neighbour across the periodic boundary. *)
Theorem stencil_edges_periodic (cfg : config) (field : arr2) (t : stencil_type) (k : nat) :
  1 ≤ nx cfg → 1 ≤ ny cfg →
  wraps t = true →
  on_grid cfg (src_grid t) field →
  k < edge_len cfg t →
  edge_hi cfg t (avg cfg field t) k = edge_lo t (avg cfg field t) k
  ∧ edge_lo t (avg cfg field t) k
    = ((src_first t field k + src_last cfg t field k) / 2)%Qc
  ∧ edge_hi cfg t (dirder cfg field t) k = edge_lo t (dirder cfg field t) k
  ∧ edge_lo t (dirder cfg field t) k
    = ((src_first t field k - src_last cfg t field k) / spacing cfg t)%Qc.
Proof.
  intros Hx Hy Hw Hf Hk.
  unfold edge_hi, edge_lo, src_first, src_last, spacing, edge_len in *.
  destruct t; try discriminate;
    cbn [along_y dst_grid grid_shape fst snd] in *;
    rewrite !at2_avg, !at2_dirder
      by (try done; unfold rows, cols, nxn, nyn, nxc, nyc in *;
          cbn [dst_grid grid_shape fst snd] in *;
          unfold nxn, nyn, nxc, nyc in *; lia);
    unfold avg_at, dirder_at, nxn, nyn, nxc, nyc;
    repeat case_decide; try lia; done.
Qed.

Lemma stencil_edges_periodic_witness :
  edge_hi cfg22 C2UD (avg cfg22 (zeros2 2 2) C2UD) 0
  = edge_lo C2UD (avg cfg22 (zeros2 2 2) C2UD) 0
  ∧ edge_lo C2UD (avg cfg22 (zeros2 2 2) C2UD) 0
    = ((src_first C2UD (zeros2 2 2) 0 + src_last cfg22 C2UD (zeros2 2 2) 0) / 2)%Qc
  ∧ edge_hi cfg22 C2UD (dirder cfg22 (zeros2 2 2) C2UD) 0
    = edge_lo C2UD (dirder cfg22 (zeros2 2 2) C2UD) 0
  ∧ edge_lo C2UD (dirder cfg22 (zeros2 2 2) C2UD) 0
    = ((src_first C2UD (zeros2 2 2) 0 - src_last cfg22 C2UD (zeros2 2 2) 0)
       / spacing cfg22 C2UD)%Qc.
Proof.
  apply (stencil_edges_periodic cfg22 (zeros2 2 2) C2UD 0).
  - simpl; lia.
  - simpl; lia.
  - reflexivity.
  - apply shape2_zeros2.
  - vm_compute; lia.
Defined.

Local Close Scope Qc_scope.
Local Open Scope nat_scope.

Lemma vsum_app (a b : vec) : vsum (a ++ b) = (vsum a + vsum b)%Qc.
Proof. induction a as [|x a IH]; simpl; [ring|]. rewrite IH. ring. Qed.

Lemma vsum_permutation (a b : vec) : a ≡ₚ b → vsum a = vsum b.
Proof.
  induction 1 as [|x a b _ IH|x y a|a b c _ IH1 _ IH2]; simpl.
  - done.
  - by rewrite IH.
  - ring.
  - by rewrite IH1.
Qed.

Lemma sum2_zeros2 r c : sum2 (zeros2 r c) = 0%Qc.
Proof.
  unfold sum2, zeros2, zeros. rewrite fmap_replicate.
  assert (vsum (replicate c 0%Qc) = 0%Qc) as ->.
  { induction c as [|c IH]; simpl; [done|]. rewrite IH. ring. }
  induction r as [|r IH]; simpl; [done|]. rewrite IH. ring.
Qed.

Lemma stencil_C_weights_sum cfg xk yk :
  let s := deposit_stencil_C cfg xk yk in
  (wx1 s * wy1 s + wx2 s * wy1 s + wx1 s * wy2 s + wx2 s * wy2 s = 1)%Qc.
Proof. unfold deposit_stencil_C. cbn [wx1 wx2 wy1 wy2]. ring. Qed.

Section Charge.
Context (cfg : config).
Hypothesis Hnx : 1 ≤ nx cfg.
Hypothesis Hny : 1 ≤ ny cfg.

Lemma deposit_rho_body_sum xk yk q i rho :
  length xk = npart cfg → length yk = npart cfg → length q = npart cfg →
  i < npart cfg → on_grid cfg C rho →
  ∃ rho', Staggered.deposit_rho_body cfg xk yk q i rho = Some rho'
          ∧ on_grid cfg C rho' ∧ sum2 rho' = (sum2 rho + nth0 q i)%Qc.
Proof.
  intros Lx Ly Lq Hi Hrho. unfold Staggered.deposit_rho_body.
  destruct (lookup_lt_is_Some_2 xk i) as [xi Hxi]; [lia|].
  destruct (lookup_lt_is_Some_2 yk i) as [yi Hyi]; [lia|].
  destruct (lookup_lt_is_Some_2 q i) as [qi Hqi]; [lia|].
  rewrite Hxi, Hyi, Hqi. simpl.
  destruct (scatter_within (nxc cfg) (nyc cfg) rho (deposit_stencil_C cfg xi yi)
              (λ ww, (ww * qi)%Qc) Hrho) as (rho' & -> & Hs & Hsum).
  { by apply deposit_stencil_C_within. }
  exists rho'. split; [done|]. split; [done|].
  rewrite Hsum. unfold nth0. rewrite Hqi.
  change (default 0%Qc (Some qi)) with qi. cbv beta.
  pose proof (stencil_C_weights_sum cfg xi yi) as Hw. cbv zeta in Hw.
  transitivity (sum2 rho + (wx1 (deposit_stencil_C cfg xi yi) * wy1 (deposit_stencil_C cfg xi yi)
     + wx2 (deposit_stencil_C cfg xi yi) * wy1 (deposit_stencil_C cfg xi yi)
     + wx1 (deposit_stencil_C cfg xi yi) * wy2 (deposit_stencil_C cfg xi yi)
     + wx2 (deposit_stencil_C cfg xi yi) * wy2 (deposit_stencil_C cfg xi yi)) * qi)%Qc.
  - ring.
  - rewrite Hw. ring.
Qed.

Lemma deposit_rho_loop_sum xk yk q order rho :
  length xk = npart cfg → length yk = npart cfg → length q = npart cfg →
  Forall (λ i, i < npart cfg) order → on_grid cfg C rho →
  ∃ rho', for_each (Staggered.deposit_rho_body cfg xk yk q) order rho = Some rho'
          ∧ on_grid cfg C rho'
          ∧ sum2 rho' = (sum2 rho + vsum (nth0 q <$> order))%Qc.
Proof.
  intros Hlx Hly Hlq Ho. revert rho.
  induction Ho as [|i order Hi Ho IH]; intros rho Hrho; simpl.
  - exists rho. split; [done|]. split; [done|].
    simpl. ring.
  - destruct (deposit_rho_body_sum xk yk q i rho) as (rho1 & -> & H1 & S1); try done.
    simpl. destruct (IH rho1 H1) as (rho' & -> & H' & S').
    exists rho'. split; [done|]. split; [done|]. rewrite S', S1.
    change (list_fmap nat Qc (nth0 q) order) with (nth0 q <$> order). ring.
Qed.

End Charge.

(** C8.  [particle_to_grid_rho] returns the charge density of the deposit
    loop, with the ion background [rho_ion] added when [electron_and_ion] is
    set.  The density before the background is added sums over the grid to
    the sum of the particle charges, and so does the density of the same
    loop with the particles visited in any other order.  Both subscripts are
    wrapped, so this holds for particles anywhere, in particular in
    [0,Lx) x [0,Ly). *)
Theorem deposited_charge_is_total_charge (cfg : config) (electron_and_ion : bool)
    (rho_ion : arr2) (xk yk q : vec) (order : list nat) :
  1 ≤ nx cfg → 1 ≤ ny cfg →
  length xk = npart cfg → length yk = npart cfg → length q = npart cfg →
  on_grid cfg C rho_ion →
  order ≡ₚ seq 0 (npart cfg) →
  ∃ rho rho_o,
    Staggered.particle_to_grid_rho cfg electron_and_ion rho_ion xk yk q
      = Some (if electron_and_ion then add2 rho rho_ion else rho)
    ∧ on_grid cfg C rho ∧ sum2 rho = vsum q
    ∧ Staggered.deposit_rho_in cfg order xk yk q = Some rho_o
    ∧ on_grid cfg C rho_o ∧ sum2 rho_o = vsum q.
Proof.
  intros Hnx Hny Lx Ly Lq Hion Hperm.
  assert (∀ o, o ≡ₚ seq 0 (npart cfg) →
            ∃ rho, Staggered.deposit_rho_in cfg o xk yk q = Some rho
                   ∧ on_grid cfg C rho ∧ sum2 rho = vsum q) as Hloop.
  { intros o Ho. unfold Staggered.deposit_rho_in.
    destruct (deposit_rho_loop_sum cfg Hnx Hny xk yk q o
                (zeros2 (nxc cfg) (nyc cfg)) Lx Ly Lq) as (rho & -> & Hs & Hsum).
    - rewrite Ho. apply Forall_seq. intros. lia.
    - apply shape2_zeros2.
    - exists rho. split; [done|]. split; [done|].
      rewrite Hsum, sum2_zeros2.
      rewrite (vsum_permutation _ (nth0 q <$> seq 0 (npart cfg)))
        by (by apply fmap_Permutation).
      rewrite <- Lq.
      change (nth0 q <$> seq 0 (length q)) with (tab1 (length q) (nth0 q)).
      rewrite <- vec_as_tab1. ring. }
  destruct (Hloop (seq 0 (npart cfg))) as (rho & Hrho & Hs & Hsum); [done|].
  destruct (Hloop order Hperm) as (rho_o & Hrho_o & Hs_o & Hsum_o).
  exists rho, rho_o. unfold Staggered.particle_to_grid_rho. rewrite Hrho.
  cbn [mbind option_bind]. done.
Qed.

Lemma deposited_charge_is_total_charge_witness :
  ∃ rho rho_o,
    Staggered.particle_to_grid_rho cfg22_pair true (zeros2 2 2)
      [decimal 1 2; decimal 7 4] [decimal 3 2; decimal 1 4]
      [1%Qc; decimal 1 2]
      = Some (if true then add2 rho (zeros2 2 2) else rho)
    ∧ on_grid cfg22_pair C rho
    ∧ sum2 rho = vsum [1%Qc; decimal 1 2]
    ∧ Staggered.deposit_rho_in cfg22_pair [1; 0]
        [decimal 1 2; decimal 7 4] [decimal 3 2; decimal 1 4]
        [1%Qc; decimal 1 2] = Some rho_o
    ∧ on_grid cfg22_pair C rho_o
    ∧ sum2 rho_o = vsum [1%Qc; decimal 1 2].
Proof.
  apply (deposited_charge_is_total_charge cfg22_pair true (zeros2 2 2)
           [decimal 1 2; decimal 7 4] [decimal 3 2; decimal 1 4]
           [1%Qc; decimal 1 2] [1; 0]).
  - simpl; lia.
  - simpl; lia.
  - reflexivity.
  - reflexivity.
  - reflexivity.
  - apply shape2_zeros2.
  - apply Permutation_swap.
Defined.

Local Close Scope Qc_scope.
Local Open Scope nat_scope.

(** * The gather *)

Lemma unit_products (a1 a2 b1 b2 : Qc) :
  (0 ≤ a1)%Qc → (a1 ≤ 1)%Qc → (0 ≤ a2)%Qc → (a2 ≤ 1)%Qc → (a1 + a2 = 1)%Qc →
  (0 ≤ b1)%Qc → (b1 ≤ 1)%Qc → (0 ≤ b2)%Qc → (b2 ≤ 1)%Qc → (b1 + b2 = 1)%Qc →
  (0 ≤ a1 * b1 ≤ 1)%Qc ∧ (0 ≤ a2 * b1 ≤ 1)%Qc
  ∧ (0 ≤ a1 * b2 ≤ 1)%Qc ∧ (0 ≤ a2 * b2 ≤ 1)%Qc
  ∧ (a1 * b1 + a2 * b1 + a1 * b2 + a2 * b2 = 1)%Qc.
Proof.
  intros. repeat split; toQ; nra.
Qed.

Lemma stencil_weights_ok (xa ya : Qc) (a b c d : Z) :
  weights_ok
    (Stencil a b c d
       (1 - (xa - Qc_of_Z (Qcfloor xa))) (xa - Qc_of_Z (Qcfloor xa))
       (1 - (ya - Qc_of_Z (Qcfloor ya))) (ya - Qc_of_Z (Qcfloor ya))).
Proof.
  unfold weights_ok. cbn [wx1 wx2 wy1 wy2].
  destruct (weights_range xa) as (? & ? & ? & ? & ?).
  destruct (weights_range ya) as (? & ? & ? & ? & ?).
  by apply unit_products.
Qed.

Lemma gather_stencil_weights_ok cfg gridtype xk yk :
  weights_ok (gather_stencil cfg gridtype xk yk).
Proof. unfold gather_stencil. destruct gridtype; apply stencil_weights_ok. Qed.

Section Gather.
Context (cfg : config).
Hypothesis Hnx : 1 ≤ nx cfg.
Hypothesis Hny : 1 ≤ ny cfg.
Hypothesis HLx : (0 < Lx cfg)%Qc.
Hypothesis HLy : (0 < Ly cfg)%Qc.

(** With exact quotients the gather returns for particles in the domain. *)
Lemma grid_to_particle_total (xk yk : vec) (f : arr2) gridtype :
  on_grid cfg gridtype f → particles_in_domain cfg xk yk →
  ∃ fp, grid_to_particle cfg xk yk f gridtype = Some fp ∧ length fp = npart cfg.
Proof.
  intros Hf (Hlx & Hly & Hdom). unfold grid_to_particle.
  match goal with |- context [mapM ?g ?l] =>
    destruct (mapM g l) as [fp|] eqn:Hm end.
  - exists fp. split; [done|]. apply length_mapM in Hm.
    by rewrite length_seq in Hm.
  - apply mapM_None_1 in Hm. apply Exists_exists in Hm as (i & Hi & Hnone).
    apply in_seq in Hi.
    destruct (lookup_lt_is_Some_2 xk i) as [xi Hxi]; [lia|].
    destruct (lookup_lt_is_Some_2 yk i) as [yi Hyi]; [lia|].
    rewrite Hxi, Hyi in Hnone. simpl in Hnone.
    destruct (interpolate_within _ _ f (gather_stencil cfg gridtype xi yi) Hf)
      as [val Hval].
    + apply gather_stencil_within; eauto.
    + congruence.
Qed.

End Gather.

Local Close Scope Qc_scope.
Local Open Scope nat_scope.

(** * The current deposit *)

Lemma length_row_of r c (a : arr2) i : shape2 r c a → i < r → length (row_of a i) = c.
Proof.
  intros Ha Hi. destruct (shape2_lookup r c a i Ha Hi) as (row & Hrow & Hlen).
  unfold row_of. by rewrite Hrow.
Qed.

Lemma shape2_fmap_insert r c (a : arr2) k (h : vec → Qc) :
  shape2 r c a → shape2 r c ((λ row, <[k := h row]> row) <$> a).
Proof.
  intros [Hr Hc]. split; [by rewrite length_fmap|].
  apply Forall_fmap. clear Hr.
  induction Hc as [|row a Hrow Hc IH]; constructor; [|done].
  simpl. by rewrite length_insert.
Qed.

Section Deposit.
Context (cfg : config).
Hypothesis Hnx : 1 ≤ nx cfg.
Hypothesis Hny : 1 ≤ ny cfg.
Hypothesis HLx : (0 < Lx cfg)%Qc.
Hypothesis HLy : (0 < Ly cfg)%Qc.

(** With exact quotients the deposit returns for particles in the domain. *)
Lemma deposit_J_body_total xk yk uk vk wk qk i J :
  particles_in_domain cfg xk yk →
  length uk = npart cfg → length vk = npart cfg → length wk = npart cfg →
  length qk = npart cfg →
  i < npart cfg → J_shapes cfg J →
  ∃ J', deposit_J_body cfg xk yk uk vk wk qk i J = Some J' ∧ J_shapes cfg J'.
Proof.
  intros (Hlx & Hly & Hdom) Hlu Hlv Hlw Hlq Hi HJ.
  destruct J as [[Jx Jy] Jz]. destruct HJ as (HJx & HJy & HJz). simpl in *.
  unfold deposit_J_body.
  destruct (lookup_lt_is_Some_2 xk i) as [xi Hxi]; [lia|].
  destruct (lookup_lt_is_Some_2 yk i) as [yi Hyi]; [lia|].
  destruct (lookup_lt_is_Some_2 uk i) as [ui Hui]; [lia|].
  destruct (lookup_lt_is_Some_2 vk i) as [vi Hvi]; [lia|].
  destruct (lookup_lt_is_Some_2 wk i) as [wi Hwi]; [lia|].
  destruct (lookup_lt_is_Some_2 qk i) as [qi Hqi]; [lia|].
  rewrite Hxi, Hyi, Hui, Hvi, Hwi, Hqi. simpl.
  pose proof (Hdom i xi yi Hxi Hyi) as Hd.
  destruct (scatter_within _ _ Jx (deposit_stencil_LR cfg xi yi)
              (λ ww, (ww * qi * ui / dx cfg / dy cfg)%Qc) HJx)
    as (Jx' & -> & HJx' & _); [by apply deposit_stencil_LR_within|]. simpl.
  destruct (scatter_within _ _ Jy (deposit_stencil_UD cfg xi yi)
              (λ ww, (ww * qi * vi / dx cfg / dy cfg)%Qc) HJy)
    as (Jy' & -> & HJy' & _); [by apply deposit_stencil_UD_within|]. simpl.
  destruct (scatter_within _ _ Jz (deposit_stencil_C cfg xi yi)
              (λ ww, (ww * qi * wi / dx cfg / dy cfg)%Qc) HJz)
    as (Jz' & -> & HJz' & _); [by apply deposit_stencil_C_within|]. simpl.
  exists (Jx', Jy', Jz'). split; [done|]. unfold J_shapes. simpl. done.
Qed.

Lemma particle_to_grid_J_in_total order xk yk uk vk wk qk :
  particles_in_domain cfg xk yk →
  length uk = npart cfg → length vk = npart cfg → length wk = npart cfg →
  length qk = npart cfg →
  Forall (λ i, i < npart cfg) order →
  ∃ J, particle_to_grid_J_in cfg order xk yk uk vk wk qk = Some J ∧ J_shapes cfg J.
Proof.
  intros Hd Hlu Hlv Hlw Hlq Ho. unfold particle_to_grid_J_in. cbv zeta.
  destruct (for_each_invariant (J_shapes cfg) (deposit_J_body cfg xk yk uk vk wk qk) order
              (zeros2 (nxn cfg) (nyc cfg), zeros2 (nxc cfg) (nyn cfg),
               zeros2 (nxc cfg) (nyc cfg)))
    as ([[Jx Jy] Jz] & -> & HJx & HJy & HJz).
  - repeat split; apply shape2_zeros2.
  - intros i J Hi HJ. apply deposit_J_body_total; try done.
    rewrite Forall_lookup in Ho. apply list_elem_of_lookup_1 in Hi as [k Hk].
    by apply (Ho k).
  - simpl in *. eexists. split; [done|]. unfold J_shapes. simpl.
    split; [|split].
    + apply shape2_insert_row; [done|].
      apply (length_row_of (nxn cfg)); [done|]. unfold nxn. lia.
    + by apply shape2_fmap_insert.
    + done.
Qed.

End Deposit.

Lemma in_domain_example : in_domain cfg22 (decimal 3 2) (decimal 1 4).
Proof. unfold in_domain, Qcle, Qclt. vm_compute. repeat split; discriminate. Qed.

Local Close Scope Qc_scope.
Local Open Scope nat_scope.

(** * The Picard loop *)

Lemma length_vsub (a b : vec) : length (vsub a b) = length a `min` length b.
Proof. unfold vsub. apply length_zip_with. Qed.

Section PicardLoop.
Context (tol : Qc) (kmax : nat) (res : vec → option vec).



(** An iterate that the loop returns has the length of the first one. *)
Lemma picard_loop_Some (n : nat) fuel k err2 x k' err2' x' :
  (∀ y r, length y = n → res y = Some r → length r = n) →
  length x = n →
  picard_loop tol kmax res fuel k err2 x = Some (k', err2', x') →
  length x' = n.
Proof.
  intros Hres. revert k err2 x.
  induction fuel as [|fuel IH]; intros k err2 x Hx H; simpl in H.
  - destruct (exceeds err2 tol && bool_decide (k ≤ kmax)); [done|].
    by injection H as <- <- <-.
  - destruct (exceeds err2 tol && bool_decide (k ≤ kmax)).
    + destruct (res x) as [r|] eqn:Hr; [|done]. simpl in H.
      apply IH in H; [done|]. rewrite length_vsub.
      pose proof (Hres x r Hx Hr). lia.
    + by injection H as <- <- <-.
Qed.

End PicardLoop.

Local Close Scope Qc_scope.
Local Open Scope nat_scope.

(** * Decoding a Krylov vector *)

(** A list of length [a + n] splits into its first [a] entries and the rest. *)
Lemma split_length {A} (a n : nat) (l : list A) :
  length l = a + n → ∃ p r, l = p ++ r ∧ length p = a ∧ length r = n.
Proof.
  intros Hl. exists (take a l), (drop a l).
  rewrite take_drop, length_take, length_drop. split; [done|]. lia.
Qed.

Section Decode.
Context (cfg : config).

Lemma krylov_to_phys_pieces (pa pb pc pu pv pw : vec) :
  length pa = nxn cfg * nyc cfg → length pb = nxc cfg * nyn cfg →
  length pc = nxc cfg * nyc cfg →
  length pu = npart cfg → length pv = npart cfg → length pw = npart cfg →
  krylov_to_phys cfg (pa ++ pb ++ pc ++ pu ++ pv ++ pw)
  = (reshape2 (nxn cfg) (nyc cfg) pa, reshape2 (nxc cfg) (nyn cfg) pb,
     reshape2 (nxc cfg) (nyc cfg) pc, pu, pv, pw).
Proof.
  intros La Lb Lc Lu Lv Lw. unfold krylov_to_phys. cbv zeta.
  rewrite slice_head by lia.
  rewrite (slice_app_mid _ _ pa pb) by lia.
  rewrite (app_assoc pa).
  rewrite (slice_app_mid _ _ _ pc) by (rewrite ?length_app; lia).
  rewrite (app_assoc _ pc).
  rewrite (slice_app_mid _ _ _ pu) by (rewrite ?length_app; lia).
  rewrite (app_assoc _ pu).
  rewrite (slice_app_mid _ _ _ pv) by (rewrite ?length_app; lia).
  rewrite (app_assoc _ pv).
  rewrite slice_last by (rewrite ?length_app; lia).
  done.
Qed.

Lemma krylov_pieces (xk : vec) :
  length xk = krylov_len cfg →
  ∃ pa pb pc pu pv pw,
    xk = pa ++ pb ++ pc ++ pu ++ pv ++ pw
    ∧ length pa = nxn cfg * nyc cfg ∧ length pb = nxc cfg * nyn cfg
    ∧ length pc = nxc cfg * nyc cfg
    ∧ length pu = npart cfg ∧ length pv = npart cfg ∧ length pw = npart cfg.
Proof.
  unfold krylov_len. intros Hl.
  destruct (split_length (nxn cfg * nyc cfg)
              (nxc cfg * nyn cfg + (nxc cfg * nyc cfg + (npart cfg + (npart cfg + npart cfg))))
              xk) as (pa & r1 & -> & La & L1); [lia|].
  destruct (split_length _ _ r1 L1) as (pb & r2 & -> & Lb & L2).
  destruct (split_length _ _ r2 L2) as (pc & r3 & -> & Lc & L3).
  destruct (split_length _ _ r3 L3) as (pu & r4 & -> & Lu & L4).
  destruct (split_length _ _ r4 L4) as (pv & pw & -> & Lv & Lw).
  exists pa, pb, pc, pu, pv, pw. done.
Qed.

End Decode.

(** X5.  Decoding a vector of the Krylov length gives three arrays on the
    grids of Ex, Ey, Ez and three vectors of one entry per particle, and
    encoding these again gives back the vector: on vectors of that length
    [phys_to_krylov] undoes [krylov_to_phys]. *)
Theorem krylov_decode_encode (cfg : config) (xk : vec) :
  length xk = krylov_len cfg →
  ∃ Exk Eyk Ezk uk vk wk,
    krylov_to_phys cfg xk = (Exk, Eyk, Ezk, uk, vk, wk)
    ∧ on_grid cfg LR Exk ∧ on_grid cfg UD Eyk ∧ on_grid cfg C Ezk
    ∧ length uk = npart cfg ∧ length vk = npart cfg ∧ length wk = npart cfg
    ∧ phys_to_krylov cfg Exk Eyk Ezk uk vk wk = xk.
Proof.
  intros Hl.
  destruct (krylov_pieces cfg xk Hl)
    as (pa & pb & pc & pu & pv & pw & -> & La & Lb & Lc & Lu & Lv & Lw).
  rewrite krylov_to_phys_pieces by done.
  pose proof (shape2_reshape2 _ _ pa La) as Sa.
  pose proof (shape2_reshape2 _ _ pb Lb) as Sb.
  pose proof (shape2_reshape2 _ _ pc Lc) as Sc.
  eexists _, _, _, _, _, _. split; [reflexivity|].
  split; [exact Sa|]. split; [exact Sb|]. split; [exact Sc|].
  split; [exact Lu|]. split; [exact Lv|]. split; [exact Lw|].
  rewrite phys_to_krylov_app by done.
  rewrite !flatten2_reshape2 by done. done.
Qed.

Lemma krylov_decode_encode_witness :
  ∃ Exk Eyk Ezk uk vk wk,
    krylov_to_phys cfg22 (ones 19) = (Exk, Eyk, Ezk, uk, vk, wk)
    ∧ on_grid cfg22 LR Exk ∧ on_grid cfg22 UD Eyk ∧ on_grid cfg22 C Ezk
    ∧ length uk = npart cfg22 ∧ length vk = npart cfg22 ∧ length wk = npart cfg22
    ∧ phys_to_krylov cfg22 Exk Eyk Ezk uk vk wk = ones 19.
Proof.
  apply (krylov_decode_encode cfg22 (ones 19)). reflexivity.
Defined.

Local Close Scope Qc_scope.
Local Open Scope nat_scope.

(** * Stencil operators on constant fields *)

Lemma Qc_mean_same (k : Qc) : ((k + k) / 2 = k)%Qc.
Proof. field. discriminate. Qed.

Lemma Qc_diff_same (k h : Qc) : ((k - k) / h = 0)%Qc.
Proof. unfold Qcdiv. ring. Qed.

(** X6.  On a field with the same value [k] at every point of the source
    grid, every one of the eight stencil types of [avg] returns [k] at every
    point of the destination grid, the periodic edges included, and [dirder]
    returns 0 there. *)
Theorem stencils_of_constant_field (cfg : config) (field : arr2)
    (t : stencil_type) (k : Qc) (i j : nat) :
  1 ≤ nx cfg → 1 ≤ ny cfg →
  on_grid cfg (src_grid t) field →
  (∀ a b, a < rows cfg (src_grid t) → b < cols cfg (src_grid t) →
          at2 field a b = k) →
  i < rows cfg (dst_grid t) → j < cols cfg (dst_grid t) →
  at2 (avg cfg field t) i j = k ∧ at2 (dirder cfg field t) i j = 0%Qc.
Proof.
  intros Hx Hy Hf Hk Hi Hj.
  rewrite at2_avg, at2_dirder by done.
  unfold avg_at, dirder_at.
  unfold rows, cols, nxc, nyc in *.
  destruct t; cbn [src_grid dst_grid grid_shape fst snd] in *;
    unfold nxn, nyn, nxc, nyc in *;
    try case_decide;
    rewrite !Hk by lia; split; first [apply Qc_mean_same | apply Qc_diff_same].
Qed.

Lemma stencils_of_constant_field_witness :
  at2 (avg cfg22 (ones2 2 2) C2UD) 1 2 = 1%Qc
  ∧ at2 (dirder cfg22 (ones2 2 2) C2UD) 1 2 = 0%Qc.
Proof.
  apply (stencils_of_constant_field cfg22 (ones2 2 2) C2UD 1%Qc 1 2).
  - simpl. lia.
  - simpl. lia.
  - apply shape2_ones2.
  - intros a b Ha Hb. apply at2_ones2; assumption.
  - vm_compute. lia.
  - vm_compute. lia.
Defined.

Local Close Scope Qc_scope.
Local Open Scope nat_scope.

(** * The divergence of a curl *)

Section DivCurl.
Context (cfg : config).
Hypothesis Hx : 1 ≤ nxc cfg.
Hypothesis Hy : 1 ≤ nyc cfg.

Ltac in_range :=
  first [ lia | apply Nat.mod_upper_bound; lia ].

(** The flat curl of a field of one type is a field of the other type. *)
Lemma flat_curl_on fieldx fieldy fieldz fieldtype :
  field_on cfg (dual_type fieldtype)
    (flat_curl cfg fieldx fieldy fieldz fieldtype).1.1
    (flat_curl cfg fieldx fieldy fieldz fieldtype).1.2
    (flat_curl cfg fieldx fieldy fieldz fieldtype).2.
Proof.
  unfold field_on, on_grid, flat_curl, ddx_wrap, ddy_wrap, ddx_cell, ddy_cell.
  destruct fieldtype; cbn [dual_type field_grids fst snd];
    (split; [|split]);
    first [ apply shape2_tab2
          | apply shape2_neg2; apply shape2_tab2
          | apply shape2_sub2; apply shape2_tab2 ].
Qed.

Lemma flat_div_flat_curl fieldx fieldy fieldz fieldtype :
  flat_div cfg (flat_curl cfg fieldx fieldy fieldz fieldtype).1.1
               (flat_curl cfg fieldx fieldy fieldz fieldtype).1.2
               (dual_type fieldtype)
  = zeros2 (rows cfg (div_grid (dual_type fieldtype)))
           (cols cfg (div_grid (dual_type fieldtype))).
Proof.
  unfold flat_div, flat_curl, rows, cols.
  destruct fieldtype; cbn [dual_type div_grid fst snd];
    unfold ddx_wrap, ddy_wrap, ddx_cell, ddy_cell;
    cbn [grid_shape fst snd]; unfold nxn, nyn;
    rewrite neg2_tab2, add2_tab2, zeros2_tab2 by done;
    apply tab2_ext; intros i j Hi Hj;
    rewrite !at2_tab2 by in_range;
    unfold Qcdiv; ring.
Qed.

End DivCurl.

Local Close Scope Qc_scope.
Local Open Scope nat_scope.

(** * The geometry of the curvilinear solver *)

(** [mapM] over [range(n)]: the loop raises exactly when its body raises at
    some index, and otherwise collects the results of the body in order. *)
Lemma mapM_seq_None {A} (f : nat → option A) (n : nat) :
  mapM f (seq 0 n) = None ↔ ∃ i, i < n ∧ f i = None.
Proof.
  rewrite mapM_None. split.
  - intros H. apply list.Exists_exists in H as (i & Hi & Hf).
    apply elem_of_seq in Hi. exists i. split; [lia|done].
  - intros (i & Hi & Hf). apply list.Exists_exists. exists i.
    split; [apply elem_of_seq; lia|done].
Qed.

Lemma mapM_seq_Some {A} (f : nat → option A) (n : nat) (l : list A) :
  mapM f (seq 0 n) = Some l →
  length l = n ∧ ∀ i, i < n → ∃ y, l !! i = Some y ∧ f i = Some y.
Proof.
  intros H. apply mapM_Some_1 in H.
  split; [apply Forall2_length in H; rewrite length_seq in H; done|].
  intros i Hi.
  destruct (Forall2_lookup_l _ _ _ i i H) as (y & Hy & Hf);
    [by apply lookup_seq_lt|]. eauto.
Qed.

Lemma mapM_seq_const {A} (f : nat → option A) (n : nat) (y : A) :
  (∀ i, i < n → f i = Some y) → mapM f (seq 0 n) = Some (replicate n y).
Proof.
  intros Hf. apply mapM_Some_2. apply Forall2_same_length_lookup_2.
  - by rewrite length_seq, length_replicate.
  - intros i a b Ha Hb. apply lookup_seq in Ha as [-> Hi].
    apply lookup_replicate in Hb as [-> _]. apply Hf. lia.
Qed.

Section GeometryProofs.
Context (cfg : config) (eps np_pi : Qc) (np_sin np_cos : Qc → Qc).

Abbreviation pije :=
  (Staggered.perturbed_inverse_jacobian_elements cfg eps np_pi np_sin np_cos).
Abbreviation geometry_point :=
  (Staggered.define_geometry_point cfg eps np_pi np_sin np_cos).
Abbreviation geometry_grid :=
  (Staggered.define_geometry_grid cfg eps np_pi np_sin np_cos).

Lemma define_geometry_point_None xg yg :
  geometry_point xg yg = None ↔ Staggered.np_linalg_det (pije xg yg) = 0%Qc.
Proof.
  unfold Staggered.define_geometry_point, Staggered.np_linalg_inv. cbv zeta.
  destruct (decide (Staggered.np_linalg_det (pije xg yg) = 0%Qc)) as [Hd|Hd];
    simpl; split; intros H; done.
Qed.

Lemma define_geometry_grid_None r c xs ys :
  geometry_grid r c xs ys = None
  ↔ ∃ i j, i < r ∧ j < c
      ∧ Staggered.np_linalg_det (pije (at2 xs i j) (at2 ys i j)) = 0%Qc.
Proof.
  unfold Staggered.define_geometry_grid. rewrite mapM_seq_None. split.
  - intros (i & Hi & Hrow). apply mapM_seq_None in Hrow as (j & Hj & Hp).
    apply define_geometry_point_None in Hp. eauto.
  - intros (i & j & Hi & Hj & Hd). exists i. split; [done|].
    apply mapM_seq_None. exists j. split; [done|].
    by apply define_geometry_point_None.
Qed.

Lemma define_geometry_grid_Some r c xs ys tbl :
  geometry_grid r c xs ys = Some tbl →
  length tbl = r
  ∧ ∀ i j, i < r → j < c →
      ∃ row p, tbl !! i = Some row ∧ length row = c ∧ row !! j = Some p
               ∧ geometry_point (at2 xs i j) (at2 ys i j) = Some p.
Proof.
  unfold Staggered.define_geometry_grid. intros H.
  apply mapM_seq_Some in H as [Hlen Hrows]. split; [done|].
  intros i j Hi Hj. destruct (Hrows i Hi) as (row & Hrow & Hm).
  apply mapM_seq_Some in Hm as [Hlr Hcols].
  destruct (Hcols j Hj) as (p & Hp & Hpt). eauto 10.
Qed.

Lemma define_geometry_None phys :
  Staggered.define_geometry cfg eps np_pi np_sin np_cos phys = None
  ↔ singular_somewhere cfg eps np_pi np_sin np_cos phys.
Proof.
  unfold Staggered.define_geometry, singular_somewhere, inverse_jacobian_det,
    rows, cols. cbv zeta. split.
  - intros H.
    destruct (geometry_grid _ _ (phys LR).1 _) as [gLR|] eqn:HLR; simpl in H;
      [|apply define_geometry_grid_None in HLR as (i & j & ? & ? & ?);
        exists LR, i, j; done].
    destruct (geometry_grid _ _ (phys UD).1 _) as [gUD|] eqn:HUD; simpl in H;
      [|apply define_geometry_grid_None in HUD as (i & j & ? & ? & ?);
        exists UD, i, j; done].
    destruct (geometry_grid _ _ (phys C).1 _) as [gC|] eqn:HC; simpl in H;
      [|apply define_geometry_grid_None in HC as (i & j & ? & ? & ?);
        exists C, i, j; done].
    destruct (geometry_grid _ _ (phys N).1 _) as [gN|] eqn:HN; simpl in H;
      [done|apply define_geometry_grid_None in HN as (i & j & ? & ? & ?);
        exists N, i, j; done].
  - intros (X & i & j & Hi & Hj & Hd).
    assert (geometry_grid (grid_shape cfg X).1 (grid_shape cfg X).2
              (phys X).1 (phys X).2 = None) as HX
      by (apply define_geometry_grid_None; eauto).
    destruct (geometry_grid _ _ (phys LR).1 _) as [gLR|] eqn:HLR; simpl; [|done].
    destruct (geometry_grid _ _ (phys UD).1 _) as [gUD|] eqn:HUD; simpl; [|done].
    destruct (geometry_grid _ _ (phys C).1 _) as [gC|] eqn:HC; simpl; [|done].
    destruct (geometry_grid _ _ (phys N).1 _) as [gN|] eqn:HN; simpl; [|done].
    destruct X; cbn [grid_shape fst snd] in *; congruence.
Qed.

Lemma define_geometry_Some phys geo X i j :
  Staggered.define_geometry cfg eps np_pi np_sin np_cos phys = Some geo →
  i < rows cfg X → j < cols cfg X →
  length (geo X) = rows cfg X
  ∧ ∃ row p, geo X !! i = Some row ∧ length row = cols cfg X ∧ row !! j = Some p
      ∧ geometry_point (at2 (phys X).1 i j) (at2 (phys X).2 i j) = Some p.
Proof.
  unfold Staggered.define_geometry, rows, cols. cbv zeta. intros H Hi Hj.
  destruct (geometry_grid _ _ (phys LR).1 _) as [gLR|] eqn:HLR; simpl in H; [|done].
  destruct (geometry_grid _ _ (phys UD).1 _) as [gUD|] eqn:HUD; simpl in H; [|done].
  destruct (geometry_grid _ _ (phys C).1 _) as [gC|] eqn:HC; simpl in H; [|done].
  destruct (geometry_grid _ _ (phys N).1 _) as [gN|] eqn:HN; simpl in H; [|done].
  injection H as <-.
  destruct X.
  - apply define_geometry_grid_Some in HLR as [Hl Hp]. split; [done|]. by apply Hp.
  - apply define_geometry_grid_Some in HUD as [Hl Hp]. split; [done|]. by apply Hp.
  - apply define_geometry_grid_Some in HC as [Hl Hp]. split; [done|]. by apply Hp.
  - apply define_geometry_grid_Some in HN as [Hl Hp]. split; [done|]. by apply Hp.
Qed.

End GeometryProofs.

Local Close Scope Qc_scope.
Local Open Scope nat_scope.

(** * What [define_geometry] stores *)

(** ** 3x3 matrices *)

Section ThreeByThree.
Context (a b c d e f g h k : Qc).
Let m : arr2 := [[a; b; c]; [d; e; f]; [g; h; k]].

Lemma np_linalg_inv_Some m' :
  Staggered.np_linalg_inv m = Some m' →
  Staggered.np_linalg_det m ≠ 0%Qc
  ∧ (Staggered.np_linalg_det m' * Staggered.np_linalg_det m = 1)%Qc
  ∧ (∀ r s, r < 3 → s < 3 →
       matmul3_at m' m r s = at2 Staggered.identity3 r s).
Proof.
  unfold Staggered.np_linalg_inv. cbv zeta.
  destruct (decide (Staggered.np_linalg_det m = 0%Qc)) as [Hd|Hd]; [done|].
  intros Hm. injection Hm as <-. split; [exact Hd|].
  revert Hd. unfold Staggered.np_linalg_det, m, matmul3_at.
  unfold at2, nth0, row_of. simpl.
  intros Hd. split.
  - field. exact Hd.
  - intros r s Hr Hs.
    destruct r as [|[|[|r]]]; [| | |lia];
      (destruct s as [|[|[|s]]]; [| | |lia]);
      unfold at2, nth0, row_of; simpl;
      field; exact Hd.
Qed.

End ThreeByThree.

Lemma np_linalg_inv_literal (m m' : arr2) :
  Staggered.np_linalg_inv m = Some m' →
  ∃ a b c d e f g h k, m' = [[a; b; c]; [d; e; f]; [g; h; k]].
Proof.
  unfold Staggered.np_linalg_inv. cbv zeta.
  destruct (decide _); [done|]. intros H. injection H as <-. eauto 12.
Qed.

(** The metric built from a Jacobian [J] is [J^T J]: it is symmetric and its
    determinant is the square of the determinant of [J]. *)
Lemma metric_of_jacobian (a b c d e f g h k : Qc) :
  let jac : arr2 := [[a; b; c]; [d; e; f]; [g; h; k]] in
  let g11 := (at2 jac 0 0 * at2 jac 0 0 + at2 jac 1 0 * at2 jac 1 0 + at2 jac 2 0 * at2 jac 2 0)%Qc in
  let g21 := (at2 jac 0 0 * at2 jac 0 1 + at2 jac 1 0 * at2 jac 1 1 + at2 jac 2 0 * at2 jac 2 1)%Qc in
  let g31 := (at2 jac 0 0 * at2 jac 0 2 + at2 jac 1 0 * at2 jac 1 2 + at2 jac 2 0 * at2 jac 2 2)%Qc in
  let g12 := (at2 jac 0 0 * at2 jac 0 1 + at2 jac 1 0 * at2 jac 1 1 + at2 jac 2 0 * at2 jac 2 1)%Qc in
  let g22 := (at2 jac 0 1 * at2 jac 0 1 + at2 jac 1 1 * at2 jac 1 1 + at2 jac 2 1 * at2 jac 2 1)%Qc in
  let g32 := (at2 jac 0 1 * at2 jac 0 2 + at2 jac 1 1 * at2 jac 1 2 + at2 jac 2 1 * at2 jac 2 2)%Qc in
  let g13 := (at2 jac 0 0 * at2 jac 0 2 + at2 jac 1 0 * at2 jac 1 2 + at2 jac 2 0 * at2 jac 2 2)%Qc in
  let g23 := (at2 jac 0 1 * at2 jac 0 2 + at2 jac 1 1 * at2 jac 1 2 + at2 jac 2 1 * at2 jac 2 2)%Qc in
  let g33 := (at2 jac 0 2 * at2 jac 0 2 + at2 jac 1 2 * at2 jac 1 2 + at2 jac 2 2 * at2 jac 2 2)%Qc in
  let gm : arr2 := [[g11; g12; g13]; [g21; g22; g23]; [g31; g32; g33]] in
  (∀ r s, r < 3 → s < 3 → at2 gm r s = at2 gm s r)
  ∧ (Staggered.np_linalg_det gm
     = Staggered.np_linalg_det jac * Staggered.np_linalg_det jac)%Qc.
Proof.
  cbv zeta. split.
  - intros r s Hr Hs.
    destruct r as [|[|[|r]]]; [| | |lia];
      (destruct s as [|[|[|s]]]; [| | |lia]); reflexivity.
  - unfold Staggered.np_linalg_det, at2, nth0, row_of. simpl. ring.
Qed.

(** Reading the arrays of a geometry at one point. *)
Lemma at2_entry (f : Staggered.point_geometry → arr2) a b tbl i j row p :
  tbl !! i = Some row → row !! j = Some p →
  at2 (Staggered.entry f a b tbl) i j = at2 (f p) (a - 1) (b - 1).
Proof.
  intros Hrow Hp. unfold Staggered.entry.
  unfold at2 at 1. unfold row_of, nth0.
  rewrite list_lookup_fmap, Hrow. simpl.
  rewrite list_lookup_fmap, Hp. done.
Qed.

Lemma at2_point (f : Staggered.point_geometry → Qc) tbl i j row p :
  tbl !! i = Some row → row !! j = Some p →
  at2 (fmap (M := list) f <$> tbl) i j = f p.
Proof.
  intros Hrow Hp. unfold at2, row_of, nth0.
  rewrite list_lookup_fmap, Hrow. simpl.
  rewrite list_lookup_fmap, Hp. done.
Qed.

Section StoredGeometry.
Context (cfg : config) (eps np_pi : Qc) (np_sin np_cos : Qc → Qc).

Abbreviation pije :=
  (Staggered.perturbed_inverse_jacobian_elements cfg eps np_pi np_sin np_cos).
Abbreviation geometry_point :=
  (Staggered.define_geometry_point cfg eps np_pi np_sin np_cos).

Lemma define_geometry_point_Some xg yg p :
  geometry_point xg yg = Some p →
  Staggered.jdet p = Staggered.np_linalg_det (pije xg yg)
  ∧ Staggered.jdet p ≠ 0%Qc
  ∧ (Staggered.Jdet p * Staggered.jdet p = 1)%Qc
  ∧ (∀ r s, r < 3 → s < 3 →
       matmul3_at (Staggered.jacobian p) (Staggered.inverse_jacobian p) r s
       = at2 Staggered.identity3 r s)
  ∧ (∀ r s, r < 3 → s < 3 →
       at2 (Staggered.gmetric p) r s = at2 (Staggered.gmetric p) s r)
  ∧ (Staggered.np_linalg_det (Staggered.gmetric p)
     = Staggered.Jdet p * Staggered.Jdet p)%Qc.
Proof.
  unfold Staggered.define_geometry_point. cbv zeta.
  destruct (Staggered.np_linalg_inv (pije xg yg)) as [jac|] eqn:Hinv; [|done].
  simpl. intros Hp. injection Hp as <-. simpl.
  pose proof Hinv as Hlit.
  apply np_linalg_inv_literal in Hlit as (a & b & c & d & e & f & g & h & k & ->).
  unfold Staggered.perturbed_inverse_jacobian_elements in Hinv. cbv zeta in Hinv.
  apply np_linalg_inv_Some in Hinv as (Hd & Hdd & Hmm).
  split; [reflexivity|]. split; [exact Hd|]. split; [exact Hdd|].
  split; [exact Hmm|].
  apply (metric_of_jacobian a b c d e f g h k).
Qed.

End StoredGeometry.

Section UniformGeometry.
Context (cfg : config) (eps np_pi : Qc) (np_sin np_cos : Qc → Qc).

(** When the loop body gives the same values at every point the four double
    loops fill the four tables with them. *)
Lemma define_geometry_uniform (phys : grid → arr2 * arr2) p0 :
  (∀ xg yg, Staggered.define_geometry_point cfg eps np_pi np_sin np_cos xg yg
            = Some p0) →
  Staggered.define_geometry cfg eps np_pi np_sin np_cos phys
  = Some (uniform_geometry cfg p0).
Proof.
  intros Hp.
  assert (∀ r c xs ys,
    Staggered.define_geometry_grid cfg eps np_pi np_sin np_cos r c xs ys
    = Some (replicate r (replicate c p0))) as Hgrid.
  { intros r c xs ys. unfold Staggered.define_geometry_grid.
    apply mapM_seq_const. intros i _. apply mapM_seq_const. intros j _.
    apply Hp. }
  unfold Staggered.define_geometry. cbv zeta.
  rewrite !Hgrid. reflexivity.
Qed.

End UniformGeometry.

Lemma point_example_computed (xg yg : Qc) :
  Staggered.define_geometry_point cfg22 (Qc_of_Z 2) pi_example sin_example
    cos_example xg yg = Some point_example.
Proof.
  change (Staggered.define_geometry_point cfg22 (Qc_of_Z 2) pi_example
            sin_example cos_example xg yg)
    with (Staggered.define_geometry_point cfg22 (Qc_of_Z 2) pi_example
            sin_example cos_example 0%Qc 0%Qc).
  unfold point_example.
  destruct (Staggered.define_geometry_point cfg22 (Qc_of_Z 2) pi_example
              sin_example cos_example 0%Qc 0%Qc) as [p|] eqn:Hp; [reflexivity|].
  apply define_geometry_point_None in Hp.
  apply (f_equal this) in Hp. vm_compute in Hp. discriminate Hp.
Qed.

Lemma geometry_example :
  Staggered.define_geometry cfg22 (Qc_of_Z 2) pi_example sin_example cos_example
    (λ _, (zeros2 3 3, zeros2 3 3))
  = Some (uniform_geometry cfg22 point_example).
Proof. apply define_geometry_uniform. apply point_example_computed. Qed.

(** X9.  When [define_geometry] returns, at every point of every grid the
    stored [j_X] is the determinant of the inverse Jacobian there and is not
    0, the stored [J_X] is its reciprocal ([J_X * j_X = 1]), and the stored
    Jacobian entries [J11_X .. J33_X] are the matrix inverse of the stored
    inverse Jacobian entries [j11_X .. j33_X]. *)
Theorem stored_jacobian_inverts (cfg : config) (eps np_pi : Qc)
    (np_sin np_cos : Qc → Qc) (phys : grid → arr2 * arr2)
    (geo : Staggered.geometry) (X : grid) (i j : nat) :
  Staggered.define_geometry cfg eps np_pi np_sin np_cos phys = Some geo →
  i < rows cfg X → j < cols cfg X →
  at2 (Staggered.jdet_ geo X) i j
    = inverse_jacobian_det cfg eps np_pi np_sin np_cos phys X i j
  ∧ at2 (Staggered.jdet_ geo X) i j ≠ 0%Qc
  ∧ (at2 (Staggered.Jdet_ geo X) i j * at2 (Staggered.jdet_ geo X) i j = 1)%Qc
  ∧ ∀ a b, 1 ≤ a ≤ 3 → 1 ≤ b ≤ 3 →
      (at2 (Staggered.J_ geo a 1 X) i j * at2 (Staggered.j_ geo 1 b X) i j
       + at2 (Staggered.J_ geo a 2 X) i j * at2 (Staggered.j_ geo 2 b X) i j
       + at2 (Staggered.J_ geo a 3 X) i j * at2 (Staggered.j_ geo 3 b X) i j
       = at2 Staggered.identity3 (a - 1) (b - 1))%Qc.
Proof.
  intros Hgeo Hi Hj.
  destruct (define_geometry_Some _ _ _ _ _ _ _ X i j Hgeo Hi Hj)
    as (_ & row & p & Hrow & _ & Hp & Hpt).
  apply define_geometry_point_Some in Hpt as (Hj1 & Hj2 & Hj3 & Hmm & _ & _).
  unfold Staggered.jdet_, Staggered.Jdet_, Staggered.J_, Staggered.j_.
  rewrite !(at2_point _ _ _ _ _ _ Hrow Hp).
  split; [exact Hj1|]. split; [exact Hj2|]. split; [exact Hj3|].
  intros a b Ha Hb.
  rewrite !(at2_entry _ _ _ _ _ _ _ _ Hrow Hp).
  apply (Hmm (a - 1) (b - 1)); lia.
Qed.

Lemma stored_jacobian_inverts_witness :
  at2 (Staggered.jdet_ (uniform_geometry cfg22 point_example) C) 0 0
    = inverse_jacobian_det cfg22 (Qc_of_Z 2) pi_example sin_example cos_example
        (λ _, (zeros2 3 3, zeros2 3 3)) C 0 0
  ∧ at2 (Staggered.jdet_ (uniform_geometry cfg22 point_example) C) 0 0 ≠ 0%Qc
  ∧ (at2 (Staggered.Jdet_ (uniform_geometry cfg22 point_example) C) 0 0
     * at2 (Staggered.jdet_ (uniform_geometry cfg22 point_example) C) 0 0 = 1)%Qc
  ∧ ∀ a b, 1 ≤ a ≤ 3 → 1 ≤ b ≤ 3 →
      (at2 (Staggered.J_ (uniform_geometry cfg22 point_example) a 1 C) 0 0
         * at2 (Staggered.j_ (uniform_geometry cfg22 point_example) 1 b C) 0 0
       + at2 (Staggered.J_ (uniform_geometry cfg22 point_example) a 2 C) 0 0
         * at2 (Staggered.j_ (uniform_geometry cfg22 point_example) 2 b C) 0 0
       + at2 (Staggered.J_ (uniform_geometry cfg22 point_example) a 3 C) 0 0
         * at2 (Staggered.j_ (uniform_geometry cfg22 point_example) 3 b C) 0 0
       = at2 Staggered.identity3 (a - 1) (b - 1))%Qc.
Proof.
  apply (stored_jacobian_inverts cfg22 (Qc_of_Z 2) pi_example sin_example
           cos_example (λ _, (zeros2 3 3, zeros2 3 3))
           (uniform_geometry cfg22 point_example) C 0 0).
  - exact geometry_example.
  - vm_compute. lia.
  - vm_compute. lia.
Defined.

(** X10.  The metric that [define_geometry] stores is symmetric
    ([g12_X = g21_X] and so on) and its determinant is the square of the
    stored Jacobian determinant [J_X], at every point of every grid. *)
Theorem stored_metric_symmetric (cfg : config) (eps np_pi : Qc)
    (np_sin np_cos : Qc → Qc) (phys : grid → arr2 * arr2)
    (geo : Staggered.geometry) (X : grid) (i j : nat) :
  Staggered.define_geometry cfg eps np_pi np_sin np_cos phys = Some geo →
  i < rows cfg X → j < cols cfg X →
  (∀ a b, 1 ≤ a ≤ 3 → 1 ≤ b ≤ 3 →
     at2 (Staggered.g_ geo a b X) i j = at2 (Staggered.g_ geo b a X) i j)
  ∧ (Staggered.np_linalg_det (metric_at geo X i j)
     = at2 (Staggered.Jdet_ geo X) i j * at2 (Staggered.Jdet_ geo X) i j)%Qc.
Proof.
  intros Hgeo Hi Hj.
  destruct (define_geometry_Some _ _ _ _ _ _ _ X i j Hgeo Hi Hj)
    as (_ & row & p & Hrow & _ & Hp & Hpt).
  apply define_geometry_point_Some in Hpt as (_ & _ & _ & _ & Hsym & Hdet).
  unfold Staggered.Jdet_, Staggered.g_.
  rewrite !(at2_point _ _ _ _ _ _ Hrow Hp). split.
  - intros a b Ha Hb. rewrite !(at2_entry _ _ _ _ _ _ _ _ Hrow Hp).
    apply Hsym; lia.
  - rewrite <- Hdet. unfold Staggered.np_linalg_det, metric_at, Staggered.g_.
    rewrite !at2_tab2 by lia.
    rewrite !(at2_entry _ _ _ _ _ _ _ _ Hrow Hp). reflexivity.
Qed.

Lemma stored_metric_symmetric_witness :
  (∀ a b, 1 ≤ a ≤ 3 → 1 ≤ b ≤ 3 →
     at2 (Staggered.g_ (uniform_geometry cfg22 point_example) a b N) 2 1
     = at2 (Staggered.g_ (uniform_geometry cfg22 point_example) b a N) 2 1)
  ∧ (Staggered.np_linalg_det (metric_at (uniform_geometry cfg22 point_example) N 2 1)
     = at2 (Staggered.Jdet_ (uniform_geometry cfg22 point_example) N) 2 1
       * at2 (Staggered.Jdet_ (uniform_geometry cfg22 point_example) N) 2 1)%Qc.
Proof.
  apply (stored_metric_symmetric cfg22 (Qc_of_Z 2) pi_example sin_example
           cos_example (λ _, (zeros2 3 3, zeros2 3 3))
           (uniform_geometry cfg22 point_example) N 2 1).
  - exact geometry_example.
  - vm_compute. lia.
  - vm_compute. lia.
Defined.

Local Close Scope Qc_scope.
Local Open Scope nat_scope.

(** * The unperturbed geometry *)

Ltac qc_closed := apply Qc_is_canon; vm_compute; reflexivity.

Lemma np_linalg_det_identity3 : Staggered.np_linalg_det Staggered.identity3 = 1%Qc.
Proof. qc_closed. Qed.

Lemma np_linalg_inv_identity3 :
  Staggered.np_linalg_inv Staggered.identity3 = Some Staggered.identity3.
Proof.
  unfold Staggered.np_linalg_inv. cbv zeta.
  rewrite np_linalg_det_identity3.
  destruct (decide (1%Qc = 0%Qc)) as [H|_]; [discriminate H|].
  unfold Staggered.identity3, at2, nth0, row_of. simpl.
  repeat f_equal; qc_closed.
Qed.

Section Unperturbed.
Context (cfg : config) (np_pi : Qc) (np_sin np_cos : Qc → Qc).

Lemma inverse_jacobian_unperturbed xg yg :
  Staggered.perturbed_inverse_jacobian_elements cfg 0%Qc np_pi np_sin np_cos xg yg
  = Staggered.identity3.
Proof.
  unfold Staggered.perturbed_inverse_jacobian_elements, Staggered.identity3.
  cbv zeta. repeat f_equal; unfold Qcdiv; ring.
Qed.

Lemma define_geometry_point_unperturbed xg yg :
  Staggered.define_geometry_point cfg 0%Qc np_pi np_sin np_cos xg yg
  = Some (Staggered.PointGeometry Staggered.identity3 Staggered.identity3 1 1
            Staggered.identity3).
Proof.
  unfold Staggered.define_geometry_point. cbv zeta.
  rewrite inverse_jacobian_unperturbed, np_linalg_inv_identity3. simpl.
  rewrite np_linalg_det_identity3.
  do 2 f_equal.
Qed.

End Unperturbed.

(** With [eps = 0] the particle map adds 0 to every position. *)
Lemma unperturbed_particle_map cfg np_pi np_sin (cartx carty : vec) :
  length cartx = length carty →
  Staggered.cartesian_to_general_particle cfg 0%Qc np_pi np_sin cartx carty
  = (cartx, carty).
Proof.
  intros Hlen. unfold Staggered.cartesian_to_general_particle. cbv zeta.
  assert (∀ a b : vec, length a = length b →
    vadd a (zip_with (λ cx cy, (0 * np_sin (2 * np_pi * cx / Lx cfg)
                                  * np_sin (2 * np_pi * cy / Ly cfg))%Qc) a b) = a
    ∧ vadd b (zip_with (λ cx cy, (0 * np_sin (2 * np_pi * cx / Lx cfg)
                                  * np_sin (2 * np_pi * cy / Ly cfg))%Qc) a b) = b)
    as Hzip.
  { clear. unfold vadd. induction a as [|x a IH]; intros [|y b] Hl;
      simpl in *; try done.
    destruct (IH b) as [Ha Hb]; [lia|]. rewrite Ha, Hb.
    split; f_equal; ring. }
  destruct (Hzip cartx carty Hlen) as [-> ->]. reflexivity.
Qed.

(** X11.  With [eps = 0] the perturbed solver has the flat geometry:
    [define_geometry] never raises and stores identity matrices and unit
    determinants at every point of every grid, whatever the physical
    coordinates, and [cartesian_to_general_particle] leaves particle
    positions unchanged. *)
Theorem unperturbed_geometry_is_identity (cfg : config) (np_pi : Qc)
    (np_sin np_cos : Qc → Qc) (phys : grid → arr2 * arr2) (cartx carty : vec) :
  length cartx = length carty →
  (∃ geo, Staggered.define_geometry cfg 0%Qc np_pi np_sin np_cos phys = Some geo
          ∧ ∀ X, geo X = Staggered.identity_geometry cfg X)
  ∧ Staggered.cartesian_to_general_particle cfg 0%Qc np_pi np_sin cartx carty
    = (cartx, carty).
Proof.
  intros Hlen. split.
  - eexists. split.
    + apply define_geometry_uniform. apply define_geometry_point_unperturbed.
    + intros X. destruct X; reflexivity.
  - by apply unperturbed_particle_map.
Qed.

Lemma unperturbed_geometry_is_identity_witness :
  (∃ geo, Staggered.define_geometry cfg22 0%Qc pi_example sin_example cos_example
            (λ _, (zeros2 3 3, zeros2 3 3)) = Some geo
          ∧ ∀ X, geo X = Staggered.identity_geometry cfg22 X)
  ∧ Staggered.cartesian_to_general_particle cfg22 0%Qc pi_example sin_example
      [1%Qc] [0%Qc]
    = ([1%Qc], [0%Qc]).
Proof.
  apply (unperturbed_geometry_is_identity cfg22 pi_example sin_example cos_example
           (λ _, (zeros2 3 3, zeros2 3 3)) [1%Qc] [0%Qc]).
  reflexivity.
Defined.

Local Close Scope Qc_scope.
Local Open Scope nat_scope.

(** * The sign of the Jacobian determinant *)

Lemma reciprocal_negative (a b : Qc) : (a * b = 1)%Qc → (b < 0)%Qc → (a < 0)%Qc.
Proof. intros H Hb. toQ. nra. Qed.

Local Close Scope Qc_scope.
Local Open Scope nat_scope.

(** * The residual and the main cycle of the flat-grid solver *)

(** ** Lengths of one-dimensional results *)

Lemma length_vadd (a b : vec) : length (vadd a b) = length a `min` length b.
Proof. apply length_zip_with. Qed.
Lemma length_vmul (a b : vec) : length (vmul a b) = length a `min` length b.
Proof. apply length_zip_with. Qed.
Lemma length_vdiv (a b : vec) : length (vdiv a b) = length a `min` length b.
Proof. apply length_zip_with. Qed.
Lemma length_vdivs (a : vec) k : length (vdivs a k) = length a.
Proof. apply length_fmap. Qed.
Lemma length_vmuls (a : vec) k : length (vmuls a k) = length a.
Proof. apply length_fmap. Qed.
Lemma length_vmod (a : vec) L : length (vmod a L) = length a.
Proof. apply length_fmap. Qed.
Lemma length_ones n : length (ones n) = n.
Proof. apply length_replicate. Qed.

Ltac lengths :=
  repeat first
    [ rewrite length_vsub | rewrite length_vadd | rewrite length_vmul
    | rewrite length_vdiv | rewrite length_vdivs | rewrite length_vmuls
    | rewrite length_vmod | rewrite length_ones ];
  lia.

(** The exact remainders of two position arrays lie in the particle domain. *)
Lemma vmod_in_domain cfg (a b : vec) :
  (0 < Lx cfg)%Qc → (0 < Ly cfg)%Qc →
  length a = npart cfg → length b = npart cfg →
  particles_in_domain cfg (vmod a (Lx cfg)) (vmod b (Ly cfg)).
Proof.
  intros HLx HLy Ha Hb. split; [by rewrite length_vmod|].
  split; [by rewrite length_vmod|].
  intros i xi yi Hxi Hyi. unfold vmod in *.
  rewrite list_lookup_fmap in Hxi, Hyi.
  destruct (a !! i) as [ai|]; [|done]. destruct (b !! i) as [bi|]; [|done].
  simpl in Hxi, Hyi. injection Hxi as <-. injection Hyi as <-.
  destruct (fmod_range ai (Lx cfg) HLx) as [H1 H2].
  destruct (fmod_range bi (Ly cfg) HLy) as [H3 H4].
  unfold in_domain. split; [exact H1|]. split; [exact H2|].
  split; [exact H3|exact H4].
Qed.

Section Shapes.
Context (cfg : config).
Hypothesis Hx : 1 ≤ nxc cfg.
Hypothesis Hy : 1 ≤ nyc cfg.

Ltac shapes :=
  repeat first
    [ assumption
    | apply shape2_add2 | apply shape2_sub2 | apply shape2_mul2
    | apply shape2_div2 | apply shape2_neg2 | apply shape2_scale2
    | apply shape2_divs2
    | match goal with
      | |- shape2 _ _ (dirder _ ?f ?t) => apply (dirder_shape cfg f t Hx Hy)
      | |- shape2 _ _ (avg _ ?f ?t) => apply (avg_shape cfg f t Hx Hy)
      | |- on_grid _ _ (dirder _ ?f ?t) => apply (dirder_shape cfg f t Hx Hy)
      | |- on_grid _ _ (avg _ ?f ?t) => apply (avg_shape cfg f t Hx Hy)
      end
    | progress (unfold on_grid; cbn [src_grid dst_grid grid_shape fst snd]) ].

(** The curl of a field of one type is a field of the other type. *)
Lemma curl_on m fieldx fieldy fieldz fieldtype :
  metric_ok cfg m → field_on cfg fieldtype fieldx fieldy fieldz →
  field_on cfg (dual_type fieldtype)
    (curl cfg m fieldx fieldy fieldz fieldtype).1.1
    (curl cfg m fieldx fieldy fieldz fieldtype).1.2
    (curl cfg m fieldx fieldy fieldz fieldtype).2.
Proof.
  intros Hm (Hfx & Hfy & Hfz). unfold metric_ok, metric_arrays in Hm.
  repeat (apply list.Forall_cons in Hm as [? Hm]). clear Hm.
  unfold field_on, on_grid in *.
  cbn [fst snd grid_shape] in *.
  unfold curl.
  destruct fieldtype; cbn [dual_type field_grids fst snd grid_shape] in *;
    (split; [|split]); shapes.
Qed.

End Shapes.

Lemma seq_below n : Forall (λ i, i < n) (seq 0 n).
Proof. apply Forall_lookup. intros i k Hk. apply lookup_seq in Hk. lia. Qed.

Section Residual.
Context (cfg : config).
Hypothesis Hnx : 1 ≤ nx cfg.
Hypothesis Hny : 1 ≤ ny cfg.
Hypothesis HLx : (0 < Lx cfg)%Qc.
Hypothesis HLy : (0 < Ly cfg)%Qc.

(** With exact remainders and quotients the residual returns on every vector
    of the Krylov length. *)
Lemma residual_total m st xk :
  metric_ok cfg m → state_ok cfg st → length xk = krylov_len cfg →
  ∃ yk, residual cfg m st xk = Some yk ∧ length yk = krylov_len cfg.
Proof.
  intros Hm (HE & HB & Hlen) Hxk.
  repeat (apply list.Forall_cons in Hlen as [? Hlen]). clear Hlen.
  cbv beta in *.
  destruct HE as (HEx & HEy & HEz). destruct HB as (HBx & HBy & HBz).
  cbn [field_grids fst snd] in *.
  destruct (krylov_pieces cfg xk Hxk)
    as (pa & pb & pc & pu & pv & pw & -> & La & Lb & Lc & Lu & Lv & Lw).
  unfold residual. rewrite krylov_to_phys_pieces by done.
  pose proof (shape2_reshape2 _ _ pa La) as Sa.
  pose proof (shape2_reshape2 _ _ pb Lb) as Sb.
  pose proof (shape2_reshape2 _ _ pc Lc) as Sc.
  set (Exnew := reshape2 _ _ pa) in *.
  set (Eynew := reshape2 _ _ pb) in *.
  set (Eznew := reshape2 _ _ pc) in *.
  cbv beta iota zeta.
  set (gbar := ones (npart cfg)).
  set (ubar := vdivs (vadd (u st) pu) 2).
  set (vbar := vdivs (vadd (v st) pv) 2).
  set (wbar := vdivs (vadd (w st) pw) 2).
  assert (length gbar = npart cfg) as Lg by apply length_ones.
  assert (length ubar = npart cfg) as Lub by (subst ubar; lengths).
  assert (length vbar = npart cfg) as Lvb by (subst vbar; lengths).
  assert (length wbar = npart cfg) as Lwb by (subst wbar; lengths).
  match goal with |- context [particle_to_grid_J cfg ?a ?b _ _ _ _] =>
    set (xbar := a); set (ybar := b) end.
  assert (particles_in_domain cfg xbar ybar) as Hdom.
  { apply vmod_in_domain; [done|done| |]; lengths. }
  destruct (particle_to_grid_J_in_total cfg Hnx Hny HLx HLy (seq 0 (npart cfg))
              xbar ybar (vdiv ubar gbar) (vdiv vbar gbar) (vdiv wbar gbar) (q st))
    as ([[Jx Jy] Jz] & HJ & HJx & HJy & HJz);
    [exact Hdom|lengths|lengths|lengths|lia|apply seq_below|].
  cbn [fst snd] in HJx, HJy, HJz.
  unfold particle_to_grid_J. rewrite HJ. cbn [mbind option_bind].
  set (Exbar := divs2 (add2 Exnew (Ex st)) 2).
  set (Eybar := divs2 (add2 Eynew (Ey st)) 2).
  set (Ezbar := divs2 (add2 Eznew (Ez st)) 2).
  assert (field_on cfg E Exbar Eybar Ezbar) as HEbar.
  { split; [|split]; cbn [field_grids fst snd];
      apply shape2_divs2, shape2_add2; assumption. }
  pose proof (curl_on cfg Hnx Hny m _ _ _ E Hm HEbar) as HcE.
  destruct (curl cfg m Exbar Eybar Ezbar E) as [[cEx cEy] cEz].
  destruct HcE as (HcEx & HcEy & HcEz). cbn [dual_type field_grids fst snd] in *.
  set (Bxbar := sub2 (Bx st) (scale2 (dt cfg / 2) cEx)).
  set (Bybar := sub2 (By st) (scale2 (dt cfg / 2) cEy)).
  set (Bzbar := sub2 (Bz st) (scale2 (dt cfg / 2) cEz)).
  assert (field_on cfg B Bxbar Bybar Bzbar) as HBbar.
  { split; [|split]; cbn [field_grids fst snd];
      apply shape2_sub2; try assumption; apply shape2_scale2; assumption. }
  pose proof (curl_on cfg Hnx Hny m _ _ _ B Hm HBbar) as HcB.
  destruct (curl cfg m Bxbar Bybar Bzbar B) as [[cBx cBy] cBz].
  destruct HcB as (HcBx & HcBy & HcBz). cbn [dual_type field_grids fst snd] in *.
  destruct HEbar as (HExb & HEyb & HEzb). destruct HBbar as (HBxb & HByb & HBzb).
  cbn [field_grids fst snd] in *.
  destruct (grid_to_particle_total cfg Hnx Hny HLx HLy xbar ybar Exbar LR HExb Hdom)
    as (Exp & -> & LExp).
  destruct (grid_to_particle_total cfg Hnx Hny HLx HLy xbar ybar Eybar UD HEyb Hdom)
    as (Eyp & -> & LEyp).
  destruct (grid_to_particle_total cfg Hnx Hny HLx HLy xbar ybar Ezbar C HEzb Hdom)
    as (Ezp & -> & LEzp).
  destruct (grid_to_particle_total cfg Hnx Hny HLx HLy xbar ybar Bxbar UD HBxb Hdom)
    as (Bxp & -> & LBxp).
  destruct (grid_to_particle_total cfg Hnx Hny HLx HLy xbar ybar Bybar LR HByb Hdom)
    as (Byp & -> & LByp).
  destruct (grid_to_particle_total cfg Hnx Hny HLx HLy xbar ybar Bzbar N HBzb Hdom)
    as (Bzp & -> & LBzp).
  cbn [mbind option_bind].
  eexists. split; [reflexivity|].
  apply length_phys_to_krylov.
  - unfold on_grid. cbn [grid_shape fst snd].
    apply shape2_add2; [apply shape2_sub2; [apply shape2_sub2|apply shape2_scale2]
                       |apply shape2_scale2]; assumption.
  - unfold on_grid. cbn [grid_shape fst snd].
    apply shape2_add2; [apply shape2_sub2; [apply shape2_sub2|apply shape2_scale2]
                       |apply shape2_scale2]; assumption.
  - unfold on_grid. cbn [grid_shape fst snd].
    apply shape2_add2; [apply shape2_sub2; [apply shape2_sub2|apply shape2_scale2]
                       |apply shape2_scale2]; assumption.
  - lengths.
  - lengths.
  - lengths.
Qed.

End Residual.

(** The Picard loop on iterates of a fixed length [n]: if the residual
    returns a vector of length [n] on every vector of length [n], the loop
    returns an iterate of length [n]. *)
Lemma picard_loop_on_length (tol : Qc) (kmax : nat) (res : vec → option vec)
    (n fuel k : nat) (err2 : Qc) (xk : vec) :
  (∀ y, length y = n → ∃ r, res y = Some r ∧ length r = n) →
  length xk = n → kmax + 2 ≤ fuel + k →
  ∃ k' err2' xk', picard_loop tol kmax res fuel k err2 xk = Some (k', err2', xk')
                  ∧ length xk' = n.
Proof.
  intros Hres. revert k err2 xk.
  induction fuel as [|fuel IH]; intros k err2 xk Hxk Hf; simpl.
  - destruct (exceeds err2 tol); simpl; [|eauto 6].
    case_bool_decide; [lia|eauto 6].
  - destruct (exceeds err2 tol); simpl; [|eauto 6].
    case_bool_decide; [|eauto 6].
    destruct (Hres xk Hxk) as (r & -> & Hr). simpl.
    apply IH; [|lia]. rewrite length_vsub. lia.
Qed.

Lemma flat_metric_ok cfg : metric_ok cfg (flat_metric cfg).
Proof.
  unfold metric_ok, metric_arrays, flat_metric, on_grid.
  cbn [J_UD J_LR J_c J_n g11e g12e g13e g21e g22e g23e g31e g32e g33e
       g11b g12b g13b g21b g22b g23b g31b g32b g33b].
  repeat (constructor; [first [apply shape2_zeros2 | apply shape2_ones2]|]).
  constructor.
Qed.

Lemma st22_ok : state_ok cfg22 st22.
Proof.
  split; [|split].
  - split; [apply shape2_zeros2|]. split; apply shape2_zeros2.
  - split; [apply shape2_zeros2|]. split; [apply shape2_zeros2|apply shape2_ones2].
  - repeat (constructor; [reflexivity|]). constructor.
Qed.

Lemma cfg22_Lx_pos : (0 < Lx cfg22)%Qc.
Proof. vm_compute. reflexivity. Qed.
Lemma cfg22_Ly_pos : (0 < Ly cfg22)%Qc.
Proof. vm_compute. reflexivity. Qed.

Section Cycle.
Context (cfg : config).
Hypothesis Hnx : 1 ≤ nx cfg.
Hypothesis Hny : 1 ≤ ny cfg.
Hypothesis HLx : (0 < Lx cfg)%Qc.
Hypothesis HLy : (0 < Ly cfg)%Qc.

(** With exact remainders and quotients a pass of the main cycle returns. *)
Lemma cycle_with_total tol kmax m st :
  metric_ok cfg m → state_ok cfg st →
  ∃ st', cycle_with cfg tol kmax m st = Some st'
    ∧ state_ok cfg st'
    ∧ particles_in_domain cfg (x st') (y st')
    ∧ q st' = q st ∧ QM st' = QM st.
Proof.
  intros Hm Hst. pose proof Hst as (HE & HB & Hlen).
  repeat (apply list.Forall_cons in Hlen as [? Hlen]). clear Hlen.
  cbv beta in *.
  destruct HE as (HEx & HEy & HEz). destruct HB as (HBx & HBy & HBz).
  cbn [field_grids fst snd] in *.
  unfold cycle_with, picard_with.
  destruct (picard_loop_on_length tol kmax (residual cfg m st) (krylov_len cfg)
              (kmax + 2) 0 1%Qc
              (phys_to_krylov cfg (Ex st) (Ey st) (Ez st) (u st) (v st) (w st)))
    as (k & err2 & sol & -> & Hsol).
  { intros yk Hyk. by apply residual_total. }
  { by apply length_phys_to_krylov. }
  { lia. }
  cbn [mbind option_bind].
  destruct (krylov_pieces cfg sol Hsol)
    as (pa & pb & pc & pu & pv & pw & -> & La & Lb & Lc & Lu & Lv & Lw).
  rewrite krylov_to_phys_pieces by done.
  pose proof (shape2_reshape2 _ _ pa La) as Sa.
  pose proof (shape2_reshape2 _ _ pb Lb) as Sb.
  pose proof (shape2_reshape2 _ _ pc Lc) as Sc.
  set (Exnew := reshape2 _ _ pa) in *.
  set (Eynew := reshape2 _ _ pb) in *.
  set (Eznew := reshape2 _ _ pc) in *.
  cbv beta iota zeta.
  set (Exbar := divs2 (add2 Exnew (Ex st)) 2).
  set (Eybar := divs2 (add2 Eynew (Ey st)) 2).
  set (Ezbar := divs2 (add2 Eznew (Ez st)) 2).
  assert (field_on cfg E Exbar Eybar Ezbar) as HEbar.
  { split; [|split]; cbn [field_grids fst snd];
      apply shape2_divs2, shape2_add2; assumption. }
  pose proof (curl_on cfg Hnx Hny m _ _ _ E Hm HEbar) as HcE.
  destruct (curl cfg m Exbar Eybar Ezbar E) as [[cEx cEy] cEz].
  destruct HcE as (HcEx & HcEy & HcEz). cbn [dual_type field_grids fst snd] in *.
  eexists. split; [reflexivity|].
  unfold state_ok.
  cbn [Ex Ey Ez Bx By Bz x y u v w q QM].
  split; [|split; [|split; reflexivity]].
  - split; [|split].
    + split; [exact Sa|]. split; [exact Sb|exact Sc].
    + split; [|split]; cbn [field_grids fst snd];
        apply shape2_sub2; try assumption; apply shape2_scale2; assumption.
    + repeat (constructor; [cbv beta; first [assumption | lengths]|]). constructor.
  - apply vmod_in_domain; [done|done| |]; lengths.
Qed.

End Cycle.

Local Close Scope Qc_scope.
Local Open Scope nat_scope.

(** * The residual and the main cycle of the curvilinear solver *)

(** ** Shapes of the geometry arrays *)

Lemma shape2_point_map {A} (f : A → Qc) r c (tbl : list (list A)) :
  length tbl = r → Forall (λ row, length row = c) tbl →
  shape2 r c (fmap (M := list) f <$> tbl).
Proof.
  intros Hr Hc. split; [by rewrite length_fmap|].
  clear Hr. induction Hc as [|row tbl Hrow Hc IH]; simpl; constructor; [|done].
  by rewrite length_fmap.
Qed.

Section StaggeredShapes.
Context (cfg : config) (geo : Staggered.geometry).
Hypothesis Hx : 1 ≤ nxc cfg.
Hypothesis Hy : 1 ≤ nyc cfg.
Hypothesis Hgeo : geometry_ok cfg geo.

Lemma g_on a b X : on_grid cfg X (Staggered.g_ geo a b X).
Proof. destruct (Hgeo X). by apply shape2_point_map. Qed.
Lemma J_on a b X : on_grid cfg X (Staggered.J_ geo a b X).
Proof. destruct (Hgeo X). by apply shape2_point_map. Qed.
Lemma j_on a b X : on_grid cfg X (Staggered.j_ geo a b X).
Proof. destruct (Hgeo X). by apply shape2_point_map. Qed.
Lemma Jdet_on X : on_grid cfg X (Staggered.Jdet_ geo X).
Proof. destruct (Hgeo X). by apply shape2_point_map. Qed.

Ltac shapes :=
  repeat first
    [ assumption
    | apply shape2_add2 | apply shape2_sub2 | apply shape2_mul2
    | apply shape2_div2 | apply shape2_neg2 | apply shape2_scale2
    | apply shape2_divs2
    | match goal with
      | |- shape2 _ _ (dirder _ ?f ?t) => apply (dirder_shape cfg f t Hx Hy)
      | |- shape2 _ _ (avg _ ?f ?t) => apply (avg_shape cfg f t Hx Hy)
      | |- on_grid _ _ (dirder _ ?f ?t) => apply (dirder_shape cfg f t Hx Hy)
      | |- on_grid _ _ (avg _ ?f ?t) => apply (avg_shape cfg f t Hx Hy)
      | |- shape2 _ _ (Staggered.g_ _ ?a ?b ?X) => apply (g_on a b X)
      | |- shape2 _ _ (Staggered.J_ _ ?a ?b ?X) => apply (J_on a b X)
      | |- shape2 _ _ (Staggered.j_ _ ?a ?b ?X) => apply (j_on a b X)
      | |- shape2 _ _ (Staggered.Jdet_ _ ?X) => apply (Jdet_on X)
      end
    | progress (unfold on_grid; cbn [src_grid dst_grid grid_shape fst snd]) ].

Lemma staggered_curl_on fieldx fieldy fieldz fieldtype :
  field_on cfg fieldtype fieldx fieldy fieldz →
  field_on cfg (dual_type fieldtype)
    (Staggered.curl cfg geo fieldx fieldy fieldz fieldtype).1.1
    (Staggered.curl cfg geo fieldx fieldy fieldz fieldtype).1.2
    (Staggered.curl cfg geo fieldx fieldy fieldz fieldtype).2.
Proof.
  intros (Hfx & Hfy & Hfz). unfold field_on, on_grid in *.
  unfold Staggered.curl.
  destruct fieldtype; cbn [dual_type field_grids fst snd grid_shape] in *;
    (split; [|split]); shapes.
Qed.

Lemma cartesian_to_general_on cartx carty cartz fieldtype :
  field_on cfg fieldtype cartx carty cartz →
  field_on cfg fieldtype
    (Staggered.cartesian_to_general cfg geo cartx carty cartz fieldtype).1.1
    (Staggered.cartesian_to_general cfg geo cartx carty cartz fieldtype).1.2
    (Staggered.cartesian_to_general cfg geo cartx carty cartz fieldtype).2.
Proof.
  intros (Hfx & Hfy & Hfz). unfold field_on, on_grid in *.
  unfold Staggered.cartesian_to_general.
  destruct fieldtype; cbn [dual_type field_grids fst snd grid_shape] in *;
    (split; [|split]); shapes.
Qed.

Lemma general_to_cartesian_on genx1 genx2 genx3 fieldtype :
  field_on cfg fieldtype genx1 genx2 genx3 →
  field_on cfg fieldtype
    (Staggered.general_to_cartesian cfg geo genx1 genx2 genx3 fieldtype).1.1
    (Staggered.general_to_cartesian cfg geo genx1 genx2 genx3 fieldtype).1.2
    (Staggered.general_to_cartesian cfg geo genx1 genx2 genx3 fieldtype).2.
Proof.
  intros (Hfx & Hfy & Hfz). unfold field_on, on_grid in *.
  unfold Staggered.general_to_cartesian.
  destruct fieldtype; cbn [dual_type field_grids fst snd grid_shape] in *;
    (split; [|split]); shapes.
Qed.

End StaggeredShapes.

Section StaggeredCycle.
Context (cfg : config) (eps np_pi : Qc) (np_sin : Qc → Qc)
        (geo : Staggered.geometry).
Hypothesis Hnx : 1 ≤ nx cfg.
Hypothesis Hny : 1 ≤ ny cfg.
Hypothesis HLx : (0 < Lx cfg)%Qc.
Hypothesis HLy : (0 < Ly cfg)%Qc.
Hypothesis Hgeo : geometry_ok cfg geo.

(** With exact remainders and quotients, and without [perturb], the residual
    returns for particles in the domain, and so do a pass of the main cycle
    and the main cycle. *)
Lemma staggered_residual_total st xk :
  staggered_state_ok cfg st → length xk = krylov_len cfg →
  ∃ yk, Staggered.residual cfg eps np_pi np_sin geo false st xk = Some yk
        ∧ length yk = krylov_len cfg.
Proof.
  intros (HE & HB & Hlen & Hpos) Hxk.
  repeat (apply list.Forall_cons in Hlen as [? Hlen]). clear Hlen.
  cbv beta in *.
  destruct (krylov_pieces cfg xk Hxk)
    as (pa & pb & pc & pu & pv & pw & -> & La & Lb & Lc & Lu & Lv & Lw).
  unfold Staggered.residual. rewrite krylov_to_phys_pieces by done.
  pose proof (shape2_reshape2 _ _ pa La) as Sa.
  pose proof (shape2_reshape2 _ _ pb Lb) as Sb.
  pose proof (shape2_reshape2 _ _ pc Lc) as Sc.
  set (E1new := reshape2 _ _ pa) in *.
  set (E2new := reshape2 _ _ pb) in *.
  set (E3new := reshape2 _ _ pc) in *.
  cbv beta iota zeta.
  match goal with |- context [particle_to_grid_J cfg ?a ?b _ _ _ _] =>
    set (xbar := a); set (ybar := b) end.
  assert (particles_in_domain cfg xbar ybar) as Hdom.
  { apply vmod_in_domain; [done|done| |]; lengths. }
  destruct (particle_to_grid_J_in_total cfg Hnx Hny HLx HLy (seq 0 (npart cfg))
              xbar ybar pu pv pw (Staggered.q st))
    as ([[Jx Jy] Jz] & HJ & HJx & HJy & HJz);
    [exact Hdom|lia|lia|lia|lia|apply seq_below|].
  cbn [fst snd] in HJx, HJy, HJz.
  unfold particle_to_grid_J. rewrite HJ. cbn [mbind option_bind].
  assert (field_on cfg E Jx Jy Jz) as HJ3 by (split; [|split]; assumption).
  pose proof (cartesian_to_general_on cfg geo Hnx Hny Hgeo _ _ _ E HJ3) as HJg.
  destruct (Staggered.cartesian_to_general cfg geo Jx Jy Jz E) as [[J1 J2] J3].
  destruct HJg as (HJ1 & HJ2 & HJ3g). cbn [field_grids fst snd] in HJ1, HJ2, HJ3g.
  pose proof (staggered_curl_on cfg geo Hnx Hny Hgeo _ _ _ E HE) as HcE.
  destruct (Staggered.curl cfg geo (Staggered.E1 st) (Staggered.E2 st)
              (Staggered.E3 st) E) as [[cE1 cE2] cE3].
  destruct HcE as (HcE1 & HcE2 & HcE3).
  cbn [dual_type field_grids fst snd] in HcE1, HcE2, HcE3.
  destruct HE as (HE1 & HE2 & HE3). destruct HB as (HB1 & HB2 & HB3).
  cbn [field_grids fst snd] in HE1, HE2, HE3, HB1, HB2, HB3.
  set (B1new := sub2 (Staggered.B1 st) (scale2 (dt cfg) cE1)).
  set (B2new := sub2 (Staggered.B2 st) (scale2 (dt cfg) cE2)).
  set (B3new := sub2 (Staggered.B3 st) (scale2 (dt cfg) cE3)).
  assert (field_on cfg B B1new B2new B3new) as HBnew.
  { split; [|split]; cbn [field_grids fst snd];
      apply shape2_sub2; try assumption; apply shape2_scale2; assumption. }
  pose proof (staggered_curl_on cfg geo Hnx Hny Hgeo _ _ _ B HBnew) as HcB.
  destruct (Staggered.curl cfg geo B1new B2new B3new B) as [[cB1 cB2] cB3].
  destruct HcB as (HcB1 & HcB2 & HcB3).
  cbn [dual_type field_grids fst snd] in HcB1, HcB2, HcB3.
  assert (field_on cfg E (Staggered.E1 st) (Staggered.E2 st) (Staggered.E3 st))
    as HE by (split; [|split]; assumption).
  pose proof (general_to_cartesian_on cfg geo Hnx Hny Hgeo _ _ _ E HE) as HEc.
  destruct (Staggered.general_to_cartesian cfg geo (Staggered.E1 st)
              (Staggered.E2 st) (Staggered.E3 st) E) as [[Ex Ey] Ez].
  destruct HEc as (HEx & HEy & HEz). cbn [field_grids fst snd] in HEx, HEy, HEz.
  destruct HBnew as (HB1n & HB2n & HB3n).
  cbn [field_grids fst snd] in HB1n, HB2n, HB3n.
  set (B1bar := divs2 (add2 B1new (Staggered.B1 st)) 2).
  set (B2bar := divs2 (add2 B2new (Staggered.B2 st)) 2).
  set (B3bar := divs2 (add2 B3new (Staggered.B3 st)) 2).
  assert (field_on cfg B B1bar B2bar B3bar) as HBbar.
  { split; [|split]; cbn [field_grids fst snd];
      apply shape2_divs2, shape2_add2; assumption. }
  pose proof (general_to_cartesian_on cfg geo Hnx Hny Hgeo _ _ _ B HBbar) as HBc.
  destruct (Staggered.general_to_cartesian cfg geo B1bar B2bar B3bar B)
    as [[Bx By] Bz].
  destruct HBc as (HBx & HBy & HBz). cbn [field_grids fst snd] in HBx, HBy, HBz.
  destruct (grid_to_particle_total cfg Hnx Hny HLx HLy _ _ Ex LR HEx Hpos)
    as (Exp & -> & LExp).
  destruct (grid_to_particle_total cfg Hnx Hny HLx HLy _ _ Ey UD HEy Hpos)
    as (Eyp & -> & LEyp).
  destruct (grid_to_particle_total cfg Hnx Hny HLx HLy _ _ Ez C HEz Hpos)
    as (Ezp & -> & LEzp).
  destruct (grid_to_particle_total cfg Hnx Hny HLx HLy _ _ Bx UD HBx Hpos)
    as (Bxp & -> & LBxp).
  destruct (grid_to_particle_total cfg Hnx Hny HLx HLy _ _ By LR HBy Hpos)
    as (Byp & -> & LByp).
  destruct (grid_to_particle_total cfg Hnx Hny HLx HLy _ _ Bz N HBz Hpos)
    as (Bzp & -> & LBzp).
  cbn [mbind option_bind].
  eexists. split; [reflexivity|].
  apply length_phys_to_krylov.
  - unfold on_grid. cbn [grid_shape fst snd].
    apply shape2_add2; [apply shape2_sub2; [apply shape2_sub2|apply shape2_scale2]
                       |apply shape2_scale2]; assumption.
  - unfold on_grid. cbn [grid_shape fst snd].
    apply shape2_add2; [apply shape2_sub2; [apply shape2_sub2|apply shape2_scale2]
                       |apply shape2_scale2]; assumption.
  - unfold on_grid. cbn [grid_shape fst snd].
    apply shape2_add2; [apply shape2_sub2; [apply shape2_sub2|apply shape2_scale2]
                       |apply shape2_scale2]; assumption.
  - lengths.
  - lengths.
  - lengths.
Qed.

Lemma staggered_cycle_total tol kmax st :
  staggered_state_ok cfg st →
  ∃ st', Staggered.cycle_with cfg eps np_pi np_sin geo tol kmax false st = Some st'
    ∧ staggered_state_ok cfg st'
    ∧ Staggered.q st' = Staggered.q st ∧ Staggered.QM st' = Staggered.QM st.
Proof.
  intros Hst. pose proof Hst as (HE & HB & Hlen & Hpos).
  repeat (apply list.Forall_cons in Hlen as [? Hlen]). clear Hlen.
  cbv beta in *.
  unfold Staggered.cycle_with, picard_with.
  destruct (picard_loop_on_length tol kmax
              (Staggered.residual cfg eps np_pi np_sin geo false st)
              (krylov_len cfg) (kmax + 2) 0 1%Qc
              (phys_to_krylov cfg (Staggered.E1 st) (Staggered.E2 st)
                 (Staggered.E3 st) (Staggered.u st) (Staggered.v st)
                 (Staggered.w st)))
    as (k & err2 & sol & -> & Hsol).
  { intros yk Hyk. by apply staggered_residual_total. }
  { destruct HE as (? & ? & ?). by apply length_phys_to_krylov. }
  { lia. }
  cbn [mbind option_bind].
  destruct (krylov_pieces cfg sol Hsol)
    as (pa & pb & pc & pu & pv & pw & -> & La & Lb & Lc & Lu & Lv & Lw).
  rewrite krylov_to_phys_pieces by done.
  pose proof (shape2_reshape2 _ _ pa La) as Sa.
  pose proof (shape2_reshape2 _ _ pb Lb) as Sb.
  pose proof (shape2_reshape2 _ _ pc Lc) as Sc.
  set (E1new := reshape2 _ _ pa) in *.
  set (E2new := reshape2 _ _ pb) in *.
  set (E3new := reshape2 _ _ pc) in *.
  cbv beta iota zeta.
  pose proof (staggered_curl_on cfg geo Hnx Hny Hgeo _ _ _ E HE) as HcE.
  destruct (Staggered.curl cfg geo (Staggered.E1 st) (Staggered.E2 st)
              (Staggered.E3 st) E) as [[cE1 cE2] cE3].
  destruct HcE as (HcE1 & HcE2 & HcE3).
  cbn [dual_type field_grids fst snd] in HcE1, HcE2, HcE3.
  destruct HB as (HB1 & HB2 & HB3). cbn [field_grids fst snd] in HB1, HB2, HB3.
  eexists. split; [reflexivity|].
  unfold staggered_state_ok.
  cbn [Staggered.E1 Staggered.E2 Staggered.E3 Staggered.B1 Staggered.B2
       Staggered.B3 Staggered.x Staggered.y Staggered.u Staggered.v Staggered.w
       Staggered.q Staggered.QM].
  split; [|split; reflexivity].
  split; [|split; [|split]].
  - split; [exact Sa|]. split; [exact Sb|exact Sc].
  - split; [|split]; cbn [field_grids fst snd];
      apply shape2_sub2; try assumption; apply shape2_scale2; assumption.
  - repeat (constructor; [cbv beta; first [assumption | lengths]|]). constructor.
  - apply vmod_in_domain; [done|done| |]; lengths.
Qed.

Lemma staggered_main_cycle_finishes nt it st :
  staggered_state_ok cfg st →
  ∃ st', Staggered.main_cycle cfg eps np_pi np_sin geo false nt it st
         = Staggered.Finished st'
    ∧ staggered_state_ok cfg st'
    ∧ Staggered.q st' = Staggered.q st ∧ Staggered.QM st' = Staggered.QM st.
Proof.
  revert it st. induction nt as [|nt IH]; intros it st Hst; simpl.
  - exists st. done.
  - destruct (staggered_cycle_total tol kmax st Hst) as (st1 & -> & Hst1 & Hq & HQM).
    destruct (IH (S it) st1 Hst1) as (st' & -> & Hst' & Hq' & HQM').
    exists st'. split; [reflexivity|]. split; [exact Hst'|].
    split; congruence.
Qed.

End StaggeredCycle.

Lemma identity_geometry_ok cfg : geometry_ok cfg (Staggered.identity_geometry cfg).
Proof.
  intros X. unfold Staggered.identity_geometry, rows, cols.
  split; [apply length_replicate|].
  apply Forall_replicate. apply length_replicate.
Qed.

Lemma staggered_st22_ok : staggered_state_ok cfg22 staggered_st22.
Proof.
  split; [|split; [|split]].
  - split; [apply shape2_zeros2|]. split; apply shape2_zeros2.
  - split; [apply shape2_zeros2|]. split; [apply shape2_zeros2|apply shape2_ones2].
  - repeat (constructor; [reflexivity|]). constructor.
  - split; [reflexivity|]. split; [reflexivity|].
    intros i xi yi Hxi Hyi. destruct i as [|i]; [|done].
    simpl in Hxi, Hyi. injection Hxi as <-. injection Hyi as <-.
    exact in_domain_example.
Qed.

Local Close Scope Qc_scope.
Local Open Scope nat_scope.

(** * The perturbed solver with [eps = 0] *)

(** The main cycle reads the geometry only through its four tables. *)
Lemma staggered_cycle_geometry cfg eps np_pi np_sin geo geo' tol kmax perturb st :
  (∀ X, geo X = geo' X) →
  Staggered.cycle_with cfg eps np_pi np_sin geo tol kmax perturb st
  = Staggered.cycle_with cfg eps np_pi np_sin geo' tol kmax perturb st.
Proof.
  intros H.
  unfold Staggered.cycle_with, Staggered.residual, Staggered.curl,
    Staggered.cartesian_to_general, Staggered.general_to_cartesian,
    Staggered.g_, Staggered.J_, Staggered.j_, Staggered.Jdet_.
  rewrite !(H LR), !(H UD), !(H C), !(H N). reflexivity.
Qed.

Lemma staggered_main_cycle_geometry cfg eps np_pi np_sin geo geo' perturb nt it st :
  (∀ X, geo X = geo' X) →
  Staggered.main_cycle cfg eps np_pi np_sin geo perturb nt it st
  = Staggered.main_cycle cfg eps np_pi np_sin geo' perturb nt it st.
Proof.
  intros H. revert it st. induction nt as [|nt IH]; intros it st; simpl; [done|].
  rewrite (staggered_cycle_geometry _ _ _ _ geo geo') by exact H.
  destruct (Staggered.cycle_with _ _ _ _ _ _ _ _ _); [apply IH|done].
Qed.

(** Two residual functions that agree and return on the iterates give the
    same Picard loop. *)
Lemma picard_loop_agree (tol : Qc) (kmax : nat) (res res' : vec → option vec)
    (n fuel k : nat) (err2 : Qc) (xk : vec) :
  (∀ y, length y = n → res y = res' y ∧ ∃ r, res' y = Some r ∧ length r = n) →
  length xk = n →
  picard_loop tol kmax res fuel k err2 xk
  = picard_loop tol kmax res' fuel k err2 xk.
Proof.
  intros Hres. revert k err2 xk.
  induction fuel as [|fuel IH]; intros k err2 xk Hxk; simpl; [done|].
  destruct (exceeds err2 tol && bool_decide (k ≤ kmax)); [|done].
  destruct (Hres xk Hxk) as (-> & r & -> & Hr). simpl.
  apply IH. rewrite length_vsub. lia.
Qed.

Section Unperturbed.
Context (cfg : config) (np_pi : Qc) (np_sin : Qc → Qc)
        (geo : Staggered.geometry).
Hypothesis Hnx : 1 ≤ nx cfg.
Hypothesis Hny : 1 ≤ ny cfg.
Hypothesis HLx : (0 < Lx cfg)%Qc.
Hypothesis HLy : (0 < Ly cfg)%Qc.
Hypothesis Hgeo : geometry_ok cfg geo.

Lemma residual_unperturbed st xk :
  staggered_state_ok cfg st → length xk = krylov_len cfg →
  Staggered.residual cfg 0%Qc np_pi np_sin geo true st xk
  = Staggered.residual cfg 0%Qc np_pi np_sin geo false st xk.
Proof.
  intros (_ & _ & Hlen & _) Hxk.
  repeat (apply list.Forall_cons in Hlen as [? Hlen]). clear Hlen.
  cbv beta in *.
  destruct (krylov_pieces cfg xk Hxk)
    as (pa & pb & pc & pu & pv & pw & -> & La & Lb & Lc & Lu & Lv & Lw).
  unfold Staggered.residual. rewrite krylov_to_phys_pieces by done.
  cbv beta iota zeta.
  rewrite !unperturbed_particle_map by lengths.
  reflexivity.
Qed.

Lemma cycle_unperturbed tol kmax st :
  staggered_state_ok cfg st →
  Staggered.cycle_with cfg 0%Qc np_pi np_sin geo tol kmax true st
  = Staggered.cycle_with cfg 0%Qc np_pi np_sin geo tol kmax false st.
Proof.
  intros Hst. unfold Staggered.cycle_with, picard_with.
  rewrite (picard_loop_agree tol kmax
             (Staggered.residual cfg 0%Qc np_pi np_sin geo true st)
             (Staggered.residual cfg 0%Qc np_pi np_sin geo false st)
             (krylov_len cfg)).
  - reflexivity.
  - intros yk Hyk. split; [by apply residual_unperturbed|].
    by apply staggered_residual_total.
  - destruct Hst as ((? & ? & ?) & _ & Hlen & _).
    repeat (apply list.Forall_cons in Hlen as [? Hlen]). clear Hlen.
    by apply length_phys_to_krylov.
Qed.

Lemma main_cycle_unperturbed nt it st :
  staggered_state_ok cfg st →
  Staggered.main_cycle cfg 0%Qc np_pi np_sin geo true nt it st
  = Staggered.main_cycle cfg 0%Qc np_pi np_sin geo false nt it st.
Proof.
  revert it st. induction nt as [|nt IH]; intros it st Hst; simpl; [done|].
  rewrite cycle_unperturbed by exact Hst.
  destruct (staggered_cycle_total cfg 0%Qc np_pi np_sin geo Hnx Hny HLx HLy Hgeo
              tol kmax st Hst) as (st1 & -> & Hst1 & _).
  by apply IH.
Qed.

End Unperturbed.

(** X16.  With [eps = 0] the flag [perturb] makes no difference: from a
    well-formed state the run with [perturb] set (geometry computed by
    [define_geometry], particle positions mapped by
    [cartesian_to_general_particle]) ends in the same outcome as the run
    without it. *)
Theorem zero_perturbation_run (cfg : config) (np_pi : Qc)
    (np_sin np_cos : Qc → Qc) (phys : grid → arr2 * arr2) (nt : nat)
    (st : Staggered.state) :
  1 ≤ nx cfg → 1 ≤ ny cfg → (0 < Lx cfg)%Qc → (0 < Ly cfg)%Qc →
  staggered_state_ok cfg st →
  Staggered.run cfg 0%Qc np_pi np_sin np_cos true phys nt st
  = Staggered.run cfg 0%Qc np_pi np_sin np_cos false phys nt st.
Proof.
  intros Hnx Hny HLx HLy Hst.
  unfold Staggered.run, Staggered.initialise_geometry.
  rewrite (define_geometry_uniform cfg 0%Qc np_pi np_sin np_cos phys
             (Staggered.PointGeometry Staggered.identity3 Staggered.identity3 1 1
                Staggered.identity3))
    by apply define_geometry_point_unperturbed.
  rewrite (staggered_main_cycle_geometry cfg 0%Qc np_pi np_sin _
             (Staggered.identity_geometry cfg))
    by (intros X; destruct X; reflexivity).
  apply main_cycle_unperturbed; try assumption.
  apply identity_geometry_ok.
Qed.

Lemma zero_perturbation_run_witness :
  Staggered.run cfg22 0%Qc pi_example sin_example cos_example true
    (λ _, (zeros2 3 3, zeros2 3 3)) 2 staggered_st22
  = Staggered.run cfg22 0%Qc pi_example sin_example cos_example false
    (λ _, (zeros2 3 3, zeros2 3 3)) 2 staggered_st22.
Proof.
  apply (zero_perturbation_run cfg22 pi_example sin_example cos_example
           (λ _, (zeros2 3 3, zeros2 3 3)) 2 staggered_st22).
  - simpl. lia.
  - simpl. lia.
  - exact cfg22_Lx_pos.
  - exact cfg22_Ly_pos.
  - exact staggered_st22_ok.
Defined.

Local Close Scope Qc_scope.
Local Open Scope nat_scope.

(** * Divergence and curl in a general geometry *)

Lemma at2_mul2 r c a b i j : shape2 r c a → shape2 r c b → i < r → j < c →
  at2 (mul2 a b) i j = (at2 a i j * at2 b i j)%Qc.
Proof. apply at2_zip. Qed.
Lemma at2_div2 r c a b i j : shape2 r c a → shape2 r c b → i < r → j < c →
  at2 (div2 a b) i j = (at2 a i j / at2 b i j)%Qc.
Proof. apply at2_zip. Qed.

(** [J * (a / J) = a] where [J] has no zero entry. *)
Lemma mul2_div2_cancel r c (a J : arr2) :
  shape2 r c a → shape2 r c J →
  (∀ i j, i < r → j < c → at2 J i j ≠ 0%Qc) →
  mul2 J (div2 a J) = a.
Proof.
  intros Ha HJ Hnz. apply (zip2_pointwise _ r c); [done|by apply shape2_div2|done|].
  intros i j Hi Hj. rewrite (at2_div2 r c) by done.
  field. by apply Hnz.
Qed.

Lemma div2_zeros2_l r c (J : arr2) :
  shape2 r c J → div2 (zeros2 r c) J = zeros2 r c.
Proof.
  intros HJ. apply (zip2_pointwise _ r c); auto using shape2_zeros2.
  intros i j Hi Hj. rewrite at2_zeros2 by done. unfold Qcdiv. ring.
Qed.

Lemma Qc_nonzero_of_product (a b : Qc) : (a * b = 1)%Qc → a ≠ 0%Qc.
Proof.
  intros H Ha. subst a.
  assert ((0 * b = 0)%Qc) as H0 by ring.
  rewrite H0 in H. apply (f_equal this) in H. vm_compute in H. discriminate H.
Qed.

(** What [define_geometry] returns has tables of the shapes of the grids and
    no zero Jacobian determinant. *)
Lemma define_geometry_well_formed cfg eps np_pi np_sin np_cos phys geo :
  Staggered.define_geometry cfg eps np_pi np_sin np_cos phys = Some geo →
  geometry_ok cfg geo ∧ jacobian_nonzero cfg geo.
Proof.
  intros Hgeo. split.
  - intros X. unfold Staggered.define_geometry in Hgeo. cbv zeta in Hgeo.
    destruct (Staggered.define_geometry_grid _ _ _ _ _ _ _ (phys LR).1 _)
      as [gLR|] eqn:HLR; simpl in Hgeo; [|done].
    destruct (Staggered.define_geometry_grid _ _ _ _ _ _ _ (phys UD).1 _)
      as [gUD|] eqn:HUD; simpl in Hgeo; [|done].
    destruct (Staggered.define_geometry_grid _ _ _ _ _ _ _ (phys C).1 _)
      as [gC|] eqn:HC; simpl in Hgeo; [|done].
    destruct (Staggered.define_geometry_grid _ _ _ _ _ _ _ (phys N).1 _)
      as [gN|] eqn:HN; simpl in Hgeo; [|done].
    injection Hgeo as <-.
    assert (∀ r c xs ys tbl,
      Staggered.define_geometry_grid cfg eps np_pi np_sin np_cos r c xs ys
      = Some tbl → length tbl = r ∧ Forall (λ row, length row = c) tbl) as Hshape.
    { intros r c xs ys tbl Ht. unfold Staggered.define_geometry_grid in Ht.
      apply mapM_seq_Some in Ht as [Hl Hrows]. split; [done|].
      apply Forall_lookup. intros i row Hrow.
      assert (i < r) as Hi by (apply lookup_lt_Some in Hrow; lia).
      destruct (Hrows i Hi) as (row' & Hrow' & Hm).
      rewrite Hrow in Hrow'. injection Hrow' as <-.
      by apply mapM_seq_Some in Hm as [? _]. }
    unfold rows, cols.
    destruct X; cbn [grid_shape fst snd]; eapply Hshape; eassumption.
  - intros X i j Hi Hj.
    destruct (define_geometry_Some _ _ _ _ _ _ _ X i j Hgeo Hi Hj)
      as (_ & row & p & Hrow & _ & Hp & Hpt).
    apply define_geometry_point_Some in Hpt as (_ & _ & Hinv & _).
    unfold Staggered.Jdet_. rewrite (at2_point _ _ _ _ _ _ Hrow Hp).
    exact (Qc_nonzero_of_product _ _ Hinv).
Qed.

Lemma at2_sub_scale r c (a b : arr2) (k : Qc) i j :
  shape2 r c a → shape2 r c b → i < r → j < c →
  at2 (sub2 a (scale2 k b)) i j = (at2 a i j - k * at2 b i j)%Qc.
Proof.
  intros Ha Hb Hi Hj.
  rewrite (at2_sub2 r c), (at2_scale2 k r c)
    by first [assumption | apply shape2_scale2; assumption].
  reflexivity.
Qed.

Section GeneralGeometry.
Context (cfg : config) (geo : Staggered.geometry).
Hypothesis Hx : 1 ≤ nxc cfg.
Hypothesis Hy : 1 ≤ nyc cfg.
Hypothesis Hgeo : geometry_ok cfg geo.
Hypothesis Hnz : jacobian_nonzero cfg geo.

Ltac shapes :=
  repeat first
    [ assumption
    | apply shape2_zeros2
    | apply shape2_add2 | apply shape2_sub2 | apply shape2_mul2
    | apply shape2_div2 | apply shape2_neg2 | apply shape2_scale2
    | apply shape2_divs2
    | match goal with
      | |- shape2 _ _ (dirder _ ?f ?t) => apply (dirder_shape cfg f t Hx Hy)
      | |- shape2 _ _ (avg _ ?f ?t) => apply (avg_shape cfg f t Hx Hy)
      | |- on_grid _ _ (dirder _ ?f ?t) => apply (dirder_shape cfg f t Hx Hy)
      | |- on_grid _ _ (avg _ ?f ?t) => apply (avg_shape cfg f t Hx Hy)
      | |- shape2 _ _ (Staggered.g_ _ ?a ?b ?X) => apply (g_on cfg geo Hgeo a b X)
      | |- shape2 _ _ (Staggered.Jdet_ _ ?X) => apply (Jdet_on cfg geo Hgeo X)
      end
    | progress (unfold on_grid; cbn [src_grid dst_grid grid_shape fst snd]) ].

Lemma staggered_div_curl fieldx fieldy fieldz fieldtype :
  field_on cfg fieldtype fieldx fieldy fieldz →
  Staggered.div cfg geo
    (Staggered.curl cfg geo fieldx fieldy fieldz fieldtype).1.1
    (Staggered.curl cfg geo fieldx fieldy fieldz fieldtype).1.2
    (Staggered.curl cfg geo fieldx fieldy fieldz fieldtype).2
    (dual_type fieldtype)
  = zeros2 (rows cfg (div_grid (dual_type fieldtype)))
           (cols cfg (div_grid (dual_type fieldtype))).
Proof.
  intros (Hfx & Hfy & Hfz). unfold on_grid in *.
  unfold Staggered.curl, Staggered.div, rows, cols.
  destruct fieldtype;
    cbn [dual_type div_grid field_grids fst snd grid_shape] in *; cbv zeta.
  - match goal with |- context [dirder cfg ?f C2UD] => set (F := f) end.
    assert (shape2 (nxc cfg) (nyc cfg) F) as HF by (subst F; shapes).
    rewrite (mul2_div2_cancel (nxc cfg) (nyn cfg)); [|shapes|shapes|apply (Hnz UD)].
    rewrite (mul2_div2_cancel (nxn cfg) (nyc cfg));
      [|shapes|shapes|apply (Hnz LR)].
    rewrite !(dirder_flat cfg Hx Hy) by shapes.
    cbn [dst_grid].
    pose proof (flat_div_flat_curl cfg Hx Hy F F F E) as Hz.
    unfold flat_div, flat_curl, rows, cols in Hz.
    cbn [dual_type div_grid fst snd grid_shape] in Hz.
    rewrite Hz. apply div2_zeros2_l. shapes.
  - match goal with |- context [dirder cfg ?f N2LR] => set (F := f) end.
    assert (shape2 (nxn cfg) (nyn cfg) F) as HF by (subst F; shapes).
    rewrite (mul2_div2_cancel (nxn cfg) (nyc cfg)); [|shapes|shapes|apply (Hnz LR)].
    rewrite (mul2_div2_cancel (nxc cfg) (nyn cfg));
      [|shapes|shapes|apply (Hnz UD)].
    rewrite !(dirder_flat cfg Hx Hy) by shapes.
    cbn [dst_grid].
    pose proof (flat_div_flat_curl cfg Hx Hy F F F B) as Hz.
    unfold flat_div, flat_curl, rows, cols in Hz.
    cbn [dual_type div_grid fst snd grid_shape] in Hz.
    rewrite Hz. apply div2_zeros2_l. shapes.
Qed.

(** [dirder], the products with the Jacobian determinant and the quotient by
    it are linear, so [div] is. *)
Lemma dirder_linear (a b : arr2) (k : Qc) t :
  on_grid cfg (src_grid t) a → on_grid cfg (src_grid t) b →
  dirder cfg (sub2 a (scale2 k b)) t
  = sub2 (dirder cfg a t) (scale2 k (dirder cfg b t)).
Proof.
  intros Ha Hb.
  apply (arr2_ext (rows cfg (dst_grid t)) (cols cfg (dst_grid t)));
    [unfold rows, cols; shapes..|].
  intros i j Hi Hj.
  rewrite (at2_sub2 (rows cfg (dst_grid t)) (cols cfg (dst_grid t)));
    [|unfold rows, cols; shapes..|done|done].
  rewrite (at2_scale2 _ (rows cfg (dst_grid t)) (cols cfg (dst_grid t)));
    [|unfold rows, cols; shapes|done|done].
  assert (on_grid cfg (src_grid t) (sub2 a (scale2 k b))) as Hab by shapes.
  rewrite !(at2_dirder cfg _ t i j Hx Hy) by assumption.
  unfold dirder_at, rows, cols, on_grid in *.
  destruct t; cbn [src_grid dst_grid grid_shape fst snd] in *;
    unfold nxn, nyn in *; try case_decide;
    rewrite !(at2_sub_scale _ _ a b k _ _ Ha Hb) by lia;
    unfold Qcdiv; ring.
Qed.

Lemma mul2_linear r c (J a b : arr2) (k : Qc) :
  shape2 r c J → shape2 r c a → shape2 r c b →
  mul2 J (sub2 a (scale2 k b)) = sub2 (mul2 J a) (scale2 k (mul2 J b)).
Proof.
  intros HJ Ha Hb. apply (arr2_ext r c); [shapes..|].
  intros i j Hi Hj.
  rewrite (at2_mul2 r c), !(at2_sub2 r c), !(at2_scale2 k r c), !(at2_mul2 r c)
    by first [assumption | shapes].
  ring.
Qed.

Lemma add2_linear r c (a b a' b' : arr2) (k : Qc) :
  shape2 r c a → shape2 r c b → shape2 r c a' → shape2 r c b' →
  add2 (sub2 a (scale2 k b)) (sub2 a' (scale2 k b'))
  = sub2 (add2 a a') (scale2 k (add2 b b')).
Proof.
  intros Ha Hb Ha' Hb'. apply (arr2_ext r c); [shapes..|].
  intros i j Hi Hj.
  rewrite (at2_add2 r c), !(at2_sub2 r c), !(at2_scale2 k r c), !(at2_add2 r c)
    by first [assumption | shapes].
  ring.
Qed.

Lemma div2_linear r c (J a b : arr2) (k : Qc) :
  shape2 r c J → shape2 r c a → shape2 r c b →
  div2 (sub2 a (scale2 k b)) J = sub2 (div2 a J) (scale2 k (div2 b J)).
Proof.
  intros HJ Ha Hb. apply (arr2_ext r c); [shapes..|].
  intros i j Hi Hj.
  rewrite (at2_div2 r c), !(at2_sub2 r c), !(at2_scale2 k r c), !(at2_div2 r c)
    by first [assumption | shapes].
  unfold Qcdiv. ring.
Qed.

Lemma scale2_zeros2 (k : Qc) r c : scale2 k (zeros2 r c) = zeros2 r c.
Proof.
  apply (arr2_ext r c); [shapes..|]. intros i j Hi Hj.
  rewrite (at2_scale2 k r c), at2_zeros2 by first [assumption | shapes]. ring.
Qed.

Lemma staggered_div_on fieldx fieldy fieldz fieldtype :
  field_on cfg fieldtype fieldx fieldy fieldz →
  on_grid cfg (div_grid fieldtype)
    (Staggered.div cfg geo fieldx fieldy fieldz fieldtype).
Proof.
  intros (Hfx & Hfy & Hfz). unfold on_grid, Staggered.div in *.
  destruct fieldtype; cbn [div_grid field_grids fst snd grid_shape] in *; shapes.
Qed.

Lemma staggered_div_linear (a b z c1 c2 z' z'' : arr2) (k : Qc) fieldtype :
  field_on cfg fieldtype a b z → field_on cfg fieldtype c1 c2 z' →
  Staggered.div cfg geo (sub2 a (scale2 k c1)) (sub2 b (scale2 k c2)) z''
    fieldtype
  = sub2 (Staggered.div cfg geo a b z fieldtype)
         (scale2 k (Staggered.div cfg geo c1 c2 z' fieldtype)).
Proof.
  intros (Ha & Hb & _) (Hc1 & Hc2 & _). unfold on_grid, Staggered.div in *.
  destruct fieldtype; cbn [field_grids fst snd grid_shape] in *.
  - rewrite (mul2_linear (nxn cfg) (nyc cfg)), (mul2_linear (nxc cfg) (nyn cfg))
      by shapes.
    rewrite !dirder_linear by shapes.
    rewrite (add2_linear (nxc cfg) (nyc cfg)) by shapes.
    rewrite (div2_linear (nxc cfg) (nyc cfg)) by shapes.
    reflexivity.
  - rewrite (mul2_linear (nxc cfg) (nyn cfg)), (mul2_linear (nxn cfg) (nyc cfg))
      by shapes.
    rewrite !dirder_linear by shapes.
    rewrite (add2_linear (nxn cfg) (nyn cfg)) by shapes.
    rewrite (div2_linear (nxn cfg) (nyn cfg)) by shapes.
    reflexivity.
Qed.

(** Subtracting a multiple of the curl of [E] from [B] leaves [div B] as it
    is. *)
Lemma induction_update (E1 E2 E3 B1 B2 B3 : arr2) (k : Qc) :
  field_on cfg E E1 E2 E3 → field_on cfg B B1 B2 B3 →
  Staggered.div cfg geo
    (sub2 B1 (scale2 k (Staggered.curl cfg geo E1 E2 E3 E).1.1))
    (sub2 B2 (scale2 k (Staggered.curl cfg geo E1 E2 E3 E).1.2))
    (sub2 B3 (scale2 k (Staggered.curl cfg geo E1 E2 E3 E).2))
    B
  = Staggered.div cfg geo B1 B2 B3 B.
Proof.
  intros HE HB.
  pose proof (staggered_curl_on cfg geo Hx Hy Hgeo _ _ _ E HE) as Hc.
  cbn [dual_type] in Hc.
  rewrite (staggered_div_linear B1 B2 B3 _ _
             (Staggered.curl cfg geo E1 E2 E3 E).2 _ k B HB Hc).
  pose proof (staggered_div_curl E1 E2 E3 E HE) as Hz. cbn [dual_type] in Hz.
  rewrite Hz. rewrite scale2_zeros2.
  apply sub2_zeros2_r. apply (staggered_div_on B1 B2 B3 B HB).
Qed.

End GeneralGeometry.

(** X7.  For every geometry whose tables have the shapes of the grids and
    whose Jacobian determinant is nowhere 0 (in particular the identity
    geometry and everything [define_geometry] returns), the divergence of a
    curl is the zero array: [div] of the curl of an [E] field vanishes at
    every node and [div] of the curl of a [B] field at every cell centre,
    periodic edges included. *)
Theorem div_of_curl_is_zero (cfg : config) (geo : Staggered.geometry)
    (fieldx fieldy fieldz : arr2) (fieldtype : field_type) :
  1 ≤ nx cfg → 1 ≤ ny cfg →
  geometry_ok cfg geo → jacobian_nonzero cfg geo →
  field_on cfg fieldtype fieldx fieldy fieldz →
  Staggered.div cfg geo
    (Staggered.curl cfg geo fieldx fieldy fieldz fieldtype).1.1
    (Staggered.curl cfg geo fieldx fieldy fieldz fieldtype).1.2
    (Staggered.curl cfg geo fieldx fieldy fieldz fieldtype).2
    (dual_type fieldtype)
  = zeros2 (rows cfg (div_grid (dual_type fieldtype)))
           (cols cfg (div_grid (dual_type fieldtype))).
Proof. intros. by apply staggered_div_curl. Qed.

Lemma geometry_example_ok :
  geometry_ok cfg22 (uniform_geometry cfg22 point_example)
  ∧ jacobian_nonzero cfg22 (uniform_geometry cfg22 point_example).
Proof. exact (define_geometry_well_formed _ _ _ _ _ _ _ geometry_example). Qed.

Lemma div_of_curl_is_zero_witness :
  Staggered.div cfg22 (uniform_geometry cfg22 point_example)
    (Staggered.curl cfg22 (uniform_geometry cfg22 point_example)
       (zeros2 3 2) (ones2 2 3) (ones2 2 2) E).1.1
    (Staggered.curl cfg22 (uniform_geometry cfg22 point_example)
       (zeros2 3 2) (ones2 2 3) (ones2 2 2) E).1.2
    (Staggered.curl cfg22 (uniform_geometry cfg22 point_example)
       (zeros2 3 2) (ones2 2 3) (ones2 2 2) E).2
    B
  = zeros2 3 3.
Proof.
  apply (div_of_curl_is_zero cfg22 (uniform_geometry cfg22 point_example)
           (zeros2 3 2) (ones2 2 3) (ones2 2 2) E).
  - simpl. lia.
  - simpl. lia.
  - exact (proj1 geometry_example_ok).
  - exact (proj2 geometry_example_ok).
  - split; [apply shape2_zeros2|]. split; [apply shape2_ones2|apply shape2_ones2].
Defined.

(** X17.  The magnetic-field update [B = B - dt * curl(E)] of the residual
    and of the main cycle leaves the divergence of [B] unchanged at every
    node, for every step [k] in place of [dt] and every geometry whose
    Jacobian determinant is nowhere 0. *)
Theorem magnetic_update_preserves_div_B (cfg : config)
    (geo : Staggered.geometry) (E1 E2 E3 B1 B2 B3 : arr2) (k : Qc) :
  1 ≤ nx cfg → 1 ≤ ny cfg →
  geometry_ok cfg geo → jacobian_nonzero cfg geo →
  field_on cfg E E1 E2 E3 → field_on cfg B B1 B2 B3 →
  Staggered.div cfg geo
    (sub2 B1 (scale2 k (Staggered.curl cfg geo E1 E2 E3 E).1.1))
    (sub2 B2 (scale2 k (Staggered.curl cfg geo E1 E2 E3 E).1.2))
    (sub2 B3 (scale2 k (Staggered.curl cfg geo E1 E2 E3 E).2))
    B
  = Staggered.div cfg geo B1 B2 B3 B.
Proof. intros. by apply induction_update. Qed.

Lemma magnetic_update_preserves_div_B_witness :
  Staggered.div cfg22 (uniform_geometry cfg22 point_example)
    (sub2 (ones2 2 3) (scale2 (dt cfg22)
       (Staggered.curl cfg22 (uniform_geometry cfg22 point_example)
          (zeros2 3 2) (ones2 2 3) (ones2 2 2) E).1.1))
    (sub2 (zeros2 3 2) (scale2 (dt cfg22)
       (Staggered.curl cfg22 (uniform_geometry cfg22 point_example)
          (zeros2 3 2) (ones2 2 3) (ones2 2 2) E).1.2))
    (sub2 (ones2 3 3) (scale2 (dt cfg22)
       (Staggered.curl cfg22 (uniform_geometry cfg22 point_example)
          (zeros2 3 2) (ones2 2 3) (ones2 2 2) E).2))
    B
  = Staggered.div cfg22 (uniform_geometry cfg22 point_example)
      (ones2 2 3) (zeros2 3 2) (ones2 3 3) B.
Proof.
  apply (magnetic_update_preserves_div_B cfg22
           (uniform_geometry cfg22 point_example)
           (zeros2 3 2) (ones2 2 3) (ones2 2 2)
           (ones2 2 3) (zeros2 3 2) (ones2 3 3) (dt cfg22)).
  - simpl. lia.
  - simpl. lia.
  - exact (proj1 geometry_example_ok).
  - exact (proj2 geometry_example_ok).
  - split; [apply shape2_zeros2|]. split; [apply shape2_ones2|apply shape2_ones2].
  - split; [apply shape2_ones2|]. split; [apply shape2_zeros2|apply shape2_ones2].
Defined.

Local Close Scope Qc_scope.
Local Open Scope nat_scope.

(** * The divergence of [B] along a run *)

(** The magnetic field that a pass of the main cycle commits. *)
Lemma staggered_cycle_B cfg eps np_pi np_sin geo tol kmax perturb st st' :
  Staggered.cycle_with cfg eps np_pi np_sin geo tol kmax perturb st = Some st' →
  let c := Staggered.curl cfg geo (Staggered.E1 st) (Staggered.E2 st)
             (Staggered.E3 st) E in
  Staggered.B1 st' = sub2 (Staggered.B1 st) (scale2 (dt cfg) c.1.1)
  ∧ Staggered.B2 st' = sub2 (Staggered.B2 st) (scale2 (dt cfg) c.1.2)
  ∧ Staggered.B3 st' = sub2 (Staggered.B3 st) (scale2 (dt cfg) c.2).
Proof.
  unfold Staggered.cycle_with. intros H.
  destruct (picard_with _ _ _ _) as [[[k err2] sol]|]; [|done].
  cbn [mbind option_bind] in H.
  destruct (krylov_to_phys cfg sol) as [[[[[E1n E2n] E3n] un] vn] wn].
  cbv zeta.
  destruct (Staggered.curl cfg geo (Staggered.E1 st) (Staggered.E2 st)
              (Staggered.E3 st) E) as [[c1 c2] c3].
  injection H as <-. done.
Qed.

Lemma identity_geometry_nonzero cfg :
  jacobian_nonzero cfg (Staggered.identity_geometry cfg).
Proof.
  intros X i j Hi Hj. rewrite Jdet_identity.
  rewrite at2_ones2 by done.
  intros H. apply (f_equal this) in H. vm_compute in H. discriminate H.
Qed.

Local Close Scope Qc_scope.
Local Open Scope nat_scope.

(** * Totals of the deposited current *)

(** [a[i, j] += v] inside the block of the first [m] rows and [n] columns
    adds [v] to the total of that block. *)
Lemma add_at_block r c m n (a : arr2) (i j : Z) (v : Qc) :
  shape2 r c a → m ≤ r → n ≤ c →
  (0 ≤ i < Z.of_nat m)%Z → (0 ≤ j < Z.of_nat n)%Z →
  ∃ a', add_at a i j v = Some a' ∧ shape2 r c a'
        ∧ sum2 (take n <$> take m a') = (sum2 (take n <$> take m a) + v)%Qc.
Proof.
  intros Ha Hm Hn Hi Hj. unfold add_at.
  destruct (shape2_lookup r c a (Z.to_nat i) Ha) as (row & Hrow & Hlen); [lia|].
  destruct (lookup_lt_is_Some_2 row (Z.to_nat j)) as [x Hx]; [lia|].
  pose proof Ha as [Hr _].
  rewrite Hr, py_index_in_range by lia. simpl. rewrite Hrow. simpl.
  rewrite Hlen, py_index_in_range by lia. simpl. rewrite Hx. simpl.
  eexists. split; [done|]. split.
  - apply shape2_insert_row; [done|]. by rewrite length_insert.
  - rewrite take_insert_lt by lia. rewrite list_fmap_insert.
    rewrite (sum2_insert _ _ (take n row)).
    + rewrite take_insert_lt by lia.
      rewrite (vsum_insert _ _ x) by (rewrite lookup_take_lt by lia; done).
      ring.
    + rewrite list_lookup_fmap, lookup_take_lt by lia. by rewrite Hrow.
Qed.

Lemma scatter_block r c m n (a : arr2) (s : stencil) (val : Qc → Qc) :
  shape2 r c a → m ≤ r → n ≤ c → stencil_within m n s →
  ∃ a', scatter a s val = Some a' ∧ shape2 r c a'
        ∧ sum2 (take n <$> take m a')
          = (sum2 (take n <$> take m a) + val (wx1 s * wy1 s)
             + val (wx2 s * wy1 s) + val (wx1 s * wy2 s)
             + val (wx2 s * wy2 s))%Qc.
Proof.
  intros Ha Hm Hn (Hi1 & Hi2 & Hj1 & Hj2). unfold scatter.
  destruct (add_at_block r c m n a (i1 s) (j1 s) (val (wx1 s * wy1 s))%Qc
              Ha Hm Hn Hi1 Hj1) as (a1 & -> & Ha1 & S1). simpl.
  destruct (add_at_block r c m n a1 (i2 s) (j1 s) (val (wx2 s * wy1 s))%Qc
              Ha1 Hm Hn Hi2 Hj1) as (a2 & -> & Ha2 & S2). simpl.
  destruct (add_at_block r c m n a2 (i1 s) (j2 s) (val (wx1 s * wy2 s))%Qc
              Ha2 Hm Hn Hi1 Hj2) as (a3 & -> & Ha3 & S3). simpl.
  destruct (add_at_block r c m n a3 (i2 s) (j2 s) (val (wx2 s * wy2 s))%Qc
              Ha3 Hm Hn Hi2 Hj2) as (a4 & -> & Ha4 & S4).
  exists a4. split; [done|]. split; [done|].
  rewrite S4, S3, S2, S1. ring.
Qed.

(** The four weights of a deposit sum to 1, so a deposit of [ww * k] adds
    [k] in total. *)
Lemma deposit_weights (w2x w2y k : Qc) :
  ((1 - w2x) * (1 - w2y) * k + w2x * (1 - w2y) * k
   + (1 - w2x) * w2y * k + w2x * w2y * k = k)%Qc.
Proof. ring. Qed.

Lemma vsum_nil : vsum [] = 0%Qc.
Proof. reflexivity. Qed.
Lemma vsum_cons (x : Qc) (l : vec) : vsum (x :: l) = (x + vsum l)%Qc.
Proof. reflexivity. Qed.

Section CurrentTotals.
Context (cfg : config).
Hypothesis Hnx : 1 ≤ nx cfg.
Hypothesis Hny : 1 ≤ ny cfg.
Hypothesis HLx : (0 < Lx cfg)%Qc.
Hypothesis HLy : (0 < Ly cfg)%Qc.

(** No deposit on the LR faces goes to the last row, none on the UD faces to
    the last column. *)
Lemma deposit_stencil_LR_interior xk yk :
  in_domain cfg xk yk →
  stencil_within (nxc cfg) (nyc cfg) (deposit_stencil_LR cfg xk yk).
Proof.
  intros (Hx0 & Hx1 & Hy0 & Hy1).
  pose proof (cell_index_x cfg Hnx HLx xk Hx0 Hx1).
  unfold stencil_within, deposit_stencil_LR. cbn [i1 i2 j1 j2].
  unfold nxn, nxc, nyc in *. case_decide;
    repeat split; try (apply Z.mod_pos_bound; lia); try lia.
Qed.

Lemma deposit_stencil_UD_interior xk yk :
  in_domain cfg xk yk →
  stencil_within (nxc cfg) (nyc cfg) (deposit_stencil_UD cfg xk yk).
Proof.
  intros (Hx0 & Hx1 & Hy0 & Hy1).
  pose proof (cell_index_y cfg Hny HLy yk Hy0 Hy1).
  unfold stencil_within, deposit_stencil_UD. cbn [i1 i2 j1 j2].
  unfold nyn, nyc, nxc in *. case_decide;
    repeat split; try (apply Z.mod_pos_bound; lia); try lia.
Qed.

Lemma deposit_J_body_sums xk yk uk vk wk qk i J tx ty tz :
  particles_in_domain cfg xk yk →
  length uk = npart cfg → length vk = npart cfg → length wk = npart cfg →
  length qk = npart cfg →
  i < npart cfg → deposit_state cfg tx ty tz J →
  ∃ J', deposit_J_body cfg xk yk uk vk wk qk i J = Some J'
    ∧ deposit_state cfg (tx + nth0 qk i * nth0 uk i / dx cfg / dy cfg)
                    (ty + nth0 qk i * nth0 vk i / dx cfg / dy cfg)
                    (tz + nth0 qk i * nth0 wk i / dx cfg / dy cfg) J'.
Proof.
  intros (Hlx & Hly & Hdom) Hlu Hlv Hlw Hlq Hi (HJ & Sx & Sy & Sz).
  destruct J as [[Jx Jy] Jz]. destruct HJ as (HJx & HJy & HJz).
  cbn [fst snd] in *. unfold on_grid in *. cbn [grid_shape fst snd] in *.
  unfold deposit_J_body.
  destruct (lookup_lt_is_Some_2 xk i) as [xi Hxi]; [lia|].
  destruct (lookup_lt_is_Some_2 yk i) as [yi Hyi]; [lia|].
  destruct (lookup_lt_is_Some_2 uk i) as [ui Hui]; [lia|].
  destruct (lookup_lt_is_Some_2 vk i) as [vi Hvi]; [lia|].
  destruct (lookup_lt_is_Some_2 wk i) as [wi Hwi]; [lia|].
  destruct (lookup_lt_is_Some_2 qk i) as [qi Hqi]; [lia|].
  unfold nth0. rewrite Hxi, Hyi, Hui, Hvi, Hwi, Hqi. simpl.
  pose proof (Hdom i xi yi Hxi Hyi) as Hd.
  destruct (scatter_block (nxn cfg) (nyc cfg) (nxc cfg) (nyc cfg) Jx
              (deposit_stencil_LR cfg xi yi)
              (λ ww, (ww * qi * ui / dx cfg / dy cfg)%Qc) HJx)
    as (Jx' & -> & HJx' & Sx');
    [unfold nxn; lia|lia|by apply deposit_stencil_LR_interior|]. simpl.
  destruct (scatter_block (nxc cfg) (nyn cfg) (nxc cfg) (nyc cfg) Jy
              (deposit_stencil_UD cfg xi yi)
              (λ ww, (ww * qi * vi / dx cfg / dy cfg)%Qc) HJy)
    as (Jy' & -> & HJy' & Sy');
    [lia|unfold nyn; lia|by apply deposit_stencil_UD_interior|]. simpl.
  destruct (scatter_block (nxc cfg) (nyc cfg) (nxc cfg) (nyc cfg) Jz
              (deposit_stencil_C cfg xi yi)
              (λ ww, (ww * qi * wi / dx cfg / dy cfg)%Qc) HJz)
    as (Jz' & -> & HJz' & Sz');
    [lia|lia|by apply deposit_stencil_C_within|]. simpl.
  exists (Jx', Jy', Jz'). split; [done|].
  split; [split; [|split]; assumption|].
  unfold interior in *. cbn [fst snd].
  rewrite Sx', Sy', Sz', Sx, Sy, Sz.
  unfold deposit_stencil_LR, deposit_stencil_UD, deposit_stencil_C.
  cbn [wx1 wx2 wy1 wy2].
  split; [|split]; unfold Qcdiv; ring.
Qed.

Lemma deposit_loop_sums xk yk uk vk wk qk order J tx ty tz :
  particles_in_domain cfg xk yk →
  length uk = npart cfg → length vk = npart cfg → length wk = npart cfg →
  length qk = npart cfg →
  Forall (λ i, i < npart cfg) order → deposit_state cfg tx ty tz J →
  ∃ J', for_each (deposit_J_body cfg xk yk uk vk wk qk) order J = Some J'
    ∧ deposit_state cfg
        (tx%Qc + vsum ((λ i, (nth0 qk i * nth0 uk i / dx cfg / dy cfg)%Qc) <$> order))
        (ty + vsum ((λ i, (nth0 qk i * nth0 vk i / dx cfg / dy cfg)%Qc) <$> order))
        (tz + vsum ((λ i, (nth0 qk i * nth0 wk i / dx cfg / dy cfg)%Qc) <$> order))
        J'.
Proof.
  intros Hd Hlu Hlv Hlw Hlq Ho. revert J tx ty tz.
  induction Ho as [|i order Hi Ho IH]; intros J tx ty tz HJ;
    cbn [for_each]; rewrite ?fmap_nil, ?fmap_cons, ?vsum_nil, ?vsum_cons.
  - exists J. split; [done|].
    replace (tx + 0)%Qc with tx by ring. replace (ty + 0)%Qc with ty by ring.
    replace (tz + 0)%Qc with tz by ring. exact HJ.
  - destruct (deposit_J_body_sums xk yk uk vk wk qk i J tx ty tz)
      as (J1 & -> & HJ1); try assumption.
    cbn [mbind option_bind]. destruct (IH _ _ _ _ HJ1) as (J' & -> & HJ').
    exists J'. split; [done|].
    match goal with
    | H : deposit_state cfg ?a ?b ?c J' |- deposit_state cfg ?a' ?b' ?c' J' =>
      replace a' with a by ring; replace b' with b by ring;
      replace c' with c by ring; exact H
    end.
Qed.

Lemma interior_zeros2 r c : sum2 (interior cfg (zeros2 r c)) = 0%Qc.
Proof.
  unfold interior, zeros2, zeros.
  rewrite take_replicate, fmap_replicate, take_replicate.
  apply sum2_zeros2.
Qed.

Lemma interior_full (a : arr2) :
  shape2 (nxc cfg) (nyc cfg) a → interior cfg a = a.
Proof.
  intros [Hr Hc]. unfold interior. rewrite take_ge by lia.
  clear Hr. induction Hc as [|row a Hrow Hc IH]; [done|].
  rewrite fmap_cons, take_ge by lia. by rewrite IH.
Qed.

Lemma particle_to_grid_J_totals xk yk uk vk wk qk :
  particles_in_domain cfg xk yk →
  length uk = npart cfg → length vk = npart cfg → length wk = npart cfg →
  length qk = npart cfg →
  ∃ Jx Jy Jz, particle_to_grid_J cfg xk yk uk vk wk qk = Some (Jx, Jy, Jz)
    ∧ sum2 (interior cfg Jx) = total_current cfg qk uk
    ∧ sum2 (interior cfg Jy) = total_current cfg qk vk
    ∧ sum2 Jz = total_current cfg qk wk
    ∧ row_of Jx (nxn cfg - 1) = row_of Jx 0
    ∧ ∀ i, i < nxc cfg → at2 Jy i (nyn cfg - 1) = at2 Jy i 0.
Proof.
  intros Hd Hlu Hlv Hlw Hlq.
  unfold particle_to_grid_J, particle_to_grid_J_in. cbv zeta.
  destruct (deposit_loop_sums xk yk uk vk wk qk (seq 0 (npart cfg))
              (zeros2 (nxn cfg) (nyc cfg), zeros2 (nxc cfg) (nyn cfg),
               zeros2 (nxc cfg) (nyc cfg)) 0%Qc 0%Qc 0%Qc)
    as ([[Jx Jy] Jz] & -> & (HJx & HJy & HJz) & Sx & Sy & Sz);
    try assumption.
  { apply seq_below. }
  { split; [|cbn [fst snd]; rewrite !interior_zeros2; done].
    split; [|split]; apply shape2_zeros2. }
  cbn [fst snd] in *. unfold on_grid in *. cbn [grid_shape fst snd] in *.
  cbn [mbind option_bind].
  eexists _, _, _. split; [reflexivity|].
  unfold total_current.
  assert (nxn cfg - 1 = nxc cfg) as Hlast_x by (unfold nxn; lia).
  assert (nyn cfg - 1 = nyc cfg) as Hlast_y by (unfold nyn; lia).
  rewrite Hlast_x, Hlast_y.
  split; [|split; [|split; [|split]]].
  - rewrite <- (Qcplus_0_l (vsum _)), <- Sx. unfold interior.
    by rewrite take_insert_ge by lia.
  - rewrite <- (Qcplus_0_l (vsum _)), <- Sy. unfold interior.
    rewrite <- fmap_take, <- list_fmap_compose. f_equal.
    apply list_fmap_ext. intros k row Hrow. simpl.
    by rewrite take_insert_ge by lia.
  - rewrite <- (Qcplus_0_l (vsum _)), <- Sz. by rewrite interior_full.
  - destruct HJx as [Hr Hc]. unfold row_of.
    rewrite list_lookup_insert_eq by (unfold nxn in Hr; lia).
    rewrite list_lookup_insert_ne by (unfold nxc in *; lia).
    done.
  - intros i Hi.
    destruct (shape2_lookup _ _ Jy i HJy Hi) as (row & Hrow & Hlen).
    unfold at2, row_of. rewrite list_lookup_fmap, Hrow. simpl.
    unfold nth0 at 1 3.
    rewrite list_lookup_insert_eq by (unfold nyn in Hlen; lia).
    rewrite list_lookup_insert_ne by (unfold nyc in *; lia).
    done.
Qed.

End CurrentTotals.

Lemma particles_example : particles_in_domain cfg22 [decimal 3 2] [decimal 1 4].
Proof.
  split; [reflexivity|]. split; [reflexivity|].
  intros i xi yi Hxi Hyi. destruct i as [|i]; [|done].
  simpl in Hxi, Hyi. injection Hxi as <-. injection Hyi as <-.
  exact in_domain_example.
Qed.

Local Close Scope Qc_scope.
Local Open Scope nat_scope.

(** * Interpolation to the particles *)

(** A combination of four values with weights in [0, 1] that sum to 1 lies
    between any bounds of the values. *)
Lemma convex_combination (w1 w2 w3 w4 f1 f2 f3 f4 lo hi : Qc) :
  (0 ≤ w1)%Qc → (0 ≤ w2)%Qc → (0 ≤ w3)%Qc → (0 ≤ w4)%Qc →
  (w1 + w2 + w3 + w4 = 1)%Qc →
  (lo ≤ f1)%Qc → (f1 ≤ hi)%Qc → (lo ≤ f2)%Qc → (f2 ≤ hi)%Qc →
  (lo ≤ f3)%Qc → (f3 ≤ hi)%Qc → (lo ≤ f4)%Qc → (f4 ≤ hi)%Qc →
  (lo ≤ w1 * f1 + w2 * f2 + w3 * f3 + w4 * f4)%Qc
  ∧ (w1 * f1 + w2 * f2 + w3 * f3 + w4 * f4 ≤ hi)%Qc.
Proof.
  intros. split; toQ; nra.
Qed.

Local Close Scope Qc_scope.
Local Open Scope nat_scope.

(** * Changing between Cartesian and general components *)

Section IdentityGeometry.
Context (cfg : config).
Hypothesis Hx : 1 ≤ nxc cfg.
Hypothesis Hy : 1 ≤ nyc cfg.

Lemma J_identity a b X :
  1 ≤ a ≤ 3 → 1 ≤ b ≤ 3 →
  Staggered.J_ (Staggered.identity_geometry cfg) a b X
  = if decide (a = b) then ones2 (grid_shape cfg X).1 (grid_shape cfg X).2
    else zeros2 (grid_shape cfg X).1 (grid_shape cfg X).2.
Proof. by apply entry_identity. Qed.

Lemma j_identity a b X :
  1 ≤ a ≤ 3 → 1 ≤ b ≤ 3 →
  Staggered.j_ (Staggered.identity_geometry cfg) a b X
  = if decide (a = b) then ones2 (grid_shape cfg X).1 (grid_shape cfg X).2
    else zeros2 (grid_shape cfg X).1 (grid_shape cfg X).2.
Proof. by apply entry_identity. Qed.

Ltac shapes :=
  repeat first
    [ assumption
    | apply shape2_zeros2 | apply shape2_ones2
    | apply shape2_add2 | apply shape2_sub2 | apply shape2_mul2
    | match goal with
      | |- shape2 _ _ (avg _ ?f ?t) => apply (avg_shape cfg f t Hx Hy)
      | |- on_grid _ _ (avg _ ?f ?t) => apply (avg_shape cfg f t Hx Hy)
      end
    | progress (unfold on_grid; cbn [src_grid dst_grid grid_shape fst snd]) ].

Ltac simplify_products :=
  rewrite ?J_identity, ?j_identity by lia;
  cbn [grid_shape fst snd];
  repeat (case_decide; [try lia | try lia]);
  repeat first
    [ rewrite mul2_zeros2_l by shapes
    | rewrite mul2_ones2_l by shapes
    | rewrite add2_zeros2_l by shapes
    | rewrite add2_zeros2_r by shapes ].

Lemma change_of_components_identity a b c fieldtype :
  field_on cfg fieldtype a b c →
  Staggered.cartesian_to_general cfg (Staggered.identity_geometry cfg) a b c
    fieldtype = (a, b, c)
  ∧ Staggered.general_to_cartesian cfg (Staggered.identity_geometry cfg) a b c
      fieldtype = (a, b, c).
Proof.
  intros (Ha & Hb & Hc). unfold on_grid in *.
  unfold Staggered.cartesian_to_general, Staggered.general_to_cartesian.
  destruct fieldtype; cbn [field_grids fst snd grid_shape] in *; cbv zeta;
    simplify_products; done.
Qed.

End IdentityGeometry.

(** X21.  With the identity geometry [cartesian_to_general] and
    [general_to_cartesian] return the three components they are given, for
    both field types: the off-diagonal averages are multiplied by 0 and the
    component itself by 1. *)
Theorem change_of_components_is_identity (cfg : config) (a b c : arr2)
    (fieldtype : field_type) :
  1 ≤ nx cfg → 1 ≤ ny cfg →
  field_on cfg fieldtype a b c →
  Staggered.cartesian_to_general cfg (Staggered.identity_geometry cfg) a b c
    fieldtype = (a, b, c)
  ∧ Staggered.general_to_cartesian cfg (Staggered.identity_geometry cfg) a b c
      fieldtype = (a, b, c).
Proof. intros. by apply change_of_components_identity. Qed.

Lemma change_of_components_is_identity_witness :
  Staggered.cartesian_to_general cfg22 (Staggered.identity_geometry cfg22)
    (ones2 2 3) (zeros2 3 2) (ones2 3 3) B = (ones2 2 3, zeros2 3 2, ones2 3 3)
  ∧ Staggered.general_to_cartesian cfg22 (Staggered.identity_geometry cfg22)
      (ones2 2 3) (zeros2 3 2) (ones2 3 3) B
    = (ones2 2 3, zeros2 3 2, ones2 3 3).
Proof.
  apply (change_of_components_is_identity cfg22 (ones2 2 3) (zeros2 3 2)
           (ones2 3 3) B).
  - simpl. lia.
  - simpl. lia.
  - split; [apply shape2_ones2|]. split; [apply shape2_zeros2|apply shape2_ones2].
Defined.

Local Close Scope Qc_scope.
Local Open Scope nat_scope.

(** * The four-point average [avgC2N] *)

Lemma set_at2_tab2 r c (f : nat → nat → Qc) i j v :
  i < r →
  set_at2 i j v (tab2 r c f)
  = tab2 r c (λ i' j', if decide (i' = i ∧ j' = j) then v else f i' j').
Proof.
  intros Hi. unfold set_at2. rewrite row_of_tab2 by done.
  unfold tab2. rewrite insert_tab1. apply tab1_ext. intros i' Hi'.
  case_decide as Hr.
  - subst. rewrite insert_tab1. apply tab1_ext. intros j' Hj'.
    repeat case_decide; try lia; done.
  - apply tab1_ext. intros j' Hj'. rewrite decide_False by lia. done.
Qed.

Section AvgC2N.
Context (cfg : config).
Hypothesis Hnx : 2 ≤ nx cfg.
Hypothesis Hny : 2 ≤ ny cfg.

Ltac tabulate :=
  cbv zeta; rewrite ?zeros2_tab2;
  repeat first
    [ rewrite slice2_tab2 by lia
    | rewrite col2_tab2 by lia
    | rewrite row2_tab2 by lia
    | rewrite add2_tab2 by lia
    | rewrite divs2_tab2
    | rewrite zip_with_tab1 by lia
    | rewrite fmap_tab1
    | rewrite set_slice2_tab2 by lia
    | rewrite set_col2_tab2 by lia
    | rewrite set_row2_tab2 by lia
    | rewrite set_at2_tab2 by lia
    | rewrite at2_tab2 by lia ].

Lemma avgC2N_tab2 r c (f : nat → nat → Qc) :
  nx cfg - 1 ≤ r → ny cfg - 1 ≤ c →
  avgC2N cfg (tab2 r c f)
  = tab2 (nx cfg) (ny cfg) (λ i j,
      ((f (cell_before (nx cfg - 1) i) (cell_before (ny cfg - 1) j)
        + f (cell_after (nx cfg - 1) i) (cell_before (ny cfg - 1) j)
        + f (cell_before (nx cfg - 1) i) (cell_after (ny cfg - 1) j)
        + f (cell_after (nx cfg - 1) i) (cell_after (ny cfg - 1) j))
       / Qc_of_Z 4)%Qc).
Proof.
  intros Hr Hc. unfold avgC2N, vdivs, vadd. tabulate.
  apply tab2_ext. intros i j Hi Hj.
  unfold cell_before, cell_after.
  repeat (case_decide; try lia);
    rewrite ?Nat.add_0_l, ?Nat.sub_0_r;
    repeat match goal with
    | |- context [1 + (?k - 1)] => replace (1 + (k - 1)) with k by lia
    end;
    try (replace (nx cfg - 1 - 1) with (nx cfg - 2) by lia);
    try (replace (ny cfg - 1 - 1) with (ny cfg - 2) by lia);
    unfold Qcdiv; ring.
Qed.

End AvgC2N.

(** X22.  For [nx, ny >= 2] and an argument with at least [nx-1] rows and
    [ny-1] columns, [avgC2N] returns an array of shape [(nx, ny)] whose entry
    [(i, j)] is the mean of the four cells around node [(i, j)] of a periodic
    grid of [(nx-1) x (ny-1)] cells: the first and the last row, and the first
    and the last column, hold the same values, and any further rows and
    columns of the argument are not read. *)
Theorem avgC2N_periodic_mean (cfg : config) (fieldC : arr2) (r c i j : nat) :
  2 ≤ nx cfg → 2 ≤ ny cfg →
  shape2 r c fieldC → nx cfg - 1 ≤ r → ny cfg - 1 ≤ c →
  i < nx cfg → j < ny cfg →
  shape2 (nx cfg) (ny cfg) (avgC2N cfg fieldC)
  ∧ at2 (avgC2N cfg fieldC) i j
    = ((at2 fieldC (cell_before (nx cfg - 1) i) (cell_before (ny cfg - 1) j)
        + at2 fieldC (cell_after (nx cfg - 1) i) (cell_before (ny cfg - 1) j)
        + at2 fieldC (cell_before (nx cfg - 1) i) (cell_after (ny cfg - 1) j)
        + at2 fieldC (cell_after (nx cfg - 1) i) (cell_after (ny cfg - 1) j))
       / Qc_of_Z 4)%Qc.
Proof.
  intros Hnx Hny Hf Hr Hc Hi Hj.
  rewrite (arr2_as_tab2 r c fieldC Hf) at 1 2.
  rewrite (avgC2N_tab2 cfg Hnx Hny) by assumption.
  split; [apply shape2_tab2|]. by rewrite at2_tab2.
Qed.

Lemma avgC2N_periodic_mean_witness :
  shape2 (nx cfg22) (ny cfg22) (avgC2N cfg22 (ones2 2 2))
  ∧ at2 (avgC2N cfg22 (ones2 2 2)) 1 0
    = ((at2 (ones2 2 2) (cell_before (nx cfg22 - 1) 1) (cell_before (ny cfg22 - 1) 0)
        + at2 (ones2 2 2) (cell_after (nx cfg22 - 1) 1) (cell_before (ny cfg22 - 1) 0)
        + at2 (ones2 2 2) (cell_before (nx cfg22 - 1) 1) (cell_after (ny cfg22 - 1) 0)
        + at2 (ones2 2 2) (cell_after (nx cfg22 - 1) 1) (cell_after (ny cfg22 - 1) 0))
       / Qc_of_Z 4)%Qc.
Proof.
  apply (avgC2N_periodic_mean cfg22 (ones2 2 2) 2 2 1 0).
  - simpl. lia.
  - simpl. lia.
  - apply shape2_ones2.
  - simpl. lia.
  - simpl. lia.
  - simpl. lia.
  - simpl. lia.
Defined.

Local Close Scope Qc_scope.
Local Open Scope nat_scope.

(** * The charge density with the ion background *)

Lemma vsum_vadd (a b : vec) :
  length a = length b → vsum (vadd a b) = (vsum a + vsum b)%Qc.
Proof.
  revert b. induction a as [|h a IH]; intros [|k b] Hl; simpl in Hl; try done.
  unfold vsum, vadd in *. cbn [zip_with foldr]. rewrite IH by lia. ring.
Qed.

Lemma sum2_add2 r c (a b : arr2) :
  shape2 r c a → shape2 r c b → sum2 (add2 a b) = (sum2 a + sum2 b)%Qc.
Proof.
  intros [Hra Hca] [Hrb Hcb]. subst r. revert b Hrb Hcb.
  induction Hca as [|h a Hh Hca IH]; intros [|k b] Hrb Hcb; simpl in Hrb;
    try done.
  apply list.Forall_cons in Hcb as [Hk Hcb].
  assert (sum2 (add2 a b) = (sum2 a + sum2 b)%Qc) as IH' by (apply IH; [lia|done]).
  unfold sum2, add2 in *. cbn [zip_with]. rewrite !fmap_cons.
  rewrite !vsum_cons.
  rewrite vsum_vadd by lia. rewrite IH'. ring.
Qed.

(** X23.  [particle_to_grid_rho] returns for particles anywhere (both
    subscripts are taken modulo the number of cells); the total of what it
    returns is the total charge of the particles, plus the total of [rho_ion]
    when [electron_and_ion] is set. *)
Theorem charge_density_total (cfg : config) (electron_and_ion : bool)
    (rho_ion : arr2) (xk yk q : vec) :
  1 ≤ nx cfg → 1 ≤ ny cfg →
  length xk = npart cfg → length yk = npart cfg → length q = npart cfg →
  on_grid cfg C rho_ion →
  ∃ rho, Staggered.particle_to_grid_rho cfg electron_and_ion rho_ion xk yk q
         = Some rho
    ∧ on_grid cfg C rho
    ∧ sum2 rho
      = (vsum q + if electron_and_ion then sum2 rho_ion else 0)%Qc.
Proof.
  intros Hnx Hny Hlx Hly Hlq Hion.
  unfold Staggered.particle_to_grid_rho, Staggered.deposit_rho_in.
  destruct (deposit_rho_loop_sum cfg Hnx Hny xk yk q (seq 0 (npart cfg))
              (zeros2 (nxc cfg) (nyc cfg)) Hlx Hly Hlq)
    as (rho & -> & Hs & Hsum).
  - apply seq_below.
  - apply shape2_zeros2.
  - cbn [mbind option_bind]. eexists. split; [reflexivity|].
    rewrite sum2_zeros2 in Hsum.
    assert (vsum (nth0 q <$> seq 0 (npart cfg)) = vsum q) as Hq.
    { f_equal. rewrite <- Hlq. clear.
      change (nth0 q <$> seq 0 (length q)) with (tab1 (length q) (nth0 q)).
      symmetry. apply vec_as_tab1. }
    rewrite Hq in Hsum.
    destruct electron_and_ion.
    + split; [by apply shape2_add2|].
      rewrite (sum2_add2 (nxc cfg) (nyc cfg)) by assumption.
      rewrite Hsum. ring.
    + split; [done|]. rewrite Hsum. ring.
Qed.

Lemma charge_density_total_witness :
  ∃ rho, Staggered.particle_to_grid_rho cfg22 true (ones2 2 2)
           [decimal 7 2] [decimal (-1) 4] [1%Qc] = Some rho
    ∧ on_grid cfg22 C rho
    ∧ sum2 rho = (vsum [1%Qc] + if true then sum2 (ones2 2 2) else 0)%Qc.
Proof.
  apply (charge_density_total cfg22 true (ones2 2 2)
           [decimal 7 2] [decimal (-1) 4] [1%Qc]).
  - simpl. lia.
  - simpl. lia.
  - reflexivity.
  - reflexivity.
  - reflexivity.
  - apply shape2_ones2.
Defined.

Local Close Scope Qc_scope.
Local Open Scope nat_scope.

(** * The Picard loop at a solution *)

Lemma vsub_zeros (a : vec) : vsub a (zeros (length a)) = a.
Proof.
  unfold vsub, zeros. induction a as [|h a IH]; [done|].
  cbn [length replicate zip_with]. rewrite IH. f_equal. ring.
Qed.

Lemma norm2_vsub_same (a : vec) : norm2 (vsub a a) = 0%Qc.
Proof.
  unfold norm2, vsub, vmul, vsum. induction a as [|h a IH]; [done|].
  cbn [zip_with foldr]. rewrite IH. ring.
Qed.

Lemma exceeds_initial (tol : Qc) :
  (0 ≤ tol)%Qc → (tol < 1)%Qc → exceeds 1 tol = true.
Proof.
  intros H0 H1. unfold exceeds.
  rewrite (bool_decide_eq_true_2 (tol * tol < 1)%Qc); [apply orb_true_r|].
  toQ. nra.
Qed.

Lemma exceeds_zero (tol : Qc) : (0 ≤ tol)%Qc → exceeds 0 tol = false.
Proof.
  intros H0. unfold exceeds.
  rewrite (bool_decide_eq_false_2 (tol < 0)%Qc);
    [|intros H; apply (Qclt_not_le _ _ H); exact H0].
  rewrite (bool_decide_eq_false_2 (tol * tol < 0)%Qc); [done|].
  intros H. toQ. nra.
Qed.

(** X24.  When the residual of the guess is the zero vector the Picard loop
    makes exactly one pass and returns the guess itself with error 0, for any
    tolerance in [0, 1) and any [kmax]: the loop always evaluates the residual
    once, because the error starts at 1. *)
Theorem picard_at_solution (tol : Qc) (kmax : nat) (res : vec → option vec)
    (guess : vec) :
  (0 ≤ tol)%Qc → (tol < 1)%Qc →
  res guess = Some (zeros (length guess)) →
  picard_with tol kmax res guess = Some (1, 0%Qc, guess).
Proof.
  intros H0 H1 Hres. unfold picard_with.
  replace (kmax + 2) with (S (S kmax)) by lia.
  cbn [picard_loop].
  rewrite (exceeds_initial tol H0 H1).
  rewrite (bool_decide_eq_true_2 (0 ≤ kmax)) by lia.
  cbn [andb]. rewrite Hres. cbn [mbind option_bind].
  rewrite vsub_zeros, norm2_vsub_same.
  rewrite (exceeds_zero tol H0). reflexivity.
Qed.

Lemma picard_at_solution_witness :
  picard_with tol kmax (λ y, Some (zeros (length y))) [1%Qc; 0%Qc]
  = Some (1, 0%Qc, [1%Qc; 0%Qc]).
Proof.
  apply (picard_at_solution tol kmax (λ y, Some (zeros (length y))) [1%Qc; 0%Qc]).
  - vm_compute. discriminate.
  - vm_compute. reflexivity.
  - reflexivity.
Defined.

Local Close Scope Qc_scope.
Local Open Scope nat_scope.

(** * The grids of the results of the field operators *)

(** X25.  The field operators keep to the staggered grids.  For metric and
    geometry arrays of the shapes of their grids and a field whose three
    components have the shapes of the grids of its type (LR, UD, C for [E];
    UD, LR, N for [B]): both [curl] functions return three arrays with the
    shapes of the grids of the other type, [div] returns an array on C for
    [E] and on N for [B], and [cartesian_to_general] and
    [general_to_cartesian] return arrays on the grids of the same type. *)
Theorem field_operators_keep_grids (cfg : config) (m : metric)
    (geo : Staggered.geometry) (fieldx fieldy fieldz : arr2)
    (fieldtype : field_type) :
  1 ≤ nx cfg → 1 ≤ ny cfg →
  metric_ok cfg m → geometry_ok cfg geo →
  field_on cfg fieldtype fieldx fieldy fieldz →
  field_on cfg (dual_type fieldtype)
    (curl cfg m fieldx fieldy fieldz fieldtype).1.1
    (curl cfg m fieldx fieldy fieldz fieldtype).1.2
    (curl cfg m fieldx fieldy fieldz fieldtype).2
  ∧ field_on cfg (dual_type fieldtype)
      (Staggered.curl cfg geo fieldx fieldy fieldz fieldtype).1.1
      (Staggered.curl cfg geo fieldx fieldy fieldz fieldtype).1.2
      (Staggered.curl cfg geo fieldx fieldy fieldz fieldtype).2
  ∧ on_grid cfg (div_grid fieldtype)
      (Staggered.div cfg geo fieldx fieldy fieldz fieldtype)
  ∧ field_on cfg fieldtype
      (Staggered.cartesian_to_general cfg geo fieldx fieldy fieldz fieldtype).1.1
      (Staggered.cartesian_to_general cfg geo fieldx fieldy fieldz fieldtype).1.2
      (Staggered.cartesian_to_general cfg geo fieldx fieldy fieldz fieldtype).2
  ∧ field_on cfg fieldtype
      (Staggered.general_to_cartesian cfg geo fieldx fieldy fieldz fieldtype).1.1
      (Staggered.general_to_cartesian cfg geo fieldx fieldy fieldz fieldtype).1.2
      (Staggered.general_to_cartesian cfg geo fieldx fieldy fieldz fieldtype).2.
Proof.
  intros Hnx Hny Hm Hgeo Hf.
  split; [by apply curl_on|].
  split; [by apply staggered_curl_on|].
  split; [by apply staggered_div_on|].
  split; [by apply cartesian_to_general_on|by apply general_to_cartesian_on].
Qed.

Lemma field_operators_keep_grids_witness :
  field_on cfg22 (dual_type B)
    (curl cfg22 (flat_metric cfg22) (ones2 2 3) (zeros2 3 2) (ones2 3 3) B).1.1
    (curl cfg22 (flat_metric cfg22) (ones2 2 3) (zeros2 3 2) (ones2 3 3) B).1.2
    (curl cfg22 (flat_metric cfg22) (ones2 2 3) (zeros2 3 2) (ones2 3 3) B).2
  ∧ field_on cfg22 (dual_type B)
      (Staggered.curl cfg22 (uniform_geometry cfg22 point_example)
         (ones2 2 3) (zeros2 3 2) (ones2 3 3) B).1.1
      (Staggered.curl cfg22 (uniform_geometry cfg22 point_example)
         (ones2 2 3) (zeros2 3 2) (ones2 3 3) B).1.2
      (Staggered.curl cfg22 (uniform_geometry cfg22 point_example)
         (ones2 2 3) (zeros2 3 2) (ones2 3 3) B).2
  ∧ on_grid cfg22 (div_grid B)
      (Staggered.div cfg22 (uniform_geometry cfg22 point_example)
         (ones2 2 3) (zeros2 3 2) (ones2 3 3) B)
  ∧ field_on cfg22 B
      (Staggered.cartesian_to_general cfg22 (uniform_geometry cfg22 point_example)
         (ones2 2 3) (zeros2 3 2) (ones2 3 3) B).1.1
      (Staggered.cartesian_to_general cfg22 (uniform_geometry cfg22 point_example)
         (ones2 2 3) (zeros2 3 2) (ones2 3 3) B).1.2
      (Staggered.cartesian_to_general cfg22 (uniform_geometry cfg22 point_example)
         (ones2 2 3) (zeros2 3 2) (ones2 3 3) B).2
  ∧ field_on cfg22 B
      (Staggered.general_to_cartesian cfg22 (uniform_geometry cfg22 point_example)
         (ones2 2 3) (zeros2 3 2) (ones2 3 3) B).1.1
      (Staggered.general_to_cartesian cfg22 (uniform_geometry cfg22 point_example)
         (ones2 2 3) (zeros2 3 2) (ones2 3 3) B).1.2
      (Staggered.general_to_cartesian cfg22 (uniform_geometry cfg22 point_example)
         (ones2 2 3) (zeros2 3 2) (ones2 3 3) B).2.
Proof.
  apply (field_operators_keep_grids cfg22 (flat_metric cfg22)
           (uniform_geometry cfg22 point_example)
           (ones2 2 3) (zeros2 3 2) (ones2 3 3) B).
  - simpl. lia.
  - simpl. lia.
  - apply flat_metric_ok.
  - exact (proj1 geometry_example_ok).
  - split; [apply shape2_ones2|]. split; [apply shape2_zeros2|apply shape2_ones2].
Defined.

Local Close Scope Qc_scope.
Local Open Scope nat_scope.

(** * Calls that return

    What a subscript was, given that the access did not raise. *)

Lemma py_index_Some n (i : Z) k :
  py_index n i = Some k →
  k < n ∧ ((0 ≤ i)%Z → (i < Z.of_nat n)%Z ∧ k = Z.to_nat i).
Proof.
  unfold py_index. intros H. repeat case_decide; simplify_eq; split; lia.
Qed.

Lemma get2_Some r c (a : arr2) (i j : Z) (val : Qc) :
  shape2 r c a → get2 a i j = Some val →
  (∃ ki kj, ki < r ∧ kj < c ∧ val = at2 a ki kj)
  ∧ ((0 ≤ i)%Z → (i < Z.of_nat r)%Z) ∧ ((0 ≤ j)%Z → (j < Z.of_nat c)%Z).
Proof.
  intros [Hr Hc] H. unfold get2 in H.
  destruct (py_index (length a) i) as [ki|] eqn:Hki; [|done]. simpl in H.
  destruct (a !! ki) as [row|] eqn:Hrow; [|done]. simpl in H.
  destruct (py_index (length row) j) as [kj|] eqn:Hkj; [|done]. simpl in H.
  apply py_index_Some in Hki as [Hki1 Hki2].
  apply py_index_Some in Hkj as [Hkj1 Hkj2].
  assert (length row = c) as Hlen
    by (by eapply (Forall_lookup_1 _ _ _ _ Hc)).
  split; [|split].
  - exists ki, kj. split; [lia|]. split; [lia|].
    unfold at2, row_of, nth0. rewrite Hrow. simpl. by rewrite H.
  - intros Hi. destruct (Hki2 Hi). lia.
  - intros Hj. destruct (Hkj2 Hj). lia.
Qed.

Lemma add_at_Some r c (a a' : arr2) (i j : Z) (val : Qc) :
  shape2 r c a → add_at a i j val = Some a' →
  shape2 r c a'
  ∧ ((0 ≤ i)%Z → (i < Z.of_nat r)%Z) ∧ ((0 ≤ j)%Z → (j < Z.of_nat c)%Z).
Proof.
  intros Ha H. pose proof Ha as [Hr Hc]. unfold add_at in H.
  destruct (py_index (length a) i) as [ki|] eqn:Hki; [|done]. simpl in H.
  destruct (a !! ki) as [row|] eqn:Hrow; [|done]. simpl in H.
  destruct (py_index (length row) j) as [kj|] eqn:Hkj; [|done]. simpl in H.
  destruct (row !! kj) as [old|] eqn:Hold; [|done]. simpl in H.
  injection H as <-.
  apply py_index_Some in Hki as [Hki1 Hki2].
  apply py_index_Some in Hkj as [Hkj1 Hkj2].
  assert (length row = c) as Hlen
    by (by eapply (Forall_lookup_1 _ _ _ _ Hc)).
  split; [|split].
  - apply shape2_insert_row; [done|]. by rewrite length_insert.
  - intros Hi. destruct (Hki2 Hi). lia.
  - intros Hj. destruct (Hkj2 Hj). lia.
Qed.

Lemma scatter_Some r c (a a' : arr2) (s : stencil) (val : Qc → Qc) :
  shape2 r c a → scatter a s val = Some a' →
  shape2 r c a' ∧ (stencil_nonneg s → stencil_within r c s).
Proof.
  intros Ha H. unfold scatter in H.
  destruct (add_at a (i1 s) (j1 s) _) as [a1|] eqn:H1; [|done]. simpl in H.
  destruct (add_at a1 (i2 s) (j1 s) _) as [a2|] eqn:H2; [|done]. simpl in H.
  destruct (add_at a2 (i1 s) (j2 s) _) as [a3|] eqn:H3; [|done]. simpl in H.
  apply (add_at_Some r c) in H1 as (Ha1 & Hi1 & Hj1); [|done].
  apply (add_at_Some r c) in H2 as (Ha2 & Hi2 & _); [|done].
  apply (add_at_Some r c) in H3 as (Ha3 & _ & Hj2); [|done].
  apply (add_at_Some r c) in H as (Ha4 & _ & _); [|done].
  split; [done|]. intros (N1 & N2 & N3 & N4). unfold stencil_within.
  specialize (Hi1 N1). specialize (Hi2 N2). specialize (Hj1 N3).
  specialize (Hj2 N4). lia.
Qed.

Lemma interpolate_Some r c (f : arr2) (s : stencil) (val : Qc) :
  shape2 r c f → interpolate f s = Some val →
  (stencil_nonneg s → stencil_within r c s)
  ∧ ∃ f11 f21 f12 f22 : Qc,
      val = (wx1 s * wy1 s * f11 + wx2 s * wy1 s * f21
             + wx1 s * wy2 s * f12 + wx2 s * wy2 s * f22)%Qc
      ∧ Forall (λ e, ∃ ki kj, ki < r ∧ kj < c ∧ e = at2 f ki kj)
          [f11; f21; f12; f22].
Proof.
  intros Hf H. unfold interpolate in H.
  destruct (get2 f (i1 s) (j1 s)) as [f11|] eqn:H1; [|done]. simpl in H.
  destruct (get2 f (i2 s) (j1 s)) as [f21|] eqn:H2; [|done]. simpl in H.
  destruct (get2 f (i1 s) (j2 s)) as [f12|] eqn:H3; [|done]. simpl in H.
  destruct (get2 f (i2 s) (j2 s)) as [f22|] eqn:H4; [|done]. simpl in H.
  injection H as <-.
  apply (get2_Some r c) in H1 as (E1 & Hi1 & Hj1); [|done].
  apply (get2_Some r c) in H2 as (E2 & Hi2 & _); [|done].
  apply (get2_Some r c) in H3 as (E3 & _ & Hj2); [|done].
  apply (get2_Some r c) in H4 as (E4 & _ & _); [|done].
  split.
  - intros (N1 & N2 & N3 & N4). unfold stencil_within.
    specialize (Hi1 N1). specialize (Hi2 N2). specialize (Hj1 N3).
    specialize (Hj2 N4). lia.
  - exists f11, f21, f12, f22. split; [done|].
    repeat (constructor; [assumption|]). constructor.
Qed.

(** A loop that returns kept every invariant that its body keeps. *)
Lemma for_each_Some {S} (P : S → Prop) (body : nat → S → option S)
    (order : list nat) (s s' : S) :
  (∀ i s s', P s → body i s = Some s' → P s') →
  P s → for_each body order s = Some s' →
  P s' ∧ ∀ i, i ∈ order → ∃ s1 s2, P s1 ∧ body i s1 = Some s2.
Proof.
  intros Hbody. revert s. induction order as [|i order IH]; intros s Hs H;
    simpl in H.
  - injection H as <-. split; [done|]. intros i Hi. by apply elem_of_nil in Hi.
  - destruct (body i s) as [s1|] eqn:Hb; [|done]. simpl in H.
    destruct (IH s1 (Hbody i s s1 Hs Hb) H) as [Hs' Hall].
    split; [done|]. intros k Hk. apply elem_of_cons in Hk as [->|Hk]; eauto.
Qed.

(** ** Subscripts that cannot be negative *)

Lemma Qcfloor_nonneg (a : Qc) : (0 ≤ a)%Qc → (0 ≤ Qcfloor a)%Z.
Proof.
  intros Ha. pose proof (Qcfloor_lt a) as Hlt.
  assert (Qc_of_Z (-1) < Qc_of_Z (Qcfloor a))%Qc as H.
  { toQ. change (inject_Z (-1)) with (-1 # 1)%Q. lra. }
  apply (proj2 (Z2Qc_inj_lt _ _)) in H. lia.
Qed.

Lemma Qcdiv_nonneg (a d : Qc) : (0 ≤ a)%Qc → (0 < d)%Qc → (0 ≤ a / d)%Qc.
Proof.
  intros Ha Hd.
  assert (d ≠ 0%Qc) as Hd0 by (intros ->; by apply (Qclt_not_eq 0 0)).
  apply (Qcmult_le_mono_pos_r _ _ d Hd).
  rewrite Qcdiv_mult_cancel by done. by rewrite Qcmult_0_l.
Qed.

Section Nonneg.
Context (cfg : config).
Hypothesis Hnx : 1 ≤ nx cfg.
Hypothesis Hny : 1 ≤ ny cfg.
Hypothesis HLx : (0 < Lx cfg)%Qc.
Hypothesis HLy : (0 < Ly cfg)%Qc.

Lemma cell_nonneg_x a : (0 ≤ a)%Qc → (0 ≤ Qcfloor (a / dx cfg))%Z.
Proof. intros. apply Qcfloor_nonneg, Qcdiv_nonneg; [done|by apply dx_pos]. Qed.
Lemma cell_nonneg_y a : (0 ≤ a)%Qc → (0 ≤ Qcfloor (a / dy cfg))%Z.
Proof. intros. apply Qcfloor_nonneg, Qcdiv_nonneg; [done|by apply dy_pos]. Qed.

Lemma gather_stencil_nonneg gridtype xk yk :
  (0 ≤ xk)%Qc → (0 ≤ yk)%Qc →
  stencil_nonneg (gather_stencil cfg gridtype xk yk).
Proof.
  intros Hx0 Hy0.
  pose proof (cell_nonneg_x xk Hx0). pose proof (cell_nonneg_y yk Hy0).
  unfold stencil_nonneg, gather_stencil.
  destruct gridtype; cbn [i1 i2 j1 j2]; rewrite ?Qcminus_0_r;
    repeat split; try (apply Z.mod_pos_bound; unfold nxc, nyc; lia); lia.
Qed.

Lemma deposit_stencil_LR_nonneg xk yk :
  (0 ≤ xk)%Qc → stencil_nonneg (deposit_stencil_LR cfg xk yk).
Proof.
  intros Hx0. pose proof (cell_nonneg_x xk Hx0).
  unfold stencil_nonneg, deposit_stencil_LR. cbn [i1 i2 j1 j2].
  case_decide;
    repeat split; try (apply Z.mod_pos_bound; unfold nxc, nyc; lia); lia.
Qed.

Lemma deposit_stencil_UD_nonneg xk yk :
  (0 ≤ yk)%Qc → stencil_nonneg (deposit_stencil_UD cfg xk yk).
Proof.
  intros Hy0. pose proof (cell_nonneg_y yk Hy0).
  unfold stencil_nonneg, deposit_stencil_UD. cbn [i1 i2 j1 j2].
  case_decide;
    repeat split; try (apply Z.mod_pos_bound; unfold nxc, nyc; lia); lia.
Qed.

End Nonneg.

Local Close Scope Qc_scope.
Local Open Scope nat_scope.

(** * The gather and the deposit, when they return *)

Lemma grid_to_particle_Some cfg (xk yk : vec) (f : arr2) gridtype (fp : vec) :
  grid_to_particle cfg xk yk f gridtype = Some fp →
  length fp = npart cfg
  ∧ ∀ p, p < npart cfg →
      ∃ xp yp val, xk !! p = Some xp ∧ yk !! p = Some yp ∧ fp !! p = Some val
        ∧ interpolate f (gather_stencil cfg gridtype xp yp) = Some val.
Proof.
  unfold grid_to_particle. intros H.
  apply mapM_seq_Some in H as [Hlen Hall]. split; [done|].
  intros p Hp. destruct (Hall p Hp) as (val & Hval & Hbody).
  destruct (xk !! p) as [xp|]; [|done].
  destruct (yk !! p) as [yp|]; [|done].
  cbn [mbind option_bind] in Hbody. eauto 10.
Qed.

Lemma deposit_J_body_Some cfg xk yk uk vk wk qk i J J' :
  J_shapes cfg J → deposit_J_body cfg xk yk uk vk wk qk i J = Some J' →
  J_shapes cfg J'
  ∧ ∃ xi yi, xk !! i = Some xi ∧ yk !! i = Some yi
      ∧ (stencil_nonneg (deposit_stencil_LR cfg xi yi) →
         stencil_within (nxn cfg) (nyc cfg) (deposit_stencil_LR cfg xi yi))
      ∧ (stencil_nonneg (deposit_stencil_UD cfg xi yi) →
         stencil_within (nxc cfg) (nyn cfg) (deposit_stencil_UD cfg xi yi)).
Proof.
  destruct J as [[Jx Jy] Jz]. intros (HJx & HJy & HJz) H.
  cbn [fst snd] in HJx, HJy, HJz. unfold deposit_J_body in H.
  destruct (xk !! i) as [xi|]; [|done]. destruct (yk !! i) as [yi|]; [|done].
  destruct (uk !! i) as [ui|]; [|done]. destruct (vk !! i) as [vi|]; [|done].
  destruct (wk !! i) as [wi|]; [|done]. destruct (qk !! i) as [qi|]; [|done].
  cbn [mbind option_bind] in H.
  destruct (scatter Jx _ _) as [Jx'|] eqn:Hx; [|done].
  cbn [mbind option_bind] in H.
  destruct (scatter Jy _ _) as [Jy'|] eqn:Hy; [|done].
  cbn [mbind option_bind] in H.
  destruct (scatter Jz _ _) as [Jz'|] eqn:Hz; [|done].
  cbn [mbind option_bind] in H. injection H as <-.
  apply (scatter_Some (nxn cfg) (nyc cfg)) in Hx as [HJx' Wx]; [|exact HJx].
  apply (scatter_Some (nxc cfg) (nyn cfg)) in Hy as [HJy' Wy]; [|exact HJy].
  apply (scatter_Some (nxc cfg) (nyc cfg)) in Hz as [HJz' _]; [|exact HJz].
  split; [split; [exact HJx'|split; [exact HJy'|exact HJz']]|].
  exists xi, yi. done.
Qed.

(** The arrays of a deposit that returns, before the periodic copies. *)
Lemma deposit_loop_Some cfg xk yk uk vk wk qk order J :
  for_each (S := arr2 * arr2 * arr2) (deposit_J_body cfg xk yk uk vk wk qk) order
    (zeros2 (nxn cfg) (nyc cfg), zeros2 (nxc cfg) (nyn cfg),
     zeros2 (nxc cfg) (nyc cfg)) = Some J →
  J_shapes cfg J
  ∧ ∀ i, i ∈ order →
      ∃ xi yi, xk !! i = Some xi ∧ yk !! i = Some yi
        ∧ (stencil_nonneg (deposit_stencil_LR cfg xi yi) →
           stencil_within (nxn cfg) (nyc cfg) (deposit_stencil_LR cfg xi yi))
        ∧ (stencil_nonneg (deposit_stencil_UD cfg xi yi) →
           stencil_within (nxc cfg) (nyn cfg) (deposit_stencil_UD cfg xi yi)).
Proof.
  intros H.
  apply (for_each_Some (J_shapes cfg)) in H as [HJ Hall].
  - split; [exact HJ|]. intros i Hi.
    destruct (Hall i Hi) as (J1 & J2 & HJ1 & Hb).
    by destruct (deposit_J_body_Some _ _ _ _ _ _ _ _ _ _ HJ1 Hb) as [_ ?].
  - intros i J1 J2 HJ1 Hb.
    by destruct (deposit_J_body_Some _ _ _ _ _ _ _ _ _ _ HJ1 Hb) as [? _].
  - repeat split; apply shape2_zeros2.
Qed.

Lemma particle_to_grid_J_Some cfg xk yk uk vk wk qk Jx Jy Jz :
  1 ≤ nx cfg → 1 ≤ ny cfg →
  particle_to_grid_J cfg xk yk uk vk wk qk = Some (Jx, Jy, Jz) →
  J_shapes cfg (Jx, Jy, Jz)
  ∧ row_of Jx (nxn cfg - 1) = row_of Jx 0
  ∧ (∀ i, i < nxc cfg → at2 Jy i (nyn cfg - 1) = at2 Jy i 0)
  ∧ ∀ p, p < npart cfg →
      ∃ xp yp, xk !! p = Some xp ∧ yk !! p = Some yp
        ∧ (stencil_nonneg (deposit_stencil_LR cfg xp yp) →
           stencil_within (nxn cfg) (nyc cfg) (deposit_stencil_LR cfg xp yp))
        ∧ (stencil_nonneg (deposit_stencil_UD cfg xp yp) →
           stencil_within (nxc cfg) (nyn cfg) (deposit_stencil_UD cfg xp yp)).
Proof.
  intros Hnx Hny H. unfold particle_to_grid_J, particle_to_grid_J_in in H.
  cbv zeta in H.
  destruct (for_each _ _ _) as [[[Jx0 Jy0] Jz0]|] eqn:Hloop; [|done].
  cbn [mbind option_bind] in H. injection H as <- <- <-.
  apply deposit_loop_Some in Hloop as [(HJx & HJy & HJz) Hall].
  cbn [fst snd] in HJx, HJy, HJz. unfold on_grid in *.
  cbn [grid_shape fst snd] in *.
  assert (nxn cfg - 1 = nxc cfg) as Hlast_x by (unfold nxn; lia).
  assert (nyn cfg - 1 = nyc cfg) as Hlast_y by (unfold nyn; lia).
  rewrite Hlast_x, Hlast_y.
  split; [|split; [|split]].
  - unfold J_shapes, on_grid. cbn [grid_shape fst snd].
    split; [|split; [|exact HJz]].
    + apply shape2_insert_row; [done|].
      apply (length_row_of (nxn cfg)); [done|]. unfold nxn. lia.
    + by apply shape2_fmap_insert.
  - destruct HJx as [Hr Hc]. unfold row_of.
    rewrite list_lookup_insert_eq by (unfold nxn in Hr; lia).
    rewrite list_lookup_insert_ne by (unfold nxc in *; lia).
    done.
  - intros i Hi.
    destruct (shape2_lookup _ _ Jy0 i HJy Hi) as (row & Hrow & Hlen).
    unfold at2, row_of. rewrite list_lookup_fmap, Hrow. simpl.
    unfold nth0 at 1 3.
    rewrite list_lookup_insert_eq by (unfold nyn in Hlen; lia).
    rewrite list_lookup_insert_ne by (unfold nyc in *; lia).
    done.
  - intros p Hp. apply Hall. apply elem_of_seq. lia.
Qed.

(** X1.  When [grid_to_particle] returns, it returns [npart] values, each
    the combination of four entries of the field with the weights of its
    particle; the four weights lie in [0, 1] and sum to 1, wherever the
    particle is.  For a particle with coordinates that are not negative, the
    four subscript pairs that were read are subscripts of the field array
    counted from its start: no entry was read from the end of an axis through
    a negative subscript. *)
Theorem grid_to_particle_reads_in_range (cfg : config) (gridtype : grid)
    (f : arr2) (xk yk fp : vec) :
  1 ≤ nx cfg → 1 ≤ ny cfg → (0 < Lx cfg)%Qc → (0 < Ly cfg)%Qc →
  on_grid cfg gridtype f →
  grid_to_particle cfg xk yk f gridtype = Some fp →
  length fp = npart cfg
  ∧ ∀ p, p < npart cfg →
      ∃ xp yp, xk !! p = Some xp ∧ yk !! p = Some yp
        ∧ fp !! p = interpolate f (gather_stencil cfg gridtype xp yp)
        ∧ weights_ok (gather_stencil cfg gridtype xp yp)
        ∧ ((0 ≤ xp)%Qc → (0 ≤ yp)%Qc →
           stencil_within (rows cfg gridtype) (cols cfg gridtype)
             (gather_stencil cfg gridtype xp yp)).
Proof.
  intros Hnx Hny HLx HLy Hf H.
  apply grid_to_particle_Some in H as [Hlen Hall]. split; [exact Hlen|].
  intros p Hp. destruct (Hall p Hp) as (xp & yp & val & Hxp & Hyp & Hval & Hi).
  exists xp, yp. split; [exact Hxp|]. split; [exact Hyp|].
  split; [by rewrite Hval, Hi|].
  split; [apply gather_stencil_weights_ok|].
  intros Hx0 Hy0.
  destruct (interpolate_Some _ _ f _ val Hf Hi) as [Hw _].
  apply Hw. by apply gather_stencil_nonneg.
Qed.

Lemma grid_to_particle_reads_in_range_witness :
  ∃ fp, grid_to_particle cfg22 [decimal 3 2] [decimal 1 4]
          [[0; 1]; [1; 2]; [2; 0]]%Qc LR = Some fp
    ∧ length fp = npart cfg22
    ∧ ∀ p, p < npart cfg22 →
        ∃ xp yp, [decimal 3 2] !! p = Some xp ∧ [decimal 1 4] !! p = Some yp
          ∧ fp !! p = interpolate [[0; 1]; [1; 2]; [2; 0]]%Qc
                        (gather_stencil cfg22 LR xp yp)
          ∧ weights_ok (gather_stencil cfg22 LR xp yp)
          ∧ ((0 ≤ xp)%Qc → (0 ≤ yp)%Qc →
             stencil_within (rows cfg22 LR) (cols cfg22 LR)
               (gather_stencil cfg22 LR xp yp)).
Proof.
  assert (on_grid cfg22 LR [[0; 1]; [1; 2]; [2; 0]]%Qc) as Hf.
  { split; [reflexivity|]. repeat (constructor; [reflexivity|]). constructor. }
  destruct (grid_to_particle cfg22 [decimal 3 2] [decimal 1 4]
              [[0; 1]; [1; 2]; [2; 0]]%Qc LR) as [fp|] eqn:Hfp.
  - exists fp. split; [reflexivity|].
    apply (grid_to_particle_reads_in_range cfg22 LR [[0; 1]; [1; 2]; [2; 0]]%Qc
             [decimal 3 2] [decimal 1 4] fp).
    + simpl. lia.
    + simpl. lia.
    + exact cfg22_Lx_pos.
    + exact cfg22_Ly_pos.
    + exact Hf.
    + exact Hfp.
  - vm_compute in Hfp. discriminate Hfp.
Defined.

(** X2.  When [particle_to_grid_J] returns, [Jx], [Jy] and [Jz] have the
    shapes of the grids LR, UD and C, the last row of [Jx] is a copy of its
    first row and the last column of [Jy] a copy of its first column.  The
    subscripts of the deposit on C are always subscripts of [Jz]; for a
    particle with [x >= 0] the four subscript pairs of the deposit on LR were
    subscripts of [Jx] counted from its start, and for a particle with
    [y >= 0] those of the deposit on UD were subscripts of [Jy]: nothing was
    added to an entry reached from the end of an axis through a negative
    subscript. *)
Theorem particle_to_grid_J_writes_in_range (cfg : config)
    (xk yk uk vk wk qk : vec) (Jx Jy Jz : arr2) :
  1 ≤ nx cfg → 1 ≤ ny cfg → (0 < Lx cfg)%Qc → (0 < Ly cfg)%Qc →
  particle_to_grid_J cfg xk yk uk vk wk qk = Some (Jx, Jy, Jz) →
  on_grid cfg LR Jx ∧ on_grid cfg UD Jy ∧ on_grid cfg C Jz
  ∧ row_of Jx (nxn cfg - 1) = row_of Jx 0
  ∧ (∀ i, i < nxc cfg → at2 Jy i (nyn cfg - 1) = at2 Jy i 0)
  ∧ ∀ p, p < npart cfg →
      ∃ xp yp, xk !! p = Some xp ∧ yk !! p = Some yp
        ∧ stencil_within (nxc cfg) (nyc cfg) (deposit_stencil_C cfg xp yp)
        ∧ ((0 ≤ xp)%Qc →
           stencil_within (nxn cfg) (nyc cfg) (deposit_stencil_LR cfg xp yp))
        ∧ ((0 ≤ yp)%Qc →
           stencil_within (nxc cfg) (nyn cfg) (deposit_stencil_UD cfg xp yp)).
Proof.
  intros Hnx Hny HLx HLy H.
  apply particle_to_grid_J_Some in H
    as ((HJx & HJy & HJz) & Hrow & Hcol & Hall); [|exact Hnx|exact Hny].
  cbn [fst snd] in HJx, HJy, HJz.
  split; [exact HJx|]. split; [exact HJy|]. split; [exact HJz|].
  split; [exact Hrow|]. split; [exact Hcol|].
  intros p Hp. destruct (Hall p Hp) as (xp & yp & Hxp & Hyp & WLR & WUD).
  exists xp, yp. split; [exact Hxp|]. split; [exact Hyp|].
  split; [by apply deposit_stencil_C_within|].
  split.
  - intros Hx0. apply WLR. by apply deposit_stencil_LR_nonneg.
  - intros Hy0. apply WUD. by apply deposit_stencil_UD_nonneg.
Qed.

Lemma particle_to_grid_J_writes_in_range_witness :
  ∃ Jx Jy Jz,
    particle_to_grid_J cfg22 [decimal 3 2] [decimal 1 4] [1%Qc] [1%Qc] [1%Qc]
      [1%Qc] = Some (Jx, Jy, Jz)
    ∧ on_grid cfg22 LR Jx ∧ on_grid cfg22 UD Jy ∧ on_grid cfg22 C Jz
    ∧ row_of Jx (nxn cfg22 - 1) = row_of Jx 0
    ∧ (∀ i, i < nxc cfg22 → at2 Jy i (nyn cfg22 - 1) = at2 Jy i 0)
    ∧ ∀ p, p < npart cfg22 →
        ∃ xp yp, [decimal 3 2] !! p = Some xp ∧ [decimal 1 4] !! p = Some yp
          ∧ stencil_within (nxc cfg22) (nyc cfg22) (deposit_stencil_C cfg22 xp yp)
          ∧ ((0 ≤ xp)%Qc →
             stencil_within (nxn cfg22) (nyc cfg22)
               (deposit_stencil_LR cfg22 xp yp))
          ∧ ((0 ≤ yp)%Qc →
             stencil_within (nxc cfg22) (nyn cfg22)
               (deposit_stencil_UD cfg22 xp yp)).
Proof.
  destruct (particle_to_grid_J cfg22 [decimal 3 2] [decimal 1 4] [1%Qc] [1%Qc]
              [1%Qc] [1%Qc]) as [[[Jx Jy] Jz]|] eqn:HJ.
  - exists Jx, Jy, Jz. split; [reflexivity|].
    apply (particle_to_grid_J_writes_in_range cfg22 [decimal 3 2] [decimal 1 4]
             [1%Qc] [1%Qc] [1%Qc] [1%Qc] Jx Jy Jz).
    + simpl. lia.
    + simpl. lia.
    + exact cfg22_Lx_pos.
    + exact cfg22_Ly_pos.
    + exact HJ.
  - vm_compute in HJ. discriminate HJ.
Defined.

(** X19.  The current that [particle_to_grid_J] returns for particles in
    [0, Lx) x [0, Ly) is the current of the particles: the total of [Jx] over
    its distinct faces (all rows but the last), of [Jy] over its distinct
    faces (all columns but the last) and of [Jz] over the cell centres are
    the sums of [q*u], [q*v] and [q*w] over the particles divided by
    [dx*dy]. *)
Theorem deposited_current_totals (cfg : config) (xk yk uk vk wk qk : vec)
    (Jx Jy Jz : arr2) :
  1 ≤ nx cfg → 1 ≤ ny cfg → (0 < Lx cfg)%Qc → (0 < Ly cfg)%Qc →
  particles_in_domain cfg xk yk →
  length uk = npart cfg → length vk = npart cfg → length wk = npart cfg →
  length qk = npart cfg →
  particle_to_grid_J cfg xk yk uk vk wk qk = Some (Jx, Jy, Jz) →
  sum2 (interior cfg Jx) = total_current cfg qk uk
  ∧ sum2 (interior cfg Jy) = total_current cfg qk vk
  ∧ sum2 Jz = total_current cfg qk wk.
Proof.
  intros Hnx Hny HLx HLy Hd Hlu Hlv Hlw Hlq H.
  destruct (particle_to_grid_J_totals cfg Hnx Hny HLx HLy xk yk uk vk wk qk
              Hd Hlu Hlv Hlw Hlq)
    as (Jx' & Jy' & Jz' & H' & Sx & Sy & Sz & _).
  rewrite H in H'. injection H' as <- <- <-. done.
Qed.

Lemma deposited_current_totals_witness :
  ∃ Jx Jy Jz,
    particle_to_grid_J cfg22 [decimal 3 2] [decimal 1 4] [1%Qc] [2%Qc]
      [(-1)%Qc] [1%Qc] = Some (Jx, Jy, Jz)
    ∧ sum2 (interior cfg22 Jx) = total_current cfg22 [1%Qc] [1%Qc]
    ∧ sum2 (interior cfg22 Jy) = total_current cfg22 [1%Qc] [2%Qc]
    ∧ sum2 Jz = total_current cfg22 [1%Qc] [(-1)%Qc].
Proof.
  destruct (particle_to_grid_J cfg22 [decimal 3 2] [decimal 1 4] [1%Qc] [2%Qc]
              [(-1)%Qc] [1%Qc]) as [[[Jx Jy] Jz]|] eqn:HJ.
  - exists Jx, Jy, Jz. split; [reflexivity|].
    apply (deposited_current_totals cfg22 [decimal 3 2] [decimal 1 4]
             [1%Qc] [2%Qc] [(-1)%Qc] [1%Qc] Jx Jy Jz).
    + simpl. lia.
    + simpl. lia.
    + exact cfg22_Lx_pos.
    + exact cfg22_Ly_pos.
    + exact particles_example.
    + reflexivity.
    + reflexivity.
    + reflexivity.
    + reflexivity.
    + exact HJ.
  - vm_compute in HJ. discriminate HJ.
Defined.

(** X20.  The values that [grid_to_particle] returns never leave the range
    of the field, wherever the particles are: if every entry of the field
    lies between [lo] and [hi], so does every value that was gathered; in
    particular a field with the same value everywhere is gathered as that
    value. *)
Theorem gathered_values_within_field_range (cfg : config) (xk yk : vec)
    (f : arr2) (gridtype : grid) (lo hi : Qc) (fp : vec) :
  on_grid cfg gridtype f →
  (∀ i j, i < rows cfg gridtype → j < cols cfg gridtype →
          (lo ≤ at2 f i j)%Qc ∧ (at2 f i j ≤ hi)%Qc) →
  grid_to_particle cfg xk yk f gridtype = Some fp →
  length fp = npart cfg
  ∧ ∀ p val, fp !! p = Some val → (lo ≤ val)%Qc ∧ (val ≤ hi)%Qc.
Proof.
  intros Hf Hb H.
  apply grid_to_particle_Some in H as [Hlen Hall]. split; [exact Hlen|].
  intros p val Hp.
  assert (p < npart cfg) as Hlt by (apply lookup_lt_Some in Hp; lia).
  destruct (Hall p Hlt) as (xp & yp & val' & _ & _ & Hval & Hi).
  rewrite Hp in Hval. injection Hval as <-.
  destruct (interpolate_Some _ _ f _ val Hf Hi)
    as (_ & f11 & f21 & f12 & f22 & -> & Hall4).
  destruct (gather_stencil_weights_ok cfg gridtype xp yp)
    as ((W1 & _) & (W2 & _) & (W3 & _) & (W4 & _) & Wsum).
  apply list.Forall_cons in Hall4 as [(a1 & b1 & ? & ? & ->) Hall4].
  apply list.Forall_cons in Hall4 as [(a2 & b2 & ? & ? & ->) Hall4].
  apply list.Forall_cons in Hall4 as [(a3 & b3 & ? & ? & ->) Hall4].
  apply list.Forall_cons in Hall4 as [(a4 & b4 & ? & ? & ->) _].
  unfold rows, cols in Hb.
  apply convex_combination; try assumption; apply Hb; assumption.
Qed.

Lemma gathered_values_within_field_range_witness :
  ∃ fp, grid_to_particle cfg22 [decimal (-1) 4] [decimal 7 2]
          [[0; 1]; [1; 2]]%Qc C = Some fp
    ∧ length fp = npart cfg22
    ∧ ∀ p val, fp !! p = Some val → (0 ≤ val)%Qc ∧ (val ≤ 2)%Qc.
Proof.
  destruct (grid_to_particle cfg22 [decimal (-1) 4] [decimal 7 2]
              [[0; 1]; [1; 2]]%Qc C) as [fp|] eqn:Hfp.
  - exists fp. split; [reflexivity|].
    apply (gathered_values_within_field_range cfg22 [decimal (-1) 4]
             [decimal 7 2] [[0; 1]; [1; 2]]%Qc C 0%Qc 2%Qc fp).
    + split; [reflexivity|]. repeat (constructor; [reflexivity|]). constructor.
    + intros i j Hi Hj. unfold rows, cols in Hi, Hj. simpl in Hi, Hj.
      destruct i as [|[|i]]; [| |lia]; (destruct j as [|[|j]]; [| |lia]);
        vm_compute; split; discriminate.
    + exact Hfp.
  - vm_compute in Hfp. discriminate Hfp.
Defined.

Local Close Scope Qc_scope.
Local Open Scope nat_scope.

(** * The solver of the flat-grid code, when it returns *)

Lemma residual_Some cfg m st xk yk :
  1 ≤ nx cfg → 1 ≤ ny cfg → (0 < Lx cfg)%Qc → (0 < Ly cfg)%Qc →
  metric_ok cfg m → state_ok cfg st → length xk = krylov_len cfg →
  residual cfg m st xk = Some yk → length yk = krylov_len cfg.
Proof.
  intros Hnx Hny HLx HLy Hm Hst Hxk H.
  destruct (residual_total cfg Hnx Hny HLx HLy m st xk Hm Hst Hxk)
    as (yk' & H' & Hlen).
  rewrite H in H'. by injection H' as <-.
Qed.







(** X13.  For fields and metric arrays of the shapes of their grids, particle
    arrays of [npart] entries and a trial vector of the Krylov length, what
    [residual] returns is again a vector of the Krylov length: the three
    field residuals have the shapes of LR, UD and C and the three velocity
    residuals [npart] entries. *)
Theorem residual_result_is_krylov_vector (cfg : config) (m : metric) (st : state)
    (xk yk : vec) :
  1 ≤ nx cfg → 1 ≤ ny cfg → (0 < Lx cfg)%Qc → (0 < Ly cfg)%Qc →
  metric_ok cfg m → state_ok cfg st → length xk = krylov_len cfg →
  residual cfg m st xk = Some yk →
  length yk = krylov_len cfg
  ∧ ∃ pa pb pc pu pv pw,
      krylov_to_phys cfg yk
      = (reshape2 (nxn cfg) (nyc cfg) pa, reshape2 (nxc cfg) (nyn cfg) pb,
         reshape2 (nxc cfg) (nyc cfg) pc, pu, pv, pw)
      ∧ length pa = nxn cfg * nyc cfg ∧ length pb = nxc cfg * nyn cfg
      ∧ length pc = nxc cfg * nyc cfg
      ∧ length pu = npart cfg ∧ length pv = npart cfg ∧ length pw = npart cfg.
Proof.
  intros Hnx Hny HLx HLy Hm Hst Hxk H.
  pose proof (residual_Some cfg m st xk yk Hnx Hny HLx HLy Hm Hst Hxk H) as Hl.
  split; [exact Hl|].
  destruct (krylov_pieces cfg yk Hl)
    as (pa & pb & pc & pu & pv & pw & -> & La & Lb & Lc & Lu & Lv & Lw).
  exists pa, pb, pc, pu, pv, pw.
  split; [by apply krylov_to_phys_pieces|]. done.
Qed.

Lemma residual_result_is_krylov_vector_witness :
  ∃ yk, residual cfg22 (flat_metric cfg22) st22 (ones 19) = Some yk
    ∧ length yk = krylov_len cfg22
    ∧ ∃ pa pb pc pu pv pw,
        krylov_to_phys cfg22 yk
        = (reshape2 (nxn cfg22) (nyc cfg22) pa,
           reshape2 (nxc cfg22) (nyn cfg22) pb,
           reshape2 (nxc cfg22) (nyc cfg22) pc, pu, pv, pw)
        ∧ length pa = nxn cfg22 * nyc cfg22 ∧ length pb = nxc cfg22 * nyn cfg22
        ∧ length pc = nxc cfg22 * nyc cfg22
        ∧ length pu = npart cfg22 ∧ length pv = npart cfg22
        ∧ length pw = npart cfg22.
Proof.
  destruct (residual cfg22 (flat_metric cfg22) st22 (ones 19)) as [yk|] eqn:Hyk.
  - exists yk. split; [reflexivity|].
    apply (residual_result_is_krylov_vector cfg22 (flat_metric cfg22) st22
             (ones 19) yk).
    + simpl. lia.
    + simpl. lia.
    + exact cfg22_Lx_pos.
    + exact cfg22_Ly_pos.
    + apply flat_metric_ok.
    + exact st22_ok.
    + reflexivity.
    + exact Hyk.
  - vm_compute in Hyk. discriminate Hyk.
Defined.

(** X14.  The state that a pass of the main cycle commits is well formed:
    from fields and metric arrays of the shapes of their grids and particle
    arrays of [npart] entries, what the pass returns (for any tolerance and
    any [kmax]) again has fields on their grids and particle arrays of
    [npart] entries, and the charges [q] and the charge-to-mass ratios [QM]
    are those of the state before. *)
Theorem cycle_keeps_state_well_formed (cfg : config) (tol : Qc) (kmax : nat)
    (m : metric) (st st' : state) :
  1 ≤ nx cfg → 1 ≤ ny cfg → (0 < Lx cfg)%Qc → (0 < Ly cfg)%Qc →
  metric_ok cfg m → state_ok cfg st →
  cycle_with cfg tol kmax m st = Some st' →
  state_ok cfg st' ∧ q st' = q st ∧ QM st' = QM st.
Proof.
  intros Hnx Hny HLx HLy Hm Hst H.
  destruct (cycle_with_total cfg Hnx Hny HLx HLy tol kmax m st Hm Hst)
    as (st1 & H1 & Hok & _ & Hq & HQM).
  rewrite H in H1. injection H1 as <-. done.
Qed.

Lemma cycle_keeps_state_well_formed_witness :
  ∃ st', cycle_with cfg22 tol 0 (flat_metric cfg22) st22 = Some st'
    ∧ state_ok cfg22 st' ∧ q st' = q st22 ∧ QM st' = QM st22.
Proof.
  destruct (cycle_with cfg22 tol 0 (flat_metric cfg22) st22) as [st'|] eqn:Hc.
  - exists st'. split; [reflexivity|].
    apply (cycle_keeps_state_well_formed cfg22 tol 0 (flat_metric cfg22) st22 st').
    + simpl. lia.
    + simpl. lia.
    + exact cfg22_Lx_pos.
    + exact cfg22_Ly_pos.
    + apply flat_metric_ok.
    + exact st22_ok.
    + exact Hc.
  - vm_compute in Hc. discriminate Hc.
Defined.

Local Close Scope Qc_scope.
Local Open Scope nat_scope.

(** * The curvilinear solver, when it returns *)

Lemma staggered_state_ok_shapes cfg st :
  staggered_state_ok cfg st → staggered_state_shapes cfg st.
Proof. intros (HE & HB & Hlen & _). done. Qed.

Section StaggeredReturns.
Context (cfg : config) (eps np_pi : Qc) (np_sin : Qc → Qc)
        (geo : Staggered.geometry).
Hypothesis Hnx : 1 ≤ nx cfg.
Hypothesis Hny : 1 ≤ ny cfg.
Hypothesis Hgeo : geometry_ok cfg geo.

(** What the residual returns has the Krylov length, with or without
    [perturb] and wherever the particles are. *)
Lemma staggered_residual_Some perturb st xk yk :
  staggered_state_shapes cfg st → length xk = krylov_len cfg →
  Staggered.residual cfg eps np_pi np_sin geo perturb st xk = Some yk →
  length yk = krylov_len cfg.
Proof.
  intros (HE & HB & Hlen) Hxk H.
  repeat (apply list.Forall_cons in Hlen as [? Hlen]). clear Hlen.
  cbv beta in *.
  destruct (krylov_pieces cfg xk Hxk)
    as (pa & pb & pc & pu & pv & pw & -> & La & Lb & Lc & Lu & Lv & Lw).
  unfold Staggered.residual in H. rewrite krylov_to_phys_pieces in H by done.
  pose proof (shape2_reshape2 _ _ pa La) as Sa.
  pose proof (shape2_reshape2 _ _ pb Lb) as Sb.
  pose proof (shape2_reshape2 _ _ pc Lc) as Sc.
  set (E1new := reshape2 _ _ pa) in *.
  set (E2new := reshape2 _ _ pb) in *.
  set (E3new := reshape2 _ _ pc) in *.
  cbv beta iota zeta in H.
  destruct (if perturb then _ else _) as [xgen1 ygen1] in H.
  destruct (particle_to_grid_J cfg xgen1 ygen1 pu pv pw (Staggered.q st))
    as [[[Jx Jy] Jz]|] eqn:HJ; [|done].
  cbn [mbind option_bind] in H.
  apply particle_to_grid_J_Some in HJ as ((HJx & HJy & HJz) & _);
    [|exact Hnx|exact Hny].
  cbn [fst snd] in HJx, HJy, HJz.
  assert (field_on cfg E Jx Jy Jz) as HJ3 by (split; [|split]; assumption).
  pose proof (cartesian_to_general_on cfg geo Hnx Hny Hgeo _ _ _ E HJ3) as HJg.
  destruct (Staggered.cartesian_to_general cfg geo Jx Jy Jz E) as [[J1 J2] J3].
  destruct HJg as (HJ1 & HJ2 & HJ3g). cbn [field_grids fst snd] in HJ1, HJ2, HJ3g.
  pose proof (staggered_curl_on cfg geo Hnx Hny Hgeo _ _ _ E HE) as HcE.
  destruct (Staggered.curl cfg geo (Staggered.E1 st) (Staggered.E2 st)
              (Staggered.E3 st) E) as [[cE1 cE2] cE3].
  destruct HcE as (HcE1 & HcE2 & HcE3).
  cbn [dual_type field_grids fst snd] in HcE1, HcE2, HcE3.
  destruct HE as (HE1 & HE2 & HE3). destruct HB as (HB1 & HB2 & HB3).
  cbn [field_grids fst snd] in HE1, HE2, HE3, HB1, HB2, HB3.
  set (B1new := sub2 (Staggered.B1 st) (scale2 (dt cfg) cE1)) in *.
  set (B2new := sub2 (Staggered.B2 st) (scale2 (dt cfg) cE2)) in *.
  set (B3new := sub2 (Staggered.B3 st) (scale2 (dt cfg) cE3)) in *.
  assert (field_on cfg B B1new B2new B3new) as HBnew.
  { split; [|split]; cbn [field_grids fst snd];
      apply shape2_sub2; try assumption; apply shape2_scale2; assumption. }
  pose proof (staggered_curl_on cfg geo Hnx Hny Hgeo _ _ _ B HBnew) as HcB.
  destruct (Staggered.curl cfg geo B1new B2new B3new B) as [[cB1 cB2] cB3].
  destruct HcB as (HcB1 & HcB2 & HcB3).
  cbn [dual_type field_grids fst snd] in HcB1, HcB2, HcB3.
  destruct (Staggered.general_to_cartesian cfg geo (Staggered.E1 st)
              (Staggered.E2 st) (Staggered.E3 st) E) as [[Ex Ey] Ez].
  destruct (Staggered.general_to_cartesian cfg geo _ _ _ B) as [[Bx By] Bz].
  destruct (if perturb then _ else _) as [xgen2 ygen2] in H.
  destruct (grid_to_particle cfg xgen2 ygen2 Ex LR) as [Exp|] eqn:HExp; [|done].
  cbn [mbind option_bind] in H.
  destruct (grid_to_particle cfg xgen2 ygen2 Ey UD) as [Eyp|] eqn:HEyp; [|done].
  cbn [mbind option_bind] in H.
  destruct (grid_to_particle cfg xgen2 ygen2 Ez C) as [Ezp|] eqn:HEzp; [|done].
  cbn [mbind option_bind] in H.
  destruct (grid_to_particle cfg xgen2 ygen2 Bx UD) as [Bxp|] eqn:HBxp; [|done].
  cbn [mbind option_bind] in H.
  destruct (grid_to_particle cfg xgen2 ygen2 By LR) as [Byp|] eqn:HByp; [|done].
  cbn [mbind option_bind] in H.
  destruct (grid_to_particle cfg xgen2 ygen2 Bz N) as [Bzp|] eqn:HBzp; [|done].
  cbn [mbind option_bind] in H. injection H as <-.
  apply grid_to_particle_Some in HExp as [LExp _].
  apply grid_to_particle_Some in HEyp as [LEyp _].
  apply grid_to_particle_Some in HEzp as [LEzp _].
  apply grid_to_particle_Some in HBxp as [LBxp _].
  apply grid_to_particle_Some in HByp as [LByp _].
  apply grid_to_particle_Some in HBzp as [LBzp _].
  apply length_phys_to_krylov.
  - unfold on_grid. cbn [grid_shape fst snd].
    apply shape2_add2; [apply shape2_sub2; [apply shape2_sub2|apply shape2_scale2]
                       |apply shape2_scale2]; assumption.
  - unfold on_grid. cbn [grid_shape fst snd].
    apply shape2_add2; [apply shape2_sub2; [apply shape2_sub2|apply shape2_scale2]
                       |apply shape2_scale2]; assumption.
  - unfold on_grid. cbn [grid_shape fst snd].
    apply shape2_add2; [apply shape2_sub2; [apply shape2_sub2|apply shape2_scale2]
                       |apply shape2_scale2]; assumption.
  - lengths.
  - lengths.
  - lengths.
Qed.

(** The state that a pass of the main cycle commits. *)
Lemma staggered_cycle_Some tol kmax perturb st st' :
  staggered_state_shapes cfg st →
  Staggered.cycle_with cfg eps np_pi np_sin geo tol kmax perturb st = Some st' →
  staggered_state_shapes cfg st'
  ∧ Staggered.q st' = Staggered.q st ∧ Staggered.QM st' = Staggered.QM st.
Proof.
  intros Hst H. pose proof Hst as (HE & HB & Hlen).
  repeat (apply list.Forall_cons in Hlen as [? Hlen]). clear Hlen.
  cbv beta in *.
  unfold Staggered.cycle_with, picard_with in H.
  destruct (picard_loop _ _ _ _ _ _ _) as [[[k err2] sol]|] eqn:Hp; [|done].
  cbn [mbind option_bind] in H.
  apply (picard_loop_Some _ _ _ (krylov_len cfg)) in Hp as Hsol.
  2:{ intros yk r Hyk Hr. by eapply staggered_residual_Some. }
  2:{ destruct HE as (? & ? & ?). by apply length_phys_to_krylov. }
  destruct (krylov_pieces cfg sol Hsol)
    as (pa & pb & pc & pu & pv & pw & -> & La & Lb & Lc & Lu & Lv & Lw).
  rewrite krylov_to_phys_pieces in H by done.
  pose proof (shape2_reshape2 _ _ pa La) as Sa.
  pose proof (shape2_reshape2 _ _ pb Lb) as Sb.
  pose proof (shape2_reshape2 _ _ pc Lc) as Sc.
  cbv beta iota zeta in H.
  pose proof (staggered_curl_on cfg geo Hnx Hny Hgeo _ _ _ E HE) as HcE.
  destruct (Staggered.curl cfg geo (Staggered.E1 st) (Staggered.E2 st)
              (Staggered.E3 st) E) as [[cE1 cE2] cE3].
  destruct HcE as (HcE1 & HcE2 & HcE3).
  cbn [dual_type field_grids fst snd] in HcE1, HcE2, HcE3.
  destruct HB as (HB1 & HB2 & HB3). cbn [field_grids fst snd] in HB1, HB2, HB3.
  injection H as <-.
  unfold staggered_state_shapes.
  cbn [Staggered.E1 Staggered.E2 Staggered.E3 Staggered.B1 Staggered.B2
       Staggered.B3 Staggered.x Staggered.y Staggered.u Staggered.v Staggered.w
       Staggered.q Staggered.QM].
  split; [|split; reflexivity].
  split; [|split].
  - split; [exact Sa|]. split; [exact Sb|exact Sc].
  - split; [|split]; cbn [field_grids fst snd];
      apply shape2_sub2; try assumption; apply shape2_scale2; assumption.
  - repeat (constructor; [cbv beta; first [assumption | lengths]|]). constructor.
Qed.

(** The state in which the main cycle finishes. *)
Lemma main_cycle_Finished perturb nt it st st' :
  staggered_state_shapes cfg st →
  Staggered.main_cycle cfg eps np_pi np_sin geo perturb nt it st
  = Staggered.Finished st' →
  staggered_state_shapes cfg st'
  ∧ Staggered.q st' = Staggered.q st ∧ Staggered.QM st' = Staggered.QM st
  ∧ (jacobian_nonzero cfg geo →
     Staggered.div cfg geo (Staggered.B1 st') (Staggered.B2 st')
       (Staggered.B3 st') B
     = Staggered.div cfg geo (Staggered.B1 st) (Staggered.B2 st)
         (Staggered.B3 st) B).
Proof.
  revert it st. induction nt as [|nt IH]; intros it st Hst H;
    cbn [Staggered.main_cycle] in H.
  - injection H as <-. done.
  - destruct (Staggered.cycle_with cfg eps np_pi np_sin geo tol kmax perturb st)
      as [st1|] eqn:Hc; [|done].
    destruct (staggered_cycle_Some _ _ _ _ _ Hst Hc) as (Hst1 & Hq1 & HQM1).
    destruct (IH (S it) st1 Hst1 H) as (Hst' & Hq & HQM & Hdiv).
    split; [exact Hst'|]. split; [congruence|]. split; [congruence|].
    intros Hnz. rewrite (Hdiv Hnz).
    destruct (staggered_cycle_B _ _ _ _ _ _ _ _ _ _ Hc) as (-> & -> & ->).
    destruct Hst as (HE & HB & _).
    by apply induction_update.
Qed.

End StaggeredReturns.

Lemma initialise_geometry_Some cfg eps np_pi np_sin np_cos perturb phys geo :
  Staggered.initialise_geometry cfg eps np_pi np_sin np_cos perturb phys
  = Some geo →
  geometry_ok cfg geo ∧ jacobian_nonzero cfg geo.
Proof.
  unfold Staggered.initialise_geometry. destruct perturb; intros H.
  - by apply define_geometry_well_formed in H.
  - injection H as <-.
    split; [apply identity_geometry_ok|apply identity_geometry_nonzero].
Qed.

Lemma run_st22_finishes :
  ∃ st', Staggered.run cfg22 (Qc_of_Z 2) pi_example sin_example cos_example false
           (λ _, (zeros2 3 3, zeros2 3 3)) 3 staggered_st22
         = Staggered.Finished st'.
Proof.
  unfold Staggered.run, Staggered.initialise_geometry.
  destruct (staggered_main_cycle_finishes cfg22 (Qc_of_Z 2) pi_example
              sin_example (Staggered.identity_geometry cfg22)) with
    (nt := 3) (it := 0) (st := staggered_st22) as (st' & Hrun & _).
  - simpl. lia.
  - simpl. lia.
  - exact cfg22_Lx_pos.
  - exact cfg22_Ly_pos.
  - apply identity_geometry_ok.
  - exact staggered_st22_ok.
  - exists st'. exact Hrun.
Qed.

(** X15.  The state in which a run of the curvilinear solver finishes is
    well formed, with or without [perturb]: from fields on their grids and
    particle arrays of [npart] entries, a run that makes all [nt] passes of
    the main cycle ends with fields on their grids and particle arrays of
    [npart] entries, and with the charges [q] and the charge-to-mass ratios
    [QM] it started from. *)
Theorem finished_run_state_well_formed (cfg : config) (eps np_pi : Qc)
    (np_sin np_cos : Qc → Qc) (perturb : bool) (phys : grid → arr2 * arr2)
    (nt : nat) (st st' : Staggered.state) :
  1 ≤ nx cfg → 1 ≤ ny cfg →
  staggered_state_shapes cfg st →
  Staggered.run cfg eps np_pi np_sin np_cos perturb phys nt st
  = Staggered.Finished st' →
  staggered_state_shapes cfg st'
  ∧ Staggered.q st' = Staggered.q st ∧ Staggered.QM st' = Staggered.QM st.
Proof.
  intros Hnx Hny Hst H. unfold Staggered.run in H.
  destruct (Staggered.initialise_geometry _ _ _ _ _ _ _) as [geo|] eqn:Hgeo;
    [|done].
  apply initialise_geometry_Some in Hgeo as [Hok _].
  destruct (main_cycle_Finished cfg eps np_pi np_sin geo Hnx Hny Hok _ _ _ _ _
              Hst H) as (Hst' & Hq & HQM & _).
  done.
Qed.

Lemma finished_run_state_well_formed_witness :
  ∃ st', Staggered.run cfg22 (Qc_of_Z 2) pi_example sin_example cos_example false
           (λ _, (zeros2 3 3, zeros2 3 3)) 3 staggered_st22
         = Staggered.Finished st'
    ∧ staggered_state_shapes cfg22 st'
    ∧ Staggered.q st' = Staggered.q staggered_st22
    ∧ Staggered.QM st' = Staggered.QM staggered_st22.
Proof.
  destruct run_st22_finishes as [st' Hrun]. exists st'. split; [exact Hrun|].
  apply (finished_run_state_well_formed cfg22 (Qc_of_Z 2) pi_example sin_example
           cos_example false (λ _, (zeros2 3 3, zeros2 3 3)) 3 staggered_st22 st').
  - simpl. lia.
  - simpl. lia.
  - apply staggered_state_ok_shapes. exact staggered_st22_ok.
  - exact Hrun.
Defined.

(** X18.  A run that finishes has kept the divergence of [B], with or
    without [perturb]: with the geometry of the run (the identity, or what
    [define_geometry] returned), the divergence of the magnetic field of the
    final state equals the divergence of the initial one at every node. *)
Theorem finished_run_preserves_div_B (cfg : config) (eps np_pi : Qc)
    (np_sin np_cos : Qc → Qc) (perturb : bool) (phys : grid → arr2 * arr2)
    (geo : Staggered.geometry) (nt : nat) (st st' : Staggered.state) :
  1 ≤ nx cfg → 1 ≤ ny cfg →
  staggered_state_shapes cfg st →
  Staggered.initialise_geometry cfg eps np_pi np_sin np_cos perturb phys
  = Some geo →
  Staggered.run cfg eps np_pi np_sin np_cos perturb phys nt st
  = Staggered.Finished st' →
  Staggered.div cfg geo (Staggered.B1 st') (Staggered.B2 st')
    (Staggered.B3 st') B
  = Staggered.div cfg geo (Staggered.B1 st) (Staggered.B2 st)
      (Staggered.B3 st) B.
Proof.
  intros Hnx Hny Hst Hgeo H. unfold Staggered.run in H. rewrite Hgeo in H.
  apply initialise_geometry_Some in Hgeo as [Hok Hnz].
  destruct (main_cycle_Finished cfg eps np_pi np_sin geo Hnx Hny Hok _ _ _ _ _
              Hst H) as (_ & _ & _ & Hdiv).
  exact (Hdiv Hnz).
Qed.

Lemma finished_run_preserves_div_B_witness :
  ∃ st', Staggered.run cfg22 (Qc_of_Z 2) pi_example sin_example cos_example false
           (λ _, (zeros2 3 3, zeros2 3 3)) 3 staggered_st22
         = Staggered.Finished st'
    ∧ Staggered.div cfg22 (Staggered.identity_geometry cfg22)
        (Staggered.B1 st') (Staggered.B2 st') (Staggered.B3 st') B
      = Staggered.div cfg22 (Staggered.identity_geometry cfg22)
          (Staggered.B1 staggered_st22) (Staggered.B2 staggered_st22)
          (Staggered.B3 staggered_st22) B.
Proof.
  destruct run_st22_finishes as [st' Hrun]. exists st'. split; [exact Hrun|].
  apply (finished_run_preserves_div_B cfg22 (Qc_of_Z 2) pi_example sin_example
           cos_example false (λ _, (zeros2 3 3, zeros2 3 3))
           (Staggered.identity_geometry cfg22) 3 staggered_st22 st').
  - simpl. lia.
  - simpl. lia.
  - apply staggered_state_ok_shapes. exact staggered_st22_ok.
  - reflexivity.
  - exact Hrun.
Defined.

Local Close Scope Qc_scope.
Local Open Scope nat_scope.

(** * The determinant of the perturbed inverse Jacobian *)

(** A quotient [k / L] with [|k| <= K] and [2 K <= L] lies in [-1/2, 1/2]. *)
Lemma half_ratio (k L K : Qc) :
  (0 < L)%Qc → (- K ≤ k)%Qc → (k ≤ K)%Qc → (2 * K ≤ L)%Qc →
  (- decimal 1 2 ≤ k / L)%Qc ∧ (k / L ≤ decimal 1 2)%Qc.
Proof.
  intros HL Hlo Hhi HK.
  assert (L ≠ 0%Qc) as HL0 by (intros ->; by apply (Qclt_not_eq 0 0)).
  split; apply (Qcmult_le_mono_pos_r _ _ L HL);
    rewrite Qcdiv_mult_cancel by done; unfold decimal; toQ; lra.
Qed.

Lemma Qsquare_nonneg (z : Q) : (0 <= z * z)%Q.
Proof. nra. Qed.

Lemma Qsquare_bound (z : Q) :
  (z * z <= 1 # 4)%Q → (- (1 # 2) <= z)%Q ∧ (z <= 1 # 2)%Q.
Proof. intros. split; nra. Qed.

(** Cauchy-Schwarz for the two products of the perturbation. *)
Lemma cauchy_schwarz_half (a b uu vv : Q) :
  (a * a + b * b <= 1)%Q → (uu * uu + vv * vv <= 1 # 4)%Q →
  (- (1 # 2) <= a * uu + b * vv)%Q ∧ (a * uu + b * vv <= 1 # 2)%Q.
Proof.
  intros Hab Huv. apply Qsquare_bound.
  pose proof (Qsquare_nonneg (a * vv - b * uu)) as Hsq.
  pose proof (Qsquare_nonneg uu). pose proof (Qsquare_nonneg vv).
  assert (0 <= (1 - (a * a + b * b)) * (uu * uu + vv * vv))%Q as Hprod
    by (apply Qmult_le_0_compat; lra).
  assert ((a * uu + b * vv) * (a * uu + b * vv)
          + (a * vv - b * uu) * (a * vv - b * uu)
          == (a * a + b * b) * (uu * uu + vv * vv))%Q as E1 by ring.
  assert ((1 - (a * a + b * b)) * (uu * uu + vv * vv)
          == (uu * uu + vv * vv) - (a * a + b * b) * (uu * uu + vv * vv))%Q
    as E2 by ring.
  lra.
Qed.

Lemma scaled_square (d p : Q) :
  (- (1 # 2) <= p)%Q → (p <= 1 # 2)%Q →
  ((d * p) * (d * p) <= (1 # 4) * (d * d))%Q.
Proof.
  intros H1 H2.
  assert (0 <= ((1 # 2) - p) * ((1 # 2) + p))%Q as Hp
    by (apply Qmult_le_0_compat; lra).
  pose proof (Qsquare_nonneg d) as Hd.
  assert (0 <= (d * d) * (((1 # 2) - p) * ((1 # 2) + p)))%Q as Hdp
    by (by apply Qmult_le_0_compat).
  assert ((d * d) * (((1 # 2) - p) * ((1 # 2) + p))
          == (1 # 4) * (d * d) - (d * p) * (d * p))%Q as E by ring.
  lra.
Qed.

(** With [cX^2 + sX^2 <= 1], [cY^2 + sY^2 <= 1] and [r1], [r2] in
    [-1/2, 1/2], [cX*sY*r1 + sX*cY*r2] lies in [-1/2, 1/2]. *)
Lemma perturbation_bound (cX sX cY sY r1 r2 : Qc) :
  (cX * cX + sX * sX ≤ 1)%Qc → (cY * cY + sY * sY ≤ 1)%Qc →
  (- decimal 1 2 ≤ r1)%Qc → (r1 ≤ decimal 1 2)%Qc →
  (- decimal 1 2 ≤ r2)%Qc → (r2 ≤ decimal 1 2)%Qc →
  (- decimal 1 2 ≤ cX * sY * r1 + sX * cY * r2)%Qc
  ∧ (cX * sY * r1 + sX * cY * r2 ≤ decimal 1 2)%Qc.
Proof.
  intros HX HY H1 H2 H3 H4. unfold decimal in *. toQ.
  pose proof (scaled_square (this sY) (this r1) H1 H2) as Hu.
  pose proof (scaled_square (this cY) (this r2) H3 H4) as Hv.
  destruct (cauchy_schwarz_half (this cX) (this sX) (this sY * this r1)
              (this cY * this r2)) as [B1 B2]; [exact HX|lra|].
  split; [eapply Qle_trans; [exact B1|]|eapply Qle_trans; [|exact B2]];
    apply Qle_lteq; right; ring.
Qed.

Section PerturbedDeterminant.
Context (cfg : config) (eps np_pi : Qc) (np_sin np_cos : Qc → Qc).

(** [det j = 1 + j21 + j12]: the determinant of the inverse Jacobian is 1
    plus the two off-diagonal entries. *)
Lemma inverse_jacobian_determinant (xg yg : Qc) :
  Staggered.np_linalg_det
    (Staggered.perturbed_inverse_jacobian_elements cfg eps np_pi np_sin np_cos
       xg yg)
  = (1 + (np_cos (2 * np_pi * xg / Lx cfg) * np_sin (2 * np_pi * yg / Ly cfg)
          * (2 * np_pi * eps / Lx cfg)
          + np_sin (2 * np_pi * xg / Lx cfg) * np_cos (2 * np_pi * yg / Ly cfg)
            * (2 * np_pi * eps / Ly cfg)))%Qc.
Proof.
  unfold Staggered.np_linalg_det, Staggered.perturbed_inverse_jacobian_elements.
  cbv zeta. unfold at2, row_of, nth0. simpl.
  unfold Qcdiv. ring.
Qed.

Hypothesis HLx : (0 < Lx cfg)%Qc.
Hypothesis HLy : (0 < Ly cfg)%Qc.
Hypothesis Hpi : (0 ≤ np_pi)%Qc.
Hypothesis Hcircle : ∀ t, (np_cos t * np_cos t + np_sin t * np_sin t ≤ 1)%Qc.
Context (m : Qc).
Hypothesis Hlo : (- m ≤ eps)%Qc.
Hypothesis Hhi : (eps ≤ m)%Qc.
Hypothesis HKx : (2 * (2 * np_pi * m) ≤ Lx cfg)%Qc.
Hypothesis HKy : (2 * (2 * np_pi * m) ≤ Ly cfg)%Qc.

Lemma small_perturbation_determinant (xg yg : Qc) :
  (decimal 1 2
   ≤ Staggered.np_linalg_det
       (Staggered.perturbed_inverse_jacobian_elements cfg eps np_pi np_sin
          np_cos xg yg))%Qc
  ∧ (Staggered.np_linalg_det
       (Staggered.perturbed_inverse_jacobian_elements cfg eps np_pi np_sin
          np_cos xg yg) ≤ decimal 3 2)%Qc.
Proof.
  rewrite inverse_jacobian_determinant.
  assert (- (2 * np_pi * m) ≤ 2 * np_pi * eps)%Qc as Hk1 by (toQ; nra).
  assert (2 * np_pi * eps ≤ 2 * np_pi * m)%Qc as Hk2 by (toQ; nra).
  destruct (half_ratio _ _ _ HLx Hk1 Hk2 HKx) as [R1 R2].
  destruct (half_ratio _ _ _ HLy Hk1 Hk2 HKy) as [R3 R4].
  pose proof (Hcircle (2 * np_pi * xg / Lx cfg)%Qc) as HX.
  pose proof (Hcircle (2 * np_pi * yg / Ly cfg)%Qc) as HY.
  destruct (perturbation_bound _ _ _ _ _ _ HX HY R1 R2 R3 R4) as [B1 B2].
  set (A := (np_cos (2 * np_pi * xg / Lx cfg) * np_sin (2 * np_pi * yg / Ly cfg)
             * (2 * np_pi * eps / Lx cfg)
             + np_sin (2 * np_pi * xg / Lx cfg) * np_cos (2 * np_pi * yg / Ly cfg)
               * (2 * np_pi * eps / Ly cfg))%Qc) in *.
  clearbody A. unfold decimal in *. split; toQ; lra.
Qed.

End PerturbedDeterminant.

Lemma reciprocal_range (a b : Qc) :
  (a * b = 1)%Qc → (decimal 1 2 ≤ b)%Qc → (0 < a)%Qc ∧ (a ≤ 2)%Qc.
Proof. intros H Hb. unfold decimal in *. split; toQ; nra. Qed.

Lemma circle_stand_ins (t : Qc) :
  (cos_circle t * cos_circle t + sin_circle t * sin_circle t ≤ 1)%Qc.
Proof.
  assert (1 + t * t ≠ 0)%Qc as Hden.
  { intros H. toQ. nra. }
  assert (cos_circle t * cos_circle t + sin_circle t * sin_circle t = 1)%Qc
    as -> by (unfold cos_circle, sin_circle; field; exact Hden).
  apply Qcle_refl.
Qed.

(** X8.  A small perturbation gives a regular geometry.  When
    [cos^2 + sin^2 <= 1], [|eps| <= m] and [4 pi m <= Lx, Ly] (as for
    [eps = 0.5] on the 10 x 10 domain of the source), the determinant of the
    inverse Jacobian, which is 1 plus its two off-diagonal entries, lies in
    [1/2, 3/2] at every point, whatever the physical coordinates:
    [define_geometry] returns, every stored [j_X] lies in [1/2, 3/2] and
    every stored [J_X] in (0, 2]. *)
Theorem small_perturbation_geometry (cfg : config) (eps np_pi : Qc)
    (np_sin np_cos : Qc → Qc) (phys : grid → arr2 * arr2) (m : Qc) :
  (0 < Lx cfg)%Qc → (0 < Ly cfg)%Qc → (0 ≤ np_pi)%Qc →
  (∀ t, (np_cos t * np_cos t + np_sin t * np_sin t ≤ 1)%Qc) →
  (- m ≤ eps)%Qc → (eps ≤ m)%Qc →
  (2 * (2 * np_pi * m) ≤ Lx cfg)%Qc → (2 * (2 * np_pi * m) ≤ Ly cfg)%Qc →
  ∃ geo, Staggered.define_geometry cfg eps np_pi np_sin np_cos phys = Some geo
    ∧ ∀ X i j, i < rows cfg X → j < cols cfg X →
        (decimal 1 2 ≤ at2 (Staggered.jdet_ geo X) i j)%Qc
        ∧ (at2 (Staggered.jdet_ geo X) i j ≤ decimal 3 2)%Qc
        ∧ (0 < at2 (Staggered.Jdet_ geo X) i j)%Qc
        ∧ (at2 (Staggered.Jdet_ geo X) i j ≤ 2)%Qc.
Proof.
  intros HLx HLy Hpi Hcircle Hlo Hhi HKx HKy.
  pose proof (small_perturbation_determinant cfg eps np_pi np_sin np_cos
                HLx HLy Hpi Hcircle m Hlo Hhi HKx HKy) as Hdet.
  destruct (Staggered.define_geometry cfg eps np_pi np_sin np_cos phys)
    as [geo|] eqn:Hgeo.
  - exists geo. split; [reflexivity|]. intros X i j Hi Hj.
    destruct (define_geometry_Some _ _ _ _ _ _ _ X i j Hgeo Hi Hj)
      as (_ & row & p & Hrow & _ & Hp & Hpt).
    apply define_geometry_point_Some in Hpt as (Hj1 & _ & Hinv & _).
    unfold Staggered.jdet_, Staggered.Jdet_.
    rewrite !(at2_point _ _ _ _ _ _ Hrow Hp). rewrite Hj1.
    destruct (Hdet (at2 (phys X).1 i j) (at2 (phys X).2 i j)) as [D1 D2].
    split; [exact D1|]. split; [exact D2|].
    rewrite Hj1 in Hinv. exact (reciprocal_range _ _ Hinv D1).
  - apply define_geometry_None in Hgeo as (X & i & j & _ & _ & Hd).
    unfold inverse_jacobian_det in Hd.
    destruct (Hdet (at2 (phys X).1 i j) (at2 (phys X).2 i j)) as [D1 _].
    rewrite Hd in D1. exfalso. revert D1. vm_compute. intros D1. by apply D1.
Qed.

Lemma small_perturbation_geometry_witness :
  ∃ geo, Staggered.define_geometry cfg22 (decimal 1 6) pi_example sin_circle
           cos_circle phys_example = Some geo
    ∧ ∀ X i j, i < rows cfg22 X → j < cols cfg22 X →
        (decimal 1 2 ≤ at2 (Staggered.jdet_ geo X) i j)%Qc
        ∧ (at2 (Staggered.jdet_ geo X) i j ≤ decimal 3 2)%Qc
        ∧ (0 < at2 (Staggered.Jdet_ geo X) i j)%Qc
        ∧ (at2 (Staggered.Jdet_ geo X) i j ≤ 2)%Qc.
Proof.
  apply (small_perturbation_geometry cfg22 (decimal 1 6) pi_example sin_circle
           cos_circle phys_example (decimal 1 6)).
  - vm_compute. reflexivity.
  - vm_compute. reflexivity.
  - vm_compute. discriminate.
  - exact circle_stand_ins.
  - vm_compute. discriminate.
  - vm_compute. discriminate.
  - vm_compute. discriminate.
  - vm_compute. discriminate.
Defined.

(** X12.  [define_geometry] never looks at the sign of a determinant: at a
    grid point where the inverse Jacobian has a negative determinant, the
    function stores a negative [j_X] and a negative Jacobian determinant
    [J_X], by which [curl] and [div] divide. *)
Theorem negative_jacobian_accepted (cfg : config) (eps np_pi : Qc)
    (np_sin np_cos : Qc → Qc) (phys : grid → arr2 * arr2)
    (geo : Staggered.geometry) (X : grid) (i j : nat) :
  Staggered.define_geometry cfg eps np_pi np_sin np_cos phys = Some geo →
  i < rows cfg X → j < cols cfg X →
  (inverse_jacobian_det cfg eps np_pi np_sin np_cos phys X i j < 0)%Qc →
  (at2 (Staggered.jdet_ geo X) i j < 0)%Qc
  ∧ (at2 (Staggered.Jdet_ geo X) i j < 0)%Qc.
Proof.
  intros Hgeo Hi Hj Hneg.
  destruct (define_geometry_Some _ _ _ _ _ _ _ X i j Hgeo Hi Hj)
    as (_ & row & p & Hrow & _ & Hp & Hpt).
  apply define_geometry_point_Some in Hpt as (Hdet & _ & Hinv & _).
  unfold Staggered.jdet_, Staggered.Jdet_.
  rewrite !(at2_point _ _ _ _ _ _ Hrow Hp).
  unfold inverse_jacobian_det in Hneg. rewrite <- Hdet in Hneg.
  split; [exact Hneg|]. exact (reciprocal_negative _ _ Hinv Hneg).
Qed.

Lemma negative_jacobian_accepted_witness :
  ∃ geo, Staggered.define_geometry cfg22 (Qc_of_Z (-2)) pi_example sin_circle
           cos_circle phys_example = Some geo
    ∧ (at2 (Staggered.jdet_ geo N) 0 1 < 0)%Qc
    ∧ (at2 (Staggered.Jdet_ geo N) 0 1 < 0)%Qc.
Proof.
  destruct (Staggered.define_geometry cfg22 (Qc_of_Z (-2)) pi_example sin_circle
              cos_circle phys_example) as [geo|] eqn:Hgeo.
  - exists geo. split; [reflexivity|].
    apply (negative_jacobian_accepted cfg22 (Qc_of_Z (-2)) pi_example sin_circle
             cos_circle phys_example geo N 0 1).
    + exact Hgeo.
    + vm_compute. lia.
    + vm_compute. lia.
    + vm_compute. reflexivity.
  - vm_compute in Hgeo. discriminate Hgeo.
Defined.
